(** * mpoly/search_monomials.c: the monomial threshold search

    A shallow embedding of [fmpz_mpoly_search_monomials] and the
    properties its specification states about it.

    The routine works on C arrays through pointers, three of which are
    re-assigned inside the main loop, so the embedding keeps an explicit
    memory: the caller's blocks [a], [b], [e], [*e_score], and the seven
    blocks the routine obtains from [flint_malloc].  Pointer variables
    ([find], [gind], [hind], [fexp], [gexp], [hexp]) are values naming a
    block, so two of them may name the same block.  Every access is
    bounds-checked; an access outside its block, a failed [assert] and a
    second [flint_free] of one block stop the run with a [fault].

    The source writes a comma for the second semicolon in the headers of
    the [for] loops of lines 149, 152 and 170 and does not declare [x] and
    [j]; the three loops are read as the [for (init; test; step)] loops
    their layout shows, with [x] and [j] of type [slong].  The main loop
    is given an iteration budget: the embedding of a call takes a number
    [fuel] of iterations it may run and stops with [OutOfFuel] when the
    loop asks for more. *)

From Stdlib Require Import ZArith List Lia Bool.
Import ListNotations.
Open Scope Z_scope.

(** ** Faults and the state-and-error monad *)

Inductive fault : Type :=
| OutOfBounds    (* an access outside the block a pointer names *)
| AssertFailed   (* [assert] with a false argument *)
| DoubleFree     (* [flint_free] of a block already released *)
| OutOfFuel.     (* the embedding's iteration budget is exhausted *)

Inductive res (A : Type) : Type :=
| Val (x : A)
| Err (f : fault).
Arguments Val {A} x.
Arguments Err {A} f.

(** The three blocks of [slong] and the four blocks of [ulong] the routine
    allocates, named after the variable that first receives each. *)
Inductive ibuf : Type := Ifind | Igind | Ihind.
Inductive ebuf : Type := Efexp | Egexp | Ehexp | Etemp.

(** Memory.  A scratch block is [None] until allocated and after it is
    freed. *)
Record mem : Type := mkmem {
  m_a : list Z;                       (* ulong * a : a_len * N words *)
  m_b : list Z;                       (* ulong * b : b_len * N words *)
  m_e : list Z;                       (* ulong * e : N words *)
  m_e_score : Z;                      (* slong * e_score *)
  b_find : option (list Z);
  b_gind : option (list Z);
  b_hind : option (list Z);
  b_fexp : option (list Z);
  b_gexp : option (list Z);
  b_hexp : option (list Z);
  b_temp : option (list Z)
}.

Definition m_ind (m : mem) (p : ibuf) : option (list Z) :=
  match p with
  | Ifind => b_find m
  | Igind => b_gind m
  | Ihind => b_hind m
  end.

Definition m_exp (m : mem) (p : ebuf) : option (list Z) :=
  match p with
  | Efexp => b_fexp m
  | Egexp => b_gexp m
  | Ehexp => b_hexp m
  | Etemp => b_temp m
  end.

Definition set_ind (m : mem) (p : ibuf) (v : option (list Z)) : mem :=
  match p with
  | Ifind => mkmem (m_a m) (m_b m) (m_e m) (m_e_score m)
               v (b_gind m) (b_hind m) (b_fexp m) (b_gexp m) (b_hexp m) (b_temp m)
  | Igind => mkmem (m_a m) (m_b m) (m_e m) (m_e_score m)
               (b_find m) v (b_hind m) (b_fexp m) (b_gexp m) (b_hexp m) (b_temp m)
  | Ihind => mkmem (m_a m) (m_b m) (m_e m) (m_e_score m)
               (b_find m) (b_gind m) v (b_fexp m) (b_gexp m) (b_hexp m) (b_temp m)
  end.

Definition set_exp (m : mem) (p : ebuf) (v : option (list Z)) : mem :=
  match p with
  | Efexp => mkmem (m_a m) (m_b m) (m_e m) (m_e_score m)
               (b_find m) (b_gind m) (b_hind m) v (b_gexp m) (b_hexp m) (b_temp m)
  | Egexp => mkmem (m_a m) (m_b m) (m_e m) (m_e_score m)
               (b_find m) (b_gind m) (b_hind m) (b_fexp m) v (b_hexp m) (b_temp m)
  | Ehexp => mkmem (m_a m) (m_b m) (m_e m) (m_e_score m)
               (b_find m) (b_gind m) (b_hind m) (b_fexp m) (b_gexp m) v (b_temp m)
  | Etemp => mkmem (m_a m) (m_b m) (m_e m) (m_e_score m)
               (b_find m) (b_gind m) (b_hind m) (b_fexp m) (b_gexp m) (b_hexp m) v
  end.

Definition set_e (m : mem) (v : list Z) : mem :=
  mkmem (m_a m) (m_b m) v (m_e_score m)
        (b_find m) (b_gind m) (b_hind m) (b_fexp m) (b_gexp m) (b_hexp m) (b_temp m).

Definition set_e_score (m : mem) (v : Z) : mem :=
  mkmem (m_a m) (m_b m) (m_e m) v
        (b_find m) (b_gind m) (b_hind m) (b_fexp m) (b_gexp m) (b_hexp m) (b_temp m).

Definition M (A : Type) : Type := mem -> res A * mem.

Definition ret {A} (x : A) : M A := fun m => (Val x, m).
Definition fail {A} (f : fault) : M A := fun m => (Err f, m).
Definition bind {A B} (c : M A) (k : A -> M B) : M B :=
  fun m => match c m with
           | (Val x, m') => k x m'
           | (Err f, m') => (Err f, m')
           end.

Declare Scope cmd_scope.
Delimit Scope cmd_scope with cmd.
Notation "x <- c ;; k" := (bind c (fun x => k))
  (at level 100, c at next level, right associativity) : cmd_scope.
Notation "c ;;; k" := (bind c (fun _ => k))
  (at level 100, right associativity) : cmd_scope.
Open Scope cmd_scope.

Definition of_option {A} (o : option A) : M A :=
  match o with Some x => ret x | None => fail OutOfBounds end.

Definition assert (b : bool) : M unit :=
  if b then ret tt else fail AssertFailed.

(** ** Arrays indexed by an [slong] *)

Definition in_block {A} (l : list A) (i : Z) : bool :=
  (0 <=? i) && (i <? Z.of_nat (length l)).

Definition zget {A} (l : list A) (i : Z) : option A :=
  if in_block l i then nth_error l (Z.to_nat i) else None.

Definition zset {A} (l : list A) (i : Z) (v : A) : option (list A) :=
  if in_block l i
  then Some (firstn (Z.to_nat i) l ++ v :: skipn (S (Z.to_nat i)) l)
  else None.

(** The [n] words at offset [off]. *)
Definition zslice (l : list Z) (off n : Z) : option (list Z) :=
  if (0 <=? off) && (0 <=? n) && (off + n <=? Z.of_nat (length l))
  then Some (firstn (Z.to_nat n) (skipn (Z.to_nat off) l))
  else None.

(** Overwrite the first [length ws] words of a block. *)
Definition blit (l ws : list Z) : option (list Z) :=
  if (length ws <=? length l)%nat
  then Some (ws ++ skipn (length ws) l)
  else None.

Definition load_ind (p : ibuf) (i : Z) : M Z :=
  fun m => match m_ind m p with
           | Some l => of_option (zget l i) m
           | None => (Err OutOfBounds, m)
           end.

Definition store_ind (p : ibuf) (i v : Z) : M unit :=
  fun m => match m_ind m p with
           | Some l => match zset l i v with
                       | Some l' => (Val tt, set_ind m p (Some l'))
                       | None => (Err OutOfBounds, m)
                       end
           | None => (Err OutOfBounds, m)
           end.

Definition load_exp (p : ebuf) (N : Z) : M (list Z) :=
  fun m => match m_exp m p with
           | Some l => of_option (zslice l 0 N) m
           | None => (Err OutOfBounds, m)
           end.

Definition store_exp (p : ebuf) (ws : list Z) : M unit :=
  fun m => match m_exp m p with
           | Some l => match blit l ws with
                       | Some l' => (Val tt, set_exp m p (Some l'))
                       | None => (Err OutOfBounds, m)
                       end
           | None => (Err OutOfBounds, m)
           end.

Definition store_exp_word (p : ebuf) (i v : Z) : M unit :=
  fun m => match m_exp m p with
           | Some l => match zset l i v with
                       | Some l' => (Val tt, set_exp m p (Some l'))
                       | None => (Err OutOfBounds, m)
                       end
           | None => (Err OutOfBounds, m)
           end.

(** [a + i*N] and [b + j*N], read as [N] words; the offset is checked
    against the block as the integer it is. *)
Definition load_a (i N : Z) : M (list Z) :=
  fun m => of_option (zslice (m_a m) (i * N) N) m.

Definition load_b (j N : Z) : M (list Z) :=
  fun m => of_option (zslice (m_b m) (j * N) N) m.

Definition store_e (ws : list Z) : M unit :=
  fun m => match blit (m_e m) ws with
           | Some l' => (Val tt, set_e m l')
           | None => (Err OutOfBounds, m)
           end.

Definition store_e_score (v : Z) : M unit :=
  fun m => (Val tt, set_e_score m v).

(** [flint_malloc]: the block becomes live with the indeterminate contents
    [junk]. *)
Definition flint_malloc_ind (p : ibuf) (junk : list Z) : M unit :=
  fun m => (Val tt, set_ind m p (Some junk)).

Definition flint_malloc_exp (p : ebuf) (junk : list Z) : M unit :=
  fun m => (Val tt, set_exp m p (Some junk)).

Definition flint_free_ind (p : ibuf) : M unit :=
  fun m => match m_ind m p with
           | Some _ => (Val tt, set_ind m p None)
           | None => (Err DoubleFree, m)
           end.

Definition flint_free_exp (p : ebuf) : M unit :=
  fun m => match m_exp m p with
           | Some _ => (Val tt, set_exp m p None)
           | None => (Err DoubleFree, m)
           end.

(** [for (i = lo; i < hi; i++) body(i)] for a body that neither breaks nor
    assigns [i]. *)
Fixpoint for_count (n : nat) (i : Z) (body : Z -> M unit) : M unit :=
  match n with
  | O => ret tt
  | S n' => body i ;;; for_count n' (i + 1) body
  end.

Definition for_up (lo hi : Z) (body : Z -> M unit) : M unit :=
  for_count (Z.to_nat (hi - lo)) lo body.

(** The same loop threading the local variables [S] its body assigns. *)
Fixpoint fold_count {S : Type} (n : nat) (i : Z)
         (body : Z -> S -> M S) (s : S) : M S :=
  match n with
  | O => ret s
  | S n' => s' <- body i s ;; fold_count n' (i + 1) body s'
  end.

Definition fold_up {S : Type} (lo hi : Z) (body : Z -> S -> M S) (s : S) : M S :=
  fold_count (Z.to_nat (hi - lo)) lo body s.

(** [for (i = hi; i >= 0; i--) body(i)], threading locals. *)
Fixpoint fold_down_count {S : Type} (n : nat) (i : Z)
         (body : Z -> S -> M S) (s : S) : M S :=
  match n with
  | O => ret s
  | S n' => s' <- body i s ;; fold_down_count n' (i - 1) body s'
  end.

Definition fold_down {S : Type} (hi : Z) (body : Z -> S -> M S) (s : S) : M S :=
  fold_down_count (Z.to_nat (hi + 1)) hi body s.

(** ** The routine *)

(** The indeterminate contents of the blocks [flint_malloc] returns. *)
Record scratch : Type := mkscratch {
  j_find : list Z; j_gind : list Z; j_hind : list Z;
  j_fexp : list Z; j_gexp : list Z; j_hexp : list Z; j_temp : list Z
}.

(** The variables [find]/[fexp]/[fscore] (and likewise for g and h):
    two pointers and a score. *)
Record cand : Type := mkcand { c_ind : ibuf; c_exp : ebuf; c_score : Z }.

(** What one pass through the body of the main loop leaves behind. *)
Inductive step : Type :=
| Break
| Next (F G H : cand).

(** Modelled from the spec: the [min] and [max] of two bounds; flint.h,
    which defines the macros, is not part of the sources. *)
Definition FLINT_MIN (x y : Z) : Z := if x <=? y then x else y.
Definition FLINT_MAX (x y : Z) : Z := if x >? y then x else y.

Section Search.

(** flint.h: the number of bits of [ulong] and [slong]. *)
Variable FLINT_BITS : Z.

(** mpoly.h: the comparison of two packed monomials of [N] words under the
    masks [maskhi] and [masklo]. *)
Variable less_than : list Z -> list Z -> Z -> Z -> Z -> bool.

(** Arithmetic on [slong] and [ulong] wraps around. *)
Definition slong_wrap (z : Z) : Z :=
  (z + 2 ^ (FLINT_BITS - 1)) mod 2 ^ FLINT_BITS - 2 ^ (FLINT_BITS - 1).

Definition ulong_wrap (z : Z) : Z := z mod 2 ^ FLINT_BITS.

(** Line 51: the number of words of a packed monomial. *)
Definition monomial_words (ab_bits ab_elems : Z) : Z :=
  slong_wrap
    (Z.quot (slong_wrap (slong_wrap (ab_bits * ab_elems) - 1)) FLINT_BITS + 1).

(** Modelled from the spec: [add(dst, x, y, N)], the elementwise packed sum;
    mpoly.h, which defines [mpoly_monomial_add], is not part of the
    sources. *)
Definition add_words (x y : list Z) : list Z :=
  map (fun p => ulong_wrap (fst p + snd p)) (combine x y).

(** Modelled from the spec: [equal(x, y, N)]; mpoly.h, which defines
    [mpoly_monomial_eq], is not part of the sources. *)
Fixpoint eq_words (x y : list Z) : bool :=
  match x, y with
  | [], [] => true
  | u :: x', v :: y' => (u =? v) && eq_words x' y'
  | _, _ => false
  end.

(** [mpoly_monomial_add(dst, a + i*N, b + j*N, N)]. *)
Definition mpoly_monomial_add (dst : ebuf) (i j N : Z) : M unit :=
  x <- load_a i N ;;
  y <- load_b j N ;;
  store_exp dst (add_words x y).

Definition mpoly_monomial_eq (p q : ebuf) (N : Z) : M bool :=
  x <- load_exp p N ;;
  y <- load_exp q N ;;
  ret (eq_words x y).

Definition mpoly_monomial_lt (p q : ebuf) (N maskhi masklo : Z) : M bool :=
  x <- load_exp p N ;;
  y <- load_exp q N ;;
  ret (less_than x y N maskhi masklo).

(** [mpoly_monomial_set(e, p, N)]. *)
Definition mpoly_monomial_set (p : ebuf) (N : Z) : M unit :=
  x <- load_exp p N ;;
  store_e x.

(** Lines 53-75: the candidates f and g are set up and h is allocated.
    [hscore] is assigned before it is first read; 0 stands for the value it
    has until then. *)
Definition init (junk : scratch) (a_len b_len N : Z) : M (cand * cand * cand) :=
  let fscore := slong_wrap (a_len * b_len) in
  flint_malloc_exp Efexp (j_fexp junk) ;;;
  flint_malloc_ind Ifind (j_find junk) ;;;
  mpoly_monomial_add Efexp 0 0 N ;;;
  for_up 0 a_len (fun i => store_ind Ifind i 0) ;;;
  let gscore := 1 in
  flint_malloc_exp Egexp (j_gexp junk) ;;;
  flint_malloc_ind Igind (j_gind junk) ;;;
  mpoly_monomial_add Egexp (slong_wrap (a_len - 1)) (slong_wrap (b_len - 1)) N ;;;
  for_up 0 N (fun i => store_exp_word Egexp i 0) ;;;
  for_up 0 a_len (fun i => store_ind Ifind i b_len) ;;;
  store_ind Ifind (slong_wrap (a_len - 1)) (slong_wrap (b_len - 1)) ;;;
  flint_malloc_exp Ehexp (j_hexp junk) ;;;
  flint_malloc_ind Ihind (j_hind junk) ;;;
  flint_malloc_exp Etemp (j_temp junk) ;;;
  ret (mkcand Ifind Efexp fscore, mkcand Igind Egexp gscore, mkcand Ihind Ehexp 0).

(** Lines 93-97: the body of the pass that computes [maxdiff] and
    [maxind], the two locals it assigns. *)
Definition find_maxdiff_row (find gind : ibuf) (i : Z) (s : Z * Z) : M (Z * Z) :=
  let (maxdiff, maxind) := s in
  g <- load_ind gind i ;;
  f <- load_ind find i ;;
  if maxdiff <? slong_wrap (g - f)
  then ret (slong_wrap (g - f), -1)
  else ret (maxdiff, maxind).

(** Lines 89-98. *)
Definition find_maxdiff (a_len : Z) (find gind : ibuf) : M (Z * Z) :=
  fold_up 0 a_len (find_maxdiff_row find gind) (-1, -1).

(** Lines 111-120: the body of the pass over the rows when [maxdiff == 1];
    the local it assigns is [maxind]. *)
Definition scan_gap1_row (N : Z) (F G H : cand) (i maxind : Z) : M Z :=
  g <- load_ind (c_ind G) i ;;
  f <- load_ind (c_ind F) i ;;
  if g >? f then
    mpoly_monomial_add Etemp i f N ;;;
    same <- mpoly_monomial_eq Etemp (c_exp F) N ;;
    if negb same then
      let maxind := i in
      fi <- load_ind (c_ind F) i ;;
      store_ind (c_ind H) maxind fi ;;;
      hm <- load_ind (c_ind H) maxind ;;
      mpoly_monomial_add (c_exp H) maxind hm N ;;;
      ret maxind
    else ret maxind
  else ret maxind.

(** Lines 108-121. *)
Definition scan_gap1 (a_len N : Z) (F G H : cand) : M Z :=
  fold_up 0 a_len (scan_gap1_row N F G H) (-1).

(** Lines 152-159: the inner loop of the pass to the right; [n] bounds the
    number of values [j] takes from its start down to [find[i]], which the
    loop does not write. *)
Fixpoint inner_right (n : nat) (N maskhi masklo : Z) (hexp : ebuf)
         (i j x : Z) : M Z :=
  match n with
  | O => ret x
  | S n' =>
      mpoly_monomial_add Etemp i j N ;;;
      below <- mpoly_monomial_lt Etemp hexp N maskhi masklo ;;
      if below
      then inner_right n' N maskhi masklo hexp i (j - 1) (slong_wrap (j + 1))
      else ret x
  end.

(** Lines 149-162; the local threaded is [hscore]. *)
Definition path_right (a_len N maskhi masklo : Z) (F G H : cand)
           (maxind hscore : Z) : M Z :=
  fold_up (slong_wrap (maxind + 1)) a_len
    (fun i (hscore : Z) =>
       x <- load_ind (c_ind F) i ;;
       hp <- load_ind (c_ind H) (slong_wrap (i - 1)) ;;
       g <- load_ind (c_ind G) i ;;
       let j := slong_wrap (FLINT_MIN hp g - 1) in
       f <- load_ind (c_ind F) i ;;
       x <- inner_right (Z.to_nat (j - f + 1)) N maskhi masklo (c_exp H) i j x ;;
       store_ind (c_ind H) i x ;;;
       g <- load_ind (c_ind G) i ;;
       h <- load_ind (c_ind H) i ;;
       ret (slong_wrap (hscore + slong_wrap (g - h))))
    hscore.

(** Lines 170-177: the inner loop of the pass to the left; [n] bounds the
    number of values [j] takes from its start up to [gind[i]], which the
    loop does not write. *)
Fixpoint inner_left (n : nat) (N maskhi masklo : Z) (hexp : ebuf)
         (i j x : Z) : M Z :=
  match n with
  | O => ret x
  | S n' =>
      mpoly_monomial_add Etemp i j N ;;;
      below <- mpoly_monomial_lt Etemp hexp N maskhi masklo ;;
      if below
      then inner_left n' N maskhi masklo hexp i (j + 1) (slong_wrap (j + 1))
      else ret x
  end.

(** Lines 167-180; the local threaded is [hscore]. *)
Definition path_left (N maskhi masklo : Z) (F G H : cand)
           (maxind hscore : Z) : M Z :=
  fold_down (slong_wrap (maxind - 1))
    (fun i (hscore : Z) =>
       hn <- load_ind (c_ind H) (slong_wrap (i + 1)) ;;
       f <- load_ind (c_ind F) i ;;
       let x := FLINT_MAX hn f in
       let j := FLINT_MAX hn f in
       g <- load_ind (c_ind G) i ;;
       x <- inner_left (Z.to_nat (g - j)) N maskhi masklo (c_exp H) i j x ;;
       store_ind (c_ind H) i x ;;;
       g <- load_ind (c_ind G) i ;;
       h <- load_ind (c_ind H) i ;;
       ret (slong_wrap (hscore + slong_wrap (g - h))))
    hscore.

(** Lines 100-130: from [maxdiff] to the pivot row; [None] is a [break]. *)
Definition choose_pivot (a_len N : Z) (F G H : cand)
           (maxdiff maxind : Z) : M (option Z) :=
  if maxdiff =? 0 then ret None
  else if maxdiff =? 1 then
    maxind <- scan_gap1 a_len N F G H ;;
    if maxind =? -1 then ret None else ret (Some maxind)
  else
    g <- load_ind (c_ind G) maxind ;;
    f <- load_ind (c_ind F) maxind ;;
    store_ind (c_ind H) maxind (Z.quot (slong_wrap (g + f)) 2) ;;;
    ret (Some maxind).

(** Lines 183-192: h replaces g or f.  In the second branch [tind], [tscore]
    and [texp] are taken from g, as in the first. *)
Definition replace (upper : Z) (F G H : cand) (hscore : Z) : step :=
  let H := mkcand (c_ind H) (c_exp H) hscore in
  if hscore <=? upper
  then let T := G in Next F H T
  else let T := G in Next H G T.

(** Lines 87-192: the body of the main loop. *)
Definition loop_body (upper a_len N maskhi masklo : Z) (F G H : cand) : M step :=
  s <- find_maxdiff a_len (c_ind F) (c_ind G) ;;
  let (maxdiff, maxind) := s in
  p <- choose_pivot a_len N F G H maxdiff maxind ;;
  match p with
  | None => ret Break
  | Some maxind =>
      hm <- load_ind (c_ind H) maxind ;;
      mpoly_monomial_add (c_exp H) maxind hm N ;;;
      lt1 <- mpoly_monomial_lt (c_exp F) (c_exp H) N maskhi masklo ;;
      assert lt1 ;;;
      lt2 <- mpoly_monomial_lt (c_exp H) (c_exp G) N maskhi masklo ;;
      assert lt2 ;;;
      gm <- load_ind (c_ind G) maxind ;;
      hm <- load_ind (c_ind H) maxind ;;
      let hscore := slong_wrap (slong_wrap (c_score G + gm) - hm) in
      hscore <- path_right a_len N maskhi masklo F G H maxind hscore ;;
      hscore <- path_left N maskhi masklo F G H maxind hscore ;;
      ret (replace upper F G H hscore)
  end.

(** Line 86: [while (gscore < lower && upper < fscore)]. *)
Fixpoint main_loop (fuel : nat) (lower upper a_len N maskhi masklo : Z)
         (F G H : cand) : M (cand * cand * cand) :=
  if (c_score G <? lower) && (upper <? c_score F) then
    match fuel with
    | O => fail OutOfFuel
    | S fuel' =>
        s <- loop_body upper a_len N maskhi masklo F G H ;;
        match s with
        | Break => ret (F, G, H)
        | Next F' G' H' => main_loop fuel' lower upper a_len N maskhi masklo F' G' H'
        end
    end
  else ret (F, G, H).

(** Lines 196-221: which of f and g is handed back. *)
Inductive choice : Type := ChooseF | ChooseG.

Definition final_choice (lower upper fscore gscore : Z) : choice :=
  if fscore <=? lower then ChooseF
  else if gscore >=? upper then ChooseG
  else if fscore <=? upper then ChooseF
  else if gscore >=? lower then ChooseG
  else if slong_wrap (fscore - upper) <? slong_wrap (lower - gscore) then ChooseF
  else ChooseG.

Definition hand_back (N : Z) (C : cand) : M unit :=
  mpoly_monomial_set (c_exp C) N ;;;
  store_e_score (c_score C).

Definition final_selection (lower upper N : Z) (F G : cand) : M unit :=
  match final_choice lower upper (c_score F) (c_score G) with
  | ChooseF => hand_back N F
  | ChooseG => hand_back N G
  end.

(** Lines 223-229. *)
Definition release (F G H : cand) : M unit :=
  flint_free_exp Etemp ;;;
  flint_free_ind (c_ind H) ;;;
  flint_free_exp (c_exp H) ;;;
  flint_free_ind (c_ind G) ;;;
  flint_free_exp (c_exp G) ;;;
  flint_free_ind (c_ind F) ;;;
  flint_free_exp (c_exp F).

Definition fmpz_mpoly_search_monomials (fuel : nat) (junk : scratch)
           (lower upper a_len b_len ab_bits ab_elems maskhi masklo : Z) : M unit :=
  assert (a_len >? 0) ;;;
  assert (b_len >? 0) ;;;
  assert (lower <=? upper) ;;;
  let N := monomial_words ab_bits ab_elems in
  fgh <- init junk a_len b_len N ;;
  let '(F, G, H) := fgh in
  if c_score F =? c_score G then
    hand_back N F
  else
    fgh <- main_loop fuel lower upper a_len N maskhi masklo F G H ;;
    let '(F, G, H) := fgh in
    final_selection lower upper N F G ;;;
    release F G H.

End Search.

(** ** Notions the statements use *)

(** The monomial at index [i] of an array of [N]-word monomials. *)
Definition mono (l : list Z) (N i : Z) : list Z :=
  firstn (Z.to_nat N) (skipn (Z.to_nat (i * N)) l).

(** The rows [0 .. n-1]. *)
Definition rows (n : Z) : list Z := map Z.of_nat (seq 0 (Z.to_nat n)).

(** A command that leaves the caller's arrays as they are. *)
Definition keeps_inputs {A} (c : M A) : Prop :=
  forall m, m_a (snd (c m)) = m_a m /\ m_b (snd (c m)) = m_b m.

Section Notions.

Variable FLINT_BITS : Z.
Variable less_than : list Z -> list Z -> Z -> Z -> Z -> bool.

Definition slong_max : Z := 2 ^ (FLINT_BITS - 1) - 1.
Definition slong_min : Z := - 2 ^ (FLINT_BITS - 1).

(** The cell [A[i] + B[j]] of the product matrix. *)
Definition product (m : mem) (N i j : Z) : list Z :=
  add_words FLINT_BITS (mono (m_a m) N i) (mono (m_b m) N j).

(** The comment above the routine: [score(e)] is the number of cross
    products in [a X b] that are [<= e], that is, not above [e]. *)
Definition score (m : mem) (a_len b_len N maskhi masklo : Z) (e : list Z) : Z :=
  Z.of_nat
    (length
       (filter (fun ij => negb (less_than e (product m N (fst ij) (snd ij))
                                          N maskhi masklo))
               (list_prod (rows a_len) (rows b_len)))).

(** What a caller has to provide: the asserted preconditions, arguments
    that are [slong] values, arrays of the announced sizes, a result
    buffer of [N] words, and what [flint_malloc] hands out has the size
    asked for. *)
Record valid_call (junk : scratch) (lower upper a_len b_len N : Z) (m : mem) : Prop := {
  vc_bits : 0 < FLINT_BITS;
  vc_a_len : 0 < a_len <= slong_max;
  vc_b_len : 0 < b_len <= slong_max;
  vc_range : lower <= upper;
  vc_lower : slong_min <= lower <= slong_max;
  vc_upper : slong_min <= upper <= slong_max;
  vc_N : 0 < N;
  vc_a : Z.of_nat (length (m_a m)) = a_len * N;
  vc_b : Z.of_nat (length (m_b m)) = b_len * N;
  vc_e : Z.of_nat (length (m_e m)) = N;
  vc_find : Z.of_nat (length (j_find junk)) = a_len;
  vc_gind : Z.of_nat (length (j_gind junk)) = a_len;
  vc_hind : Z.of_nat (length (j_hind junk)) = a_len;
  vc_fexp : Z.of_nat (length (j_fexp junk)) = N;
  vc_gexp : Z.of_nat (length (j_gexp junk)) = N;
  vc_hexp : Z.of_nat (length (j_hexp junk)) = N;
  vc_temp : Z.of_nat (length (j_temp junk)) = N
}.

(** The memory and the candidates lines 53-75 leave behind. *)
Definition after_init (junk : scratch) (a_len b_len N : Z) (m : mem) : mem :=
  mkmem (m_a m) (m_b m) (m_e m) (m_e_score m)
        (Some (repeat b_len (Z.to_nat (a_len - 1)) ++ [b_len - 1]))
        (Some (j_gind junk))
        (Some (j_hind junk))
        (Some (product m N 0 0))
        (Some (repeat 0 (Z.to_nat N)))
        (Some (j_hexp junk))
        (Some (j_temp junk)).

Definition F0 (a_len b_len : Z) : cand :=
  mkcand Ifind Efexp (slong_wrap FLINT_BITS (a_len * b_len)).
Definition G0 : cand := mkcand Igind Egexp 1.
Definition H0 : cand := mkcand Ihind Ehexp 0.

(** What a call yields when f, as set up by lines 53-59, is handed back. *)
Definition f_handed_back (a_len b_len N : Z) (m m' : mem) : Prop :=
  m_e m' = product m N 0 0 /\ m_e_score m' = a_len * b_len.

(** The memory the early exit of lines 78-83 leaves behind: f's monomial
    and score are stored, and the scratch blocks are still allocated. *)
Definition after_early_exit (junk : scratch) (a_len b_len N : Z) (m : mem) : mem :=
  set_e_score (set_e (after_init junk a_len b_len N m) (product m N 0 0))
              (a_len * b_len).

(** The inputs are strictly descending under the order, which is a strict
    order that addition respects on the entries of the two arrays. *)
Record descending_inputs (m : mem) (a_len b_len N maskhi masklo : Z) : Prop := {
  di_irrefl : forall x, less_than x x N maskhi masklo = false;
  di_trans : forall x y z,
      less_than x y N maskhi masklo = true ->
      less_than y z N maskhi masklo = true ->
      less_than x z N maskhi masklo = true;
  di_a : forall i i', 0 <= i < i' -> i' < a_len ->
      less_than (mono (m_a m) N i') (mono (m_a m) N i) N maskhi masklo = true;
  di_b : forall j j', 0 <= j < j' -> j' < b_len ->
      less_than (mono (m_b m) N j') (mono (m_b m) N j) N maskhi masklo = true;
  di_add_a : forall i i' j, 0 <= i < a_len -> 0 <= i' < a_len -> 0 <= j < b_len ->
      less_than (mono (m_a m) N i') (mono (m_a m) N i) N maskhi masklo = true ->
      less_than (product m N i' j) (product m N i j) N maskhi masklo = true;
  di_add_b : forall i j j', 0 <= i < a_len -> 0 <= j < b_len -> 0 <= j' < b_len ->
      less_than (mono (m_b m) N j') (mono (m_b m) N j) N maskhi masklo = true ->
      less_than (product m N i j') (product m N i j) N maskhi masklo = true
}.

(** The final selection as the specification words it: five rules, the
    first that applies wins, and on equal distances f is handed back. *)
Definition claimed_choice (lower upper fscore gscore : Z) : choice :=
  if fscore <=? lower then ChooseF
  else if gscore >=? upper then ChooseG
  else if fscore <=? upper then ChooseF
  else if gscore >=? lower then ChooseG
  else match (fscore - upper) ?= (lower - gscore) with
       | Lt => ChooseF
       | Eq => ChooseF
       | Gt => ChooseG
       end.

(** The same rules with g handed back on equal distances. *)
Definition ties_to_g_choice (lower upper fscore gscore : Z) : choice :=
  if fscore <=? lower then ChooseF
  else if gscore >=? upper then ChooseG
  else if fscore <=? upper then ChooseF
  else if gscore >=? lower then ChooseG
  else match (fscore - upper) ?= (lower - gscore) with
       | Lt => ChooseF
       | Eq => ChooseG
       | Gt => ChooseG
       end.

Definition chosen (c : choice) (F G : cand) : cand :=
  match c with ChooseF => F | ChooseG => G end.

(** [d] is what lines 89-98 should leave in [maxdiff] after the rows below
    [k]: -1 or the gap of one of them, and at least every such gap. *)
Definition is_max_gap (fl gl : list Z) (k d : Z) : Prop :=
  -1 <= d
  /\ (forall i g f, i < k -> zget gl i = Some g -> zget fl i = Some f ->
                    slong_wrap FLINT_BITS (g - f) <= d)
  /\ (d = -1 \/
      exists i g f, i < k /\ zget gl i = Some g /\ zget fl i = Some f /\
                    d = slong_wrap FLINT_BITS (g - f)).

(** Row [i] has [gind[i] > find[i]] and its cell [A[i] + B[find[i]]] is
    not f's monomial. *)
Definition row_differs (m : mem) (N : Z) (F G : cand) (i : Z) : bool :=
  match m_ind m (c_ind G), m_ind m (c_ind F), m_exp m (c_exp F) with
  | Some gl, Some fl, Some fe =>
      match zget gl i, zget fl i with
      | Some g, Some f =>
          (g >? f) && negb (eq_words (product m N i f) (firstn (Z.to_nat N) fe))
      | _, _ => false
      end
  | _, _, _ => false
  end.

(** The first and the last such row in ascending order of the index. *)
Definition first_differing (m : mem) (a_len N : Z) (F G : cand) : option Z :=
  find (row_differs m N F G) (rows a_len).

Definition last_differing (m : mem) (a_len N : Z) (F G : cand) : option Z :=
  find (row_differs m N F G) (rev (rows a_len)).

Definition row_or_none (o : option Z) : Z :=
  match o with Some i => i | None => -1 end.

(** A state in which the pass of lines 108-121 can run: the blocks are
    allocated with the sizes the routine asked for, h's blocks are not f's,
    no candidate uses the scratch monomial, and wherever g's frontier is
    beyond f's, f's frontier is a column of the matrix. *)
Record scan_ready (m : mem) (a_len b_len N : Z) (F G H : cand)
       (fl gl fe : list Z) : Prop := {
  sr_N : 0 < N;
  sr_a_len : 0 <= a_len;
  sr_a : Z.of_nat (length (m_a m)) = a_len * N;
  sr_b : Z.of_nat (length (m_b m)) = b_len * N;
  sr_find : m_ind m (c_ind F) = Some fl;
  sr_gind : m_ind m (c_ind G) = Some gl;
  sr_find_len : Z.of_nat (length fl) = a_len;
  sr_gind_len : Z.of_nat (length gl) = a_len;
  sr_hind : exists hl, m_ind m (c_ind H) = Some hl /\ Z.of_nat (length hl) = a_len;
  sr_fexp : m_exp m (c_exp F) = Some fe;
  sr_fexp_len : Z.of_nat (length fe) = N;
  sr_hexp : exists he, m_exp m (c_exp H) = Some he /\ Z.of_nat (length he) = N;
  sr_temp : exists te, m_exp m Etemp = Some te /\ Z.of_nat (length te) = N;
  sr_ind_apart : c_ind H <> c_ind F;
  sr_exp_apart : c_exp H <> c_exp F;
  sr_f_temp : c_exp F <> Etemp;
  sr_h_temp : c_exp H <> Etemp;
  sr_cols : forall i g f,
      zget gl i = Some g -> zget fl i = Some f -> g > f -> 0 <= f < b_len
}.

(** What holds of the memory [mc] and of [maxind] when the pass, started
    in [m], has dealt with the rows below [k]. *)
Record scan_inv (m : mem) (a_len N : Z) (F G H : cand) (fl gl fe : list Z)
       (k maxind : Z) (mc : mem) : Prop := {
  si_a : m_a mc = m_a m;
  si_b : m_b mc = m_b m;
  si_find : m_ind mc (c_ind F) = Some fl;
  si_fexp : m_exp mc (c_exp F) = Some fe;
  si_gind : exists gl', m_ind mc (c_ind G) = Some gl' /\
                        forall j, k <= j -> zget gl' j = zget gl j;
  si_hind : exists hl', m_ind mc (c_ind H) = Some hl' /\
                        Z.of_nat (length hl') = a_len /\
                        forall f, 0 <= maxind -> zget fl maxind = Some f ->
                                  zget hl' maxind = Some f;
  si_hexp : exists he', m_exp mc (c_exp H) = Some he' /\
                        Z.of_nat (length he') = N /\
                        forall f, 0 <= maxind -> zget fl maxind = Some f ->
                                  he' = product m N maxind f;
  si_temp : exists te', m_exp mc Etemp = Some te' /\ Z.of_nat (length te') = N;
  si_maxind : maxind = row_or_none (find (row_differs m N F G) (rev (rows k)))
}.

End Notions.

(** ** A concrete order, for the examples *)

(** Modelled from the spec: [less_than(x, y, N, maskhi, masklo)] for
    degree-ordered monomials of one field in one word, where the order is
    the numeric order of that word; mpoly.h, which defines
    [mpoly_monomial_lt], is not part of the sources. *)
Definition less_than_deg (x y : list Z) (N maskhi masklo : Z) : bool :=
  match x, y with
  | u :: _, v :: _ => u <? v
  | _, _ => false
  end.

(** The caller's memory for [A = [5, 3, 1]], [B = [4, 2]], one word per
    monomial, before the call. *)
Definition example_mem : mem :=
  mkmem [5; 3; 1] [4; 2] [0] 0 None None None None None None None.

(** Fresh blocks for that call whose [gind] block reads [g]. *)
Definition example_junk (g : list Z) : scratch :=
  mkscratch [0; 0; 0] g [0; 0; 0] [0] [0] [0] [0].

(** The memory lines 53-75 leave behind on the example when the fresh
    [gind] block reads [g0, g1, g2]. *)
Definition example_after_init (g0 g1 g2 : Z) : mem :=
  mkmem [5; 3; 1] [4; 2] [0] 0
        (Some [2; 2; 1]) (Some [g0; g1; g2]) (Some [0; 0; 0])
        (Some [9]) (Some [0]) (Some [0]) (Some [0]).

(** The call on [example_mem] with 64-bit words and one 64-bit field. *)
Definition example_call (fuel : nat) (g : list Z) (lower upper : Z) : res unit * mem :=
  fmpz_mpoly_search_monomials 64 less_than_deg fuel (example_junk g)
    lower upper 3 2 64 1 0 0 example_mem.

(** The same call under an order [less_than] of the caller's choice. *)
Definition example_call_under
           (less_than : list Z -> list Z -> Z -> Z -> Z -> bool)
           (fuel : nat) (g : list Z) (lower upper : Z) : res unit * mem :=
  fmpz_mpoly_search_monomials 64 less_than fuel (example_junk g)
    lower upper 3 2 64 1 0 0 example_mem.

(** The memory a completed first pass through the body of the main loop
    leaves behind on the example: h's frontier is f's, and h's monomial and
    the scratch monomial are the cell [A[2] + B[1] = 3]. *)
Definition example_after_pass (g0 g1 g2 : Z) : mem :=
  mkmem [5; 3; 1] [4; 2] [0] 0
        (Some [2; 2; 1]) (Some [g0; g1; g2]) (Some [2; 2; 1])
        (Some [9]) (Some [0]) (Some [3]) (Some [3]).

(** The score that pass computes for h. *)
Definition example_hscore (g0 g1 g2 : Z) : Z :=
  slong_wrap 64
    (slong_wrap 64
       (slong_wrap 64 (slong_wrap 64 (1 + g2) - 1) + slong_wrap 64 (g1 - 2))
     + slong_wrap 64 (g0 - 2)).

(** ** The states at the head of the main loop *)

(** Every scratch block is allocated, with the size the routine asked for. *)
Definition blocks_sized (a_len N : Z) (m : mem) : Prop :=
  (forall p, exists l, m_ind m p = Some l /\ Z.of_nat (length l) = a_len)
  /\ (forall q, exists l, m_exp m q = Some l /\ Z.of_nat (length l) = N).

(** A command that leaves the scratch blocks allocated with their sizes. *)
Definition keeps_sized (a_len N : Z) {A} (c : M A) : Prop :=
  forall m, blocks_sized a_len N m -> blocks_sized a_len N (snd (c m)).

(** The frontier [l] is at least [b_len], so beyond the last column of the
    matrix, in the rows from [lo] to [hi - 1] that are below the last row. *)
Definition tall_rows (a_len b_len lo hi : Z) (l : list Z) : Prop :=
  forall i v, lo <= i < hi -> i < a_len - 1 -> zget l i = Some v -> b_len <= v.

(** Row [i] has [gind[i] > find[i]] and [find[i]] is not a column of the
    matrix, so that line 113 reads outside [b]. *)
Definition column_missing (m : mem) (b_len : Z) (F G : cand) (i : Z) : bool :=
  match m_ind m (c_ind G), m_ind m (c_ind F) with
  | Some gl, Some fl =>
      match zget gl i, zget fl i with
      | Some g, Some f => (g >? f) && negb ((0 <=? f) && (f <? b_len))
      | _, _ => false
      end
  | _, _ => false
  end.

Section Heads.

Variable FLINT_BITS : Z.
Variable less_than : list Z -> list Z -> Z -> Z -> Z -> bool.

(** The candidates and the memory with which a call evaluates the test of
    line 86: those lines 53-75 leave behind, and those a completed pass
    through the body of the loop, entered with the test true, leaves
    behind. *)
Inductive loop_head (junk : scratch)
          (lower upper a_len b_len N maskhi masklo : Z) (m0 : mem)
  : cand -> cand -> cand -> mem -> Prop :=
| head_first :
    loop_head junk lower upper a_len b_len N maskhi masklo m0
              (F0 FLINT_BITS a_len b_len) G0 H0
              (after_init FLINT_BITS junk a_len b_len N m0)
| head_next F G H m F' G' H' m' :
    loop_head junk lower upper a_len b_len N maskhi masklo m0 F G H m ->
    (c_score G <? lower) && (upper <? c_score F) = true ->
    loop_body FLINT_BITS less_than upper a_len N maskhi masklo F G H m
    = (Val (Next F' G' H'), m') ->
    loop_head junk lower upper a_len b_len N maskhi masklo m0 F' G' H' m'.

(** What holds at the head of the loop: the arrays and the scratch blocks
    have their sizes, f's frontier is beyond the last column in every row
    below the last, and no candidate uses the scratch monomial. *)
Record head_inv (a_len b_len N : Z) (F G H : cand) (m : mem) : Prop := {
  hi_bits : 0 < FLINT_BITS;
  hi_N : 0 < N;
  hi_a_len : 0 < a_len <= slong_max FLINT_BITS;
  hi_a : Z.of_nat (length (m_a m)) = a_len * N;
  hi_b : Z.of_nat (length (m_b m)) = b_len * N;
  hi_sized : blocks_sized a_len N m;
  hi_tall : forall fl, m_ind m (c_ind F) = Some fl ->
                       tall_rows a_len b_len 0 a_len fl;
  hi_f_temp : c_exp F <> Etemp;
  hi_g_temp : c_exp G <> Etemp;
  hi_h_temp : c_exp H <> Etemp
}.

(** What holds inside the pass to the left when it has dealt with the rows
    from [lo] on: f's frontier is as at the head, and so is h's in the
    rows from [lo] on. *)
Record left_inv (a_len b_len N : Z) (F H : cand) (lo : Z) (m : mem) : Prop := {
  li_b : Z.of_nat (length (m_b m)) = b_len * N;
  li_f : forall fl, m_ind m (c_ind F) = Some fl ->
                    tall_rows a_len b_len 0 a_len fl;
  li_h : forall hl, m_ind m (c_ind H) = Some hl ->
                    tall_rows a_len b_len lo a_len hl
}.

(** The memory the pass of lines 108-121 leaves behind when it adopts row
    [i] with column [f]: the cell is in the scratch monomial and in h's,
    and [f] is in [hind[i]], the block now reading [hl']. *)
Definition adopted (N : Z) (H : cand) (m : mem) (i f : Z) (hl' : list Z) : mem :=
  set_exp (set_ind (set_exp m Etemp (Some (product FLINT_BITS m N i f)))
                   (c_ind H) (Some hl'))
          (c_exp H) (Some (product FLINT_BITS m N i f)).

End Heads.

(** ** Notions the further properties use *)

(** How far the score [s] lies outside the range from [lower] to [upper]. *)
Definition range_distance (lower upper s : Z) : Z :=
  Z.max 0 (Z.max (s - upper) (lower - s)).

(** The seven scratch blocks are all allocated, or all released. *)
Definition all_allocated (m : mem) : Prop :=
  (forall p, m_ind m p <> None) /\ (forall q, m_exp m q <> None).

Definition none_allocated (m : mem) : Prop :=
  (forall p, m_ind m p = None) /\ (forall q, m_exp m q = None).

(** The four blocks of the caller: [a], [b], [e] and [*e_score]. *)
Definition caller_part (m : mem) : list Z * list Z * list Z * Z :=
  (m_a m, m_b m, m_e m, m_e_score m).

(** A command that writes scratch blocks only. *)
Definition scratch_only {A} (c : M A) : Prop :=
  forall m, caller_part (snd (c m)) = caller_part m.

(** ** Wrap-around and array lemmas *)

Lemma slong_wrap_small FLINT_BITS z :
  0 < FLINT_BITS ->
  slong_min FLINT_BITS <= z <= slong_max FLINT_BITS ->
  slong_wrap FLINT_BITS z = z.
Proof.
  unfold slong_wrap, slong_min, slong_max. intros Hb Hz.
  assert (Hp : 2 ^ FLINT_BITS = 2 * 2 ^ (FLINT_BITS - 1)).
  { replace FLINT_BITS with (Z.succ (FLINT_BITS - 1)) at 1 by lia.
    rewrite Z.pow_succ_r by lia. reflexivity. }
  assert (0 < 2 ^ (FLINT_BITS - 1)) by (apply Z.pow_pos_nonneg; lia).
  rewrite Z.mod_small by lia. lia.
Qed.

Lemma slong_max_pos FLINT_BITS : 0 < FLINT_BITS -> 0 <= slong_max FLINT_BITS.
Proof.
  intros Hb. unfold slong_max.
  assert (0 < 2 ^ (FLINT_BITS - 1)) by (apply Z.pow_pos_nonneg; lia). lia.
Qed.

Lemma zget_in_block {A} (l : list A) i :
  0 <= i < Z.of_nat (length l) -> exists v, zget l i = Some v.
Proof.
  intros Hi. unfold zget, in_block.
  replace (0 <=? i) with true by (symmetry; apply Z.leb_le; lia).
  replace (i <? Z.of_nat (length l)) with true by (symmetry; apply Z.ltb_lt; lia).
  simpl. destruct (nth_error l (Z.to_nat i)) eqn:E; [eauto |].
  apply nth_error_None in E. lia.
Qed.

Lemma zget_outside {A} (l : list A) i : i < 0 -> zget l i = None.
Proof.
  intros Hi. unfold zget, in_block.
  replace (0 <=? i) with false by (symmetry; apply Z.leb_gt; lia). reflexivity.
Qed.

Lemma zget_Some_range {A} (l : list A) i v :
  zget l i = Some v -> 0 <= i < Z.of_nat (length l).
Proof.
  unfold zget, in_block. intros H.
  destruct (0 <=? i) eqn:E1; [| discriminate].
  destruct (i <? Z.of_nat (length l)) eqn:E2; [| discriminate].
  apply Z.leb_le in E1. apply Z.ltb_lt in E2. lia.
Qed.

Lemma zset_in_block {A} (l : list A) i v :
  0 <= i < Z.of_nat (length l) ->
  zset l i v = Some (firstn (Z.to_nat i) l ++ v :: skipn (S (Z.to_nat i)) l).
Proof.
  intros Hi. unfold zset, in_block.
  replace (0 <=? i) with true by (symmetry; apply Z.leb_le; lia).
  replace (i <? Z.of_nat (length l)) with true by (symmetry; apply Z.ltb_lt; lia).
  reflexivity.
Qed.

Lemma zset_length {A} (l l' : list A) i v :
  zset l i v = Some l' -> length l' = length l.
Proof.
  unfold zset. intros H. pose proof (zget_Some_range l i) as R.
  unfold zget in R. destruct (in_block l i) eqn:E; [| discriminate].
  injection H as <-.
  assert (Hi : 0 <= i < Z.of_nat (length l)).
  { unfold in_block in E. apply andb_true_iff in E as [E1 E2].
    apply Z.leb_le in E1. apply Z.ltb_lt in E2. lia. }
  rewrite length_app, length_firstn. cbn [length].
  change (match l with [] => [] | _ :: l0 => skipn (Z.to_nat i) l0 end)
    with (skipn (S (Z.to_nat i)) l).
  rewrite length_skipn. lia.
Qed.

Lemma zget_zset_same {A} (l l' : list A) i v :
  zset l i v = Some l' -> zget l' i = Some v.
Proof.
  intros H. pose proof (zset_length _ _ _ _ H) as Hl.
  unfold zset in H. destruct (in_block l i) eqn:E; [| discriminate].
  injection H as <-. unfold zget, in_block in *. rewrite Hl, E.
  apply andb_true_iff in E as [E1 E2].
  apply Z.leb_le in E1. apply Z.ltb_lt in E2.
  rewrite nth_error_app2 by (rewrite length_firstn; lia).
  rewrite length_firstn.
  replace (Z.to_nat i - Nat.min (Z.to_nat i) (length l))%nat with 0%nat by lia.
  reflexivity.
Qed.

Lemma zget_zset_other {A} (l l' : list A) i j v :
  zset l i v = Some l' -> j <> i -> zget l' j = zget l j.
Proof.
  intros H Hne. pose proof (zset_length _ _ _ _ H) as Hl.
  unfold zset in H. destruct (in_block l i) eqn:E; [| discriminate].
  injection H as <-. unfold zget, in_block in *. rewrite Hl.
  destruct ((0 <=? j) && (j <? Z.of_nat (length l))) eqn:Ej; [| reflexivity].
  apply andb_true_iff in E as [E1 E2].
  apply Z.leb_le in E1. apply Z.ltb_lt in E2.
  apply andb_true_iff in Ej as [J1 J2].
  apply Z.leb_le in J1. apply Z.ltb_lt in J2.
  destruct (Z_lt_ge_dec j i) as [Hlt | Hge].
  - rewrite nth_error_app1 by (rewrite length_firstn; lia).
    rewrite nth_error_firstn.
    replace (Z.to_nat j <? Z.to_nat i)%nat with true
      by (symmetry; apply Nat.ltb_lt; lia).
    reflexivity.
  - rewrite nth_error_app2 by (rewrite length_firstn; lia).
    rewrite length_firstn.
    replace (Z.to_nat j - Nat.min (Z.to_nat i) (length l))%nat
      with (S (Z.to_nat j - S (Z.to_nat i)))%nat by lia.
    cbn [nth_error].
    change (match l with [] => [] | _ :: l0 => skipn (Z.to_nat i) l0 end)
      with (skipn (S (Z.to_nat i)) l).
    rewrite nth_error_skipn. f_equal. lia.
Qed.

Lemma repeat_snoc {A} (v : A) k r : repeat v k ++ v :: r = repeat v (S k) ++ r.
Proof. induction k; simpl; [reflexivity | f_equal; exact IHk]. Qed.

(** Overwriting cell [k] of a block whose first [k] cells already hold [v]. *)
Lemma zset_fill (l : list Z) (k : nat) v :
  (k < length l)%nat ->
  zset (repeat v k ++ skipn k l) (Z.of_nat k) v
  = Some (repeat v (S k) ++ skipn (S k) l).
Proof.
  intros Hk.
  rewrite zset_in_block.
  2:{ rewrite length_app, repeat_length, length_skipn. lia. }
  rewrite Nat2Z.id. f_equal.
  rewrite <- repeat_snoc. f_equal.
  - rewrite firstn_app, repeat_length, Nat.sub_diag.
    rewrite firstn_all2 by (rewrite repeat_length; lia).
    apply app_nil_r.
  - f_equal.
    rewrite skipn_app, repeat_length.
    rewrite skipn_all2 by (rewrite repeat_length; lia).
    replace (S k - k)%nat with 1%nat by lia.
    cbn [app]. rewrite skipn_skipn. reflexivity.
Qed.

Lemma firstn_repeat_le {A} (v : A) : forall k n,
  (k <= n)%nat -> firstn k (repeat v n) = repeat v k.
Proof.
  induction k; intros [| n] H; simpl; try reflexivity; try lia.
  f_equal. apply IHk. lia.
Qed.

(** Overwriting the last cell of a block that holds [v] throughout: line 70. *)
Lemma zset_repeat_last (v w : Z) (n : nat) i :
  Z.of_nat n = i + 1 -> 0 <= i ->
  zset (repeat v n) i w = Some (repeat v (Z.to_nat i) ++ [w]).
Proof.
  intros Hn Hi. rewrite zset_in_block by (rewrite repeat_length; lia).
  rewrite firstn_repeat_le by lia.
  rewrite skipn_all2 by (rewrite repeat_length; lia). reflexivity.
Qed.

Lemma blit_whole (l ws : list Z) : length ws = length l -> blit l ws = Some ws.
Proof.
  intros H. unfold blit. rewrite H, Nat.leb_refl.
  rewrite skipn_all, app_nil_r. reflexivity.
Qed.

Lemma zslice_in_block (l : list Z) off n :
  0 <= off -> 0 <= n -> off + n <= Z.of_nat (length l) ->
  zslice l off n = Some (firstn (Z.to_nat n) (skipn (Z.to_nat off) l)).
Proof.
  intros H1 H2 H3. unfold zslice.
  replace (0 <=? off) with true by (symmetry; apply Z.leb_le; lia).
  replace (0 <=? n) with true by (symmetry; apply Z.leb_le; lia).
  replace (off + n <=? Z.of_nat (length l)) with true
    by (symmetry; apply Z.leb_le; lia).
  reflexivity.
Qed.

Lemma zslice_whole (l : list Z) n :
  Z.of_nat (length l) = n -> zslice l 0 n = Some l.
Proof.
  intros H. rewrite zslice_in_block by lia. simpl.
  rewrite firstn_all2 by lia. reflexivity.
Qed.

Lemma zslice_mono (l : list Z) N i len :
  Z.of_nat (length l) = len * N -> 0 < N -> 0 <= i < len ->
  zslice l (i * N) N = Some (mono l N i).
Proof.
  intros Hl HN Hi. unfold mono. apply zslice_in_block; nia.
Qed.

Lemma mono_length (l : list Z) N i len :
  Z.of_nat (length l) = len * N -> 0 < N -> 0 <= i < len ->
  Z.of_nat (length (mono l N i)) = N.
Proof.
  intros Hl HN Hi. unfold mono.
  rewrite length_firstn, length_skipn. nia.
Qed.

Lemma add_words_length FLINT_BITS (x y : list Z) :
  length (add_words FLINT_BITS x y) = Nat.min (length x) (length y).
Proof. unfold add_words. rewrite length_map, length_combine. reflexivity. Qed.

Lemma eq_words_true x : forall y, eq_words x y = true -> x = y.
Proof.
  induction x as [| u x IH]; intros [| v y] H; simpl in H; try discriminate.
  - reflexivity.
  - apply andb_true_iff in H as [H1 H2]. apply Z.eqb_eq in H1.
    f_equal; [exact H1 | apply IH, H2].
Qed.

Lemma eq_words_refl x : eq_words x x = true.
Proof. induction x; simpl; [reflexivity | rewrite Z.eqb_refl; exact IHx]. Qed.

(** ** Running a command *)

Lemma bind_val {A B} (c : M A) (k : A -> M B) m x m' :
  c m = (Val x, m') -> bind c k m = k x m'.
Proof. intros H. unfold bind. rewrite H. reflexivity. Qed.

Lemma bind_err {A B} (c : M A) (k : A -> M B) m f m' :
  c m = (Err f, m') -> bind c k m = (Err f, m').
Proof. intros H. unfold bind. rewrite H. reflexivity. Qed.

Lemma load_ind_val p i m l v :
  m_ind m p = Some l -> zget l i = Some v -> load_ind p i m = (Val v, m).
Proof. intros Hp Hv. unfold load_ind. rewrite Hp, Hv. reflexivity. Qed.

Lemma load_ind_negative p i m : i < 0 -> load_ind p i m = (Err OutOfBounds, m).
Proof.
  intros Hi. unfold load_ind. destruct (m_ind m p); [| reflexivity].
  rewrite zget_outside by exact Hi. reflexivity.
Qed.

Lemma store_ind_val p i v m l l' :
  m_ind m p = Some l -> zset l i v = Some l' ->
  store_ind p i v m = (Val tt, set_ind m p (Some l')).
Proof. intros Hp Hv. unfold store_ind. rewrite Hp, Hv. reflexivity. Qed.

Lemma load_exp_val p N m l :
  m_exp m p = Some l -> Z.of_nat (length l) = N -> load_exp p N m = (Val l, m).
Proof.
  intros Hp Hl. unfold load_exp. rewrite Hp, (zslice_whole l N Hl). reflexivity.
Qed.

Lemma store_exp_val p ws m l :
  m_exp m p = Some l -> length ws = length l ->
  store_exp p ws m = (Val tt, set_exp m p (Some ws)).
Proof.
  intros Hp Hl. unfold store_exp. rewrite Hp, (blit_whole l ws Hl). reflexivity.
Qed.

Lemma m_ind_set_same m p v : m_ind (set_ind m p v) p = v.
Proof. destruct p; reflexivity. Qed.

Lemma m_ind_set_other m p q v : p <> q -> m_ind (set_ind m p v) q = m_ind m q.
Proof. destruct p, q; intros H; try reflexivity; contradiction. Qed.

Lemma m_exp_set_same m p v : m_exp (set_exp m p v) p = v.
Proof. destruct p; reflexivity. Qed.

Lemma m_exp_set_other m p q v : p <> q -> m_exp (set_exp m p v) q = m_exp m q.
Proof. destruct p, q; intros H; try reflexivity; contradiction. Qed.

Lemma m_exp_set_ind m p q v : m_exp (set_ind m p v) q = m_exp m q.
Proof. destruct p, q; reflexivity. Qed.

Lemma m_ind_set_exp m p q v : m_ind (set_exp m p v) q = m_ind m q.
Proof. destruct p, q; reflexivity. Qed.

Lemma set_ind_twice m p v w : set_ind (set_ind m p v) p w = set_ind m p w.
Proof. destruct p; reflexivity. Qed.

Lemma set_exp_twice m p v w : set_exp (set_exp m p v) p w = set_exp m p w.
Proof. destruct p; reflexivity. Qed.

(** Filling an [slong] block: lines 58-59 and 68-69. *)
Lemma fill_ind_count p v l (n : nat) : forall (k : nat) m,
  (k + n = length l)%nat ->
  m_ind m p = Some (repeat v k ++ skipn k l) ->
  for_count n (Z.of_nat k) (fun i => store_ind p i v) m
  = (Val tt, set_ind m p (Some (repeat v (length l)))).
Proof.
  induction n as [| n IH]; intros k m Hk Hm; simpl.
  - replace (length l) with k by lia. unfold ret. f_equal.
    rewrite skipn_all2, app_nil_r in Hm by lia.
    destruct m, p; simpl in *; subst; reflexivity.
  - erewrite bind_val.
    2:{ eapply store_ind_val; [exact Hm | apply zset_fill; lia]. }
    replace (Z.of_nat k + 1) with (Z.of_nat (S k)) by lia.
    rewrite IH.
    + rewrite set_ind_twice. reflexivity.
    + lia.
    + apply m_ind_set_same.
Qed.

Lemma fill_ind p v l n m :
  m_ind m p = Some l -> Z.of_nat (length l) = n ->
  for_up 0 n (fun i => store_ind p i v) m
  = (Val tt, set_ind m p (Some (repeat v (length l)))).
Proof.
  intros Hm Hl. unfold for_up.
  apply (fill_ind_count p v l (Z.to_nat (n - 0)) 0); [lia | exact Hm].
Qed.

(** Filling a [ulong] block: lines 66-67. *)
Lemma fill_exp_count p v l (n : nat) : forall (k : nat) m,
  (k + n = length l)%nat ->
  m_exp m p = Some (repeat v k ++ skipn k l) ->
  for_count n (Z.of_nat k) (fun i => store_exp_word p i v) m
  = (Val tt, set_exp m p (Some (repeat v (length l)))).
Proof.
  induction n as [| n IH]; intros k m Hk Hm; simpl.
  - replace (length l) with k by lia. unfold ret. f_equal.
    rewrite skipn_all2, app_nil_r in Hm by lia.
    destruct m, p; simpl in *; subst; reflexivity.
  - erewrite bind_val.
    2:{ unfold store_exp_word. rewrite Hm, zset_fill by lia. reflexivity. }
    replace (Z.of_nat k + 1) with (Z.of_nat (S k)) by lia.
    rewrite IH.
    + rewrite set_exp_twice. reflexivity.
    + lia.
    + apply m_exp_set_same.
Qed.

Lemma fill_exp p v l n m :
  m_exp m p = Some l -> Z.of_nat (length l) = n ->
  for_up 0 n (fun i => store_exp_word p i v) m
  = (Val tt, set_exp m p (Some (repeat v (length l)))).
Proof.
  intros Hm Hl. unfold for_up.
  apply (fill_exp_count p v l (Z.to_nat (n - 0)) 0); [lia | exact Hm].
Qed.

Section Run.

Variable FLINT_BITS : Z.
Variable less_than : list Z -> list Z -> Z -> Z -> Z -> bool.

Lemma product_length m a_len b_len N i j :
  Z.of_nat (length (m_a m)) = a_len * N ->
  Z.of_nat (length (m_b m)) = b_len * N ->
  0 < N -> 0 <= i < a_len -> 0 <= j < b_len ->
  Z.of_nat (length (product FLINT_BITS m N i j)) = N.
Proof.
  intros Ha Hb HN Hi Hj. unfold product. rewrite add_words_length.
  pose proof (mono_length _ _ _ _ Ha HN Hi).
  pose proof (mono_length _ _ _ _ Hb HN Hj). lia.
Qed.

Lemma monomial_add_val dst i j N m l a_len b_len :
  Z.of_nat (length (m_a m)) = a_len * N ->
  Z.of_nat (length (m_b m)) = b_len * N ->
  0 < N -> 0 <= i < a_len -> 0 <= j < b_len ->
  m_exp m dst = Some l -> Z.of_nat (length l) = N ->
  mpoly_monomial_add FLINT_BITS dst i j N m
  = (Val tt, set_exp m dst (Some (product FLINT_BITS m N i j))).
Proof.
  intros Ha Hb HN Hi Hj Hd Hl. unfold mpoly_monomial_add.
  erewrite bind_val.
  2:{ unfold load_a. rewrite (zslice_mono _ _ _ _ Ha HN Hi). reflexivity. }
  erewrite bind_val.
  2:{ unfold load_b. rewrite (zslice_mono _ _ _ _ Hb HN Hj). reflexivity. }
  apply store_exp_val with (l := l); [exact Hd |].
  pose proof (product_length m a_len b_len N i j Ha Hb HN Hi Hj) as Hp.
  lia.
Qed.

Lemma init_spec junk lower upper a_len b_len N m :
  valid_call FLINT_BITS junk lower upper a_len b_len N m ->
  init FLINT_BITS junk a_len b_len N m
  = (Val (F0 FLINT_BITS a_len b_len, G0, H0),
     after_init FLINT_BITS junk a_len b_len N m).
Proof.
  intros V. destruct V. unfold init.
  pose proof (slong_max_pos FLINT_BITS vc_bits0) as Hmax.
  assert (Hmin : slong_min FLINT_BITS <= 0) by (unfold slong_min, slong_max in *; lia).
  rewrite !(slong_wrap_small FLINT_BITS (a_len - 1)) by (try assumption; lia).
  rewrite !(slong_wrap_small FLINT_BITS (b_len - 1)) by (try assumption; lia).
  unfold flint_malloc_exp, flint_malloc_ind.
  erewrite bind_val by reflexivity.
  erewrite bind_val by reflexivity.
  erewrite bind_val.
  2:{ eapply (monomial_add_val Efexp 0 0 N _ (j_fexp junk) a_len b_len);
      try reflexivity; try assumption; lia. }
  erewrite bind_val.
  2:{ eapply (fill_ind Ifind 0 (j_find junk)); [reflexivity | eassumption]. }
  erewrite bind_val by reflexivity.
  erewrite bind_val by reflexivity.
  erewrite bind_val.
  2:{ eapply (monomial_add_val Egexp (a_len - 1) (b_len - 1) N _ (j_gexp junk) a_len b_len);
      try reflexivity; try assumption; lia. }
  erewrite bind_val.
  2:{ eapply (fill_exp Egexp 0 (product FLINT_BITS _ N (a_len - 1) (b_len - 1)));
      [reflexivity |].
      apply (product_length _ a_len b_len); simpl; try assumption; lia. }
  erewrite bind_val.
  2:{ eapply (fill_ind Ifind b_len (repeat 0 (length (j_find junk))));
      [reflexivity | rewrite repeat_length; eassumption]. }
  erewrite bind_val.
  2:{ eapply store_ind_val; [reflexivity |].
      apply zset_repeat_last; rewrite ?repeat_length; lia. }
  erewrite bind_val by reflexivity.
  erewrite bind_val by reflexivity.
  erewrite bind_val by reflexivity.
  pose proof (product_length m a_len b_len N (a_len - 1) (b_len - 1)
                vc_a0 vc_b0 vc_N0 ltac:(lia) ltac:(lia)) as Hp.
  unfold ret, after_init, F0, G0, H0. unfold product in *. simpl.
  replace (Z.to_nat N) with
    (length (add_words FLINT_BITS (mono (m_a m) N (a_len - 1))
                                  (mono (m_b m) N (b_len - 1)))) by lia.
  reflexivity.
Qed.

Lemma hand_back_val N C m l :
  m_exp m (c_exp C) = Some l -> Z.of_nat (length l) = N ->
  Z.of_nat (length (m_e m)) = N ->
  hand_back N C m = (Val tt, set_e_score (set_e m l) (c_score C)).
Proof.
  intros Hx Hl He. unfold hand_back, mpoly_monomial_set.
  erewrite bind_val.
  2:{ erewrite bind_val by (apply (load_exp_val _ _ _ l); assumption).
      unfold store_e. rewrite blit_whole by lia. reflexivity. }
  reflexivity.
Qed.

(** Lines 223-229 when f, g and h still own the blocks they were given. *)
Lemma release_distinct a_len b_len m :
  b_find m <> None -> b_gind m <> None -> b_hind m <> None ->
  b_fexp m <> None -> b_gexp m <> None -> b_hexp m <> None ->
  b_temp m <> None ->
  release (F0 FLINT_BITS a_len b_len) G0 H0 m
  = (Val tt, mkmem (m_a m) (m_b m) (m_e m) (m_e_score m)
                   None None None None None None None).
Proof.
  intros. destruct m as [a b e s [?|] [?|] [?|] [?|] [?|] [?|] [?|]];
    simpl in *; try contradiction.
  reflexivity.
Qed.

Lemma main_loop_skipped fuel lower upper a_len N hi lo F G H m :
  (c_score G <? lower) && (upper <? c_score F) = false ->
  main_loop FLINT_BITS less_than fuel lower upper a_len N hi lo F G H m
  = (Val (F, G, H), m).
Proof. intros Hg. destruct fuel; simpl; rewrite Hg; reflexivity. Qed.

Lemma final_choice_upper_covers lower upper fscore :
  lower <= upper -> 1 < fscore <= upper ->
  final_choice FLINT_BITS lower upper fscore 1 = ChooseF.
Proof.
  intros Hr Hf. unfold final_choice.
  destruct (fscore <=? lower); [reflexivity |].
  rewrite Z.geb_leb.
  replace (upper <=? 1) with false by (symmetry; apply Z.leb_gt; lia).
  replace (fscore <=? upper) with true by (symmetry; apply Z.leb_le; lia).
  reflexivity.
Qed.

Lemma search_hands_back_f0 fuel junk lower upper a_len b_len ab_bits ab_elems
      maskhi masklo m :
  let N := monomial_words FLINT_BITS ab_bits ab_elems in
  valid_call FLINT_BITS junk lower upper a_len b_len N m ->
  a_len * b_len <= slong_max FLINT_BITS ->
  a_len * b_len = 1 \/
  ((1 <? lower) && (upper <? a_len * b_len) = false /\
   final_choice FLINT_BITS lower upper (a_len * b_len) 1 = ChooseF) ->
  exists m',
    fmpz_mpoly_search_monomials FLINT_BITS less_than fuel junk lower upper
      a_len b_len ab_bits ab_elems maskhi masklo m = (Val tt, m')
    /\ f_handed_back FLINT_BITS a_len b_len N m m'.
Proof.
  intros N V Hfit Hcase. pose proof V as V'. destruct V'.
  assert (Hw : slong_wrap FLINT_BITS (a_len * b_len) = a_len * b_len).
  { apply slong_wrap_small; [assumption |]. unfold slong_min, slong_max in *. nia. }
  unfold fmpz_mpoly_search_monomials. fold N.
  replace (a_len >? 0) with true by (symmetry; apply Z.gtb_lt; lia).
  replace (b_len >? 0) with true by (symmetry; apply Z.gtb_lt; lia).
  replace (lower <=? upper) with true by (symmetry; apply Z.leb_le; lia).
  unfold assert. erewrite !bind_val by reflexivity.
  erewrite bind_val by (apply (init_spec junk lower upper); exact V).
  assert (Hp : Z.of_nat (length (product FLINT_BITS m N 0 0)) = N)
    by (apply (product_length m a_len b_len); try assumption; lia).
  assert (Hback : hand_back N (F0 FLINT_BITS a_len b_len)
                    (after_init FLINT_BITS junk a_len b_len N m)
                  = (Val tt, set_e_score
                               (set_e (after_init FLINT_BITS junk a_len b_len N m)
                                      (product FLINT_BITS m N 0 0))
                               (a_len * b_len))).
  { erewrite hand_back_val; [| reflexivity | exact Hp | exact vc_e0].
    simpl. rewrite Hw. reflexivity. }
  cbv beta iota.
  change (c_score (F0 FLINT_BITS a_len b_len))
    with (slong_wrap FLINT_BITS (a_len * b_len)).
  change (c_score G0) with 1. rewrite Hw.
  destruct Hcase as [Hone | [Hguard Hchoice]].
  - replace (a_len * b_len =? 1) with true by (symmetry; apply Z.eqb_eq; exact Hone).
    rewrite Hback. eexists; split; [reflexivity |]. split; reflexivity.
  - destruct (a_len * b_len =? 1) eqn:E.
    + rewrite Hback. eexists; split; [reflexivity |]. split; reflexivity.
    + erewrite bind_val.
      2:{ apply main_loop_skipped.
          change (c_score (F0 FLINT_BITS a_len b_len))
            with (slong_wrap FLINT_BITS (a_len * b_len)).
          change (c_score G0) with 1. rewrite Hw. exact Hguard. }
      cbv beta iota. unfold final_selection.
      change (c_score (F0 FLINT_BITS a_len b_len))
        with (slong_wrap FLINT_BITS (a_len * b_len)).
      change (c_score G0) with 1. rewrite Hw, Hchoice.
      erewrite bind_val by exact Hback.
      rewrite release_distinct by (simpl; discriminate).
      eexists; split; [reflexivity |]. split; reflexivity.
Qed.

Lemma search_early_exit fuel junk lower upper a_len b_len ab_bits ab_elems
      maskhi masklo m :
  let N := monomial_words FLINT_BITS ab_bits ab_elems in
  valid_call FLINT_BITS junk lower upper a_len b_len N m ->
  a_len * b_len = 1 ->
  fmpz_mpoly_search_monomials FLINT_BITS less_than fuel junk lower upper
    a_len b_len ab_bits ab_elems maskhi masklo m
  = (Val tt, after_early_exit FLINT_BITS junk a_len b_len N m).
Proof.
  intros N V Hone. pose proof V as V'. destruct V'.
  assert (Hw : slong_wrap FLINT_BITS (a_len * b_len) = a_len * b_len).
  { apply slong_wrap_small; [assumption |]. unfold slong_min, slong_max in *. nia. }
  unfold fmpz_mpoly_search_monomials. fold N.
  replace (a_len >? 0) with true by (symmetry; apply Z.gtb_lt; lia).
  replace (b_len >? 0) with true by (symmetry; apply Z.gtb_lt; lia).
  replace (lower <=? upper) with true by (symmetry; apply Z.leb_le; lia).
  unfold assert. erewrite !bind_val by reflexivity.
  erewrite bind_val by (apply (init_spec junk lower upper); exact V).
  cbv beta iota.
  change (c_score (F0 FLINT_BITS a_len b_len))
    with (slong_wrap FLINT_BITS (a_len * b_len)).
  change (c_score G0) with 1. rewrite Hw.
  replace (a_len * b_len =? 1) with true by (symmetry; apply Z.eqb_eq; exact Hone).
  erewrite hand_back_val; [| reflexivity | | exact vc_e0].
  - unfold after_early_exit. simpl c_score. rewrite Hw. reflexivity.
  - apply (product_length m a_len b_len); try assumption; lia.
Qed.

(** Strictly descending inputs whose extreme products coincide have one
    entry each. *)
Lemma equal_corners_singletons m a_len b_len N maskhi masklo :
  descending_inputs FLINT_BITS less_than m a_len b_len N maskhi masklo ->
  0 < a_len -> 0 < b_len ->
  eq_words (product FLINT_BITS m N 0 0)
           (product FLINT_BITS m N (a_len - 1) (b_len - 1)) = true ->
  a_len = 1 /\ b_len = 1.
Proof.
  intros D Ha Hb Heq. apply eq_words_true in Heq.
  destruct D as [Hirr Htr HA HB HaddA HaddB].
  assert (Hrow : 1 < a_len ->
                 less_than (product FLINT_BITS m N (a_len - 1) (b_len - 1))
                           (product FLINT_BITS m N 0 (b_len - 1)) N maskhi masklo = true).
  { intros H1. apply HaddA; try lia. apply HA; lia. }
  assert (Hcol : 1 < b_len ->
                 less_than (product FLINT_BITS m N 0 (b_len - 1))
                           (product FLINT_BITS m N 0 0) N maskhi masklo = true).
  { intros H1. apply HaddB; try lia. apply HB; lia. }
  destruct (Z_lt_ge_dec 1 a_len) as [A1 | A1];
    destruct (Z_lt_ge_dec 1 b_len) as [B1 | B1]; try (split; lia); exfalso.
  - pose proof (Htr _ _ _ (Hrow A1) (Hcol B1)) as Hlt.
    rewrite <- Heq, Hirr in Hlt. discriminate.
  - assert (b_len = 1) by lia. subst b_len.
    pose proof (Hrow A1) as Hlt. change (1 - 1) with 0 in *.
    rewrite <- Heq, Hirr in Hlt. discriminate.
  - assert (a_len = 1) by lia. subst a_len.
    pose proof (Hcol B1) as Hlt. change (1 - 1) with 0 in *.
    rewrite <- Heq, Hirr in Hlt. discriminate.
Qed.

End Run.

(** ** The caller's arrays are not written *)

Create HintDb frame.

Lemma keeps_ret {A} (x : A) : keeps_inputs (ret x).
Proof. intros m; split; reflexivity. Qed.

Lemma keeps_fail {A} (f : fault) : keeps_inputs (@fail A f).
Proof. intros m; split; reflexivity. Qed.

Lemma keeps_bind {A B} (c : M A) (k : A -> M B) :
  keeps_inputs c -> (forall x, keeps_inputs (k x)) -> keeps_inputs (bind c k).
Proof.
  intros Hc Hk m. unfold bind.
  destruct (Hc m) as [Ha Hb].
  destruct (c m) as [[x | f] m']; simpl in *.
  - destruct (Hk x m') as [Ha' Hb']. split; congruence.
  - split; assumption.
Qed.

Lemma keeps_of_option {A} (o : option A) : keeps_inputs (of_option o).
Proof. destruct o; intros m; split; reflexivity. Qed.

Lemma keeps_assert b : keeps_inputs (assert b).
Proof. destruct b; intros m; split; reflexivity. Qed.

Lemma set_ind_inputs m p v :
  m_a (set_ind m p v) = m_a m /\ m_b (set_ind m p v) = m_b m.
Proof. destruct p; split; reflexivity. Qed.

Lemma set_exp_inputs m p v :
  m_a (set_exp m p v) = m_a m /\ m_b (set_exp m p v) = m_b m.
Proof. destruct p; split; reflexivity. Qed.

Lemma keeps_load_ind p i : keeps_inputs (load_ind p i).
Proof.
  intros m. unfold load_ind.
  destruct (m_ind m p) as [l |]; [apply keeps_of_option | split; reflexivity].
Qed.

Lemma keeps_store_ind p i v : keeps_inputs (store_ind p i v).
Proof.
  intros m. unfold store_ind.
  destruct (m_ind m p) as [l |]; [| split; reflexivity].
  destruct (zset l i v); [apply set_ind_inputs | split; reflexivity].
Qed.

Lemma keeps_load_exp p N : keeps_inputs (load_exp p N).
Proof.
  intros m. unfold load_exp.
  destruct (m_exp m p) as [l |]; [apply keeps_of_option | split; reflexivity].
Qed.

Lemma keeps_store_exp p ws : keeps_inputs (store_exp p ws).
Proof.
  intros m. unfold store_exp.
  destruct (m_exp m p) as [l |]; [| split; reflexivity].
  destruct (blit l ws); [apply set_exp_inputs | split; reflexivity].
Qed.

Lemma keeps_store_exp_word p i v : keeps_inputs (store_exp_word p i v).
Proof.
  intros m. unfold store_exp_word.
  destruct (m_exp m p) as [l |]; [| split; reflexivity].
  destruct (zset l i v); [apply set_exp_inputs | split; reflexivity].
Qed.

Lemma keeps_load_a i N : keeps_inputs (load_a i N).
Proof. intros m. unfold load_a. apply keeps_of_option. Qed.

Lemma keeps_load_b j N : keeps_inputs (load_b j N).
Proof. intros m. unfold load_b. apply keeps_of_option. Qed.

Lemma keeps_store_e ws : keeps_inputs (store_e ws).
Proof. intros m. unfold store_e. destruct (blit (m_e m) ws); split; reflexivity. Qed.

Lemma keeps_store_e_score v : keeps_inputs (store_e_score v).
Proof. intros m; split; reflexivity. Qed.

Lemma keeps_malloc_ind p junk : keeps_inputs (flint_malloc_ind p junk).
Proof. intros m. apply set_ind_inputs. Qed.

Lemma keeps_malloc_exp p junk : keeps_inputs (flint_malloc_exp p junk).
Proof. intros m. apply set_exp_inputs. Qed.

Lemma keeps_free_ind p : keeps_inputs (flint_free_ind p).
Proof.
  intros m. unfold flint_free_ind.
  destruct (m_ind m p); [apply set_ind_inputs | split; reflexivity].
Qed.

Lemma keeps_free_exp p : keeps_inputs (flint_free_exp p).
Proof.
  intros m. unfold flint_free_exp.
  destruct (m_exp m p); [apply set_exp_inputs | split; reflexivity].
Qed.

#[global] Hint Resolve keeps_ret keeps_fail keeps_of_option keeps_assert
  keeps_load_ind keeps_store_ind keeps_load_exp keeps_store_exp
  keeps_store_exp_word keeps_load_a keeps_load_b keeps_store_e
  keeps_store_e_score keeps_malloc_ind keeps_malloc_exp keeps_free_ind
  keeps_free_exp : frame.

(** Walks through a command built from binds, conditionals and primitives. *)
Ltac frame_step :=
  match goal with
  | |- keeps_inputs (bind _ _) => apply keeps_bind; [| intros ?]
  | |- keeps_inputs (if ?b then _ else _) => destruct b
  | |- keeps_inputs (let (_, _) := ?p in _) => destruct p
  | |- keeps_inputs (match ?p with Some _ => _ | None => _ end) => destruct p
  | |- keeps_inputs _ => solve [auto with frame]
  end.

Ltac frame := repeat frame_step.

Lemma keeps_for_count n : forall i body,
  (forall j, keeps_inputs (body j)) -> keeps_inputs (for_count n i body).
Proof. induction n; intros i body Hb; simpl; frame; auto. Qed.

Lemma keeps_for_up lo hi body :
  (forall j, keeps_inputs (body j)) -> keeps_inputs (for_up lo hi body).
Proof. apply keeps_for_count. Qed.

Lemma keeps_fold_count {S} n : forall i (body : Z -> S -> M S) s,
  (forall j t, keeps_inputs (body j t)) -> keeps_inputs (fold_count n i body s).
Proof. induction n; intros i body s Hb; simpl; frame; auto. Qed.

Lemma keeps_fold_up {S} lo hi (body : Z -> S -> M S) s :
  (forall j t, keeps_inputs (body j t)) -> keeps_inputs (fold_up lo hi body s).
Proof. apply keeps_fold_count. Qed.

Lemma keeps_fold_down_count {S} n : forall i (body : Z -> S -> M S) s,
  (forall j t, keeps_inputs (body j t)) -> keeps_inputs (fold_down_count n i body s).
Proof. induction n; intros i body s Hb; simpl; frame; auto. Qed.

Lemma keeps_fold_down {S} hi (body : Z -> S -> M S) s :
  (forall j t, keeps_inputs (body j t)) -> keeps_inputs (fold_down hi body s).
Proof. apply keeps_fold_down_count. Qed.

Section Frame.

Variable FLINT_BITS : Z.
Variable less_than : list Z -> list Z -> Z -> Z -> Z -> bool.

Lemma keeps_monomial_add dst i j N :
  keeps_inputs (mpoly_monomial_add FLINT_BITS dst i j N).
Proof. unfold mpoly_monomial_add; frame. Qed.

Lemma keeps_monomial_eq p q N : keeps_inputs (mpoly_monomial_eq p q N).
Proof. unfold mpoly_monomial_eq; frame. Qed.

Lemma keeps_monomial_lt p q N hi lo :
  keeps_inputs (mpoly_monomial_lt less_than p q N hi lo).
Proof. unfold mpoly_monomial_lt; frame. Qed.

Lemma keeps_monomial_set p N : keeps_inputs (mpoly_monomial_set p N).
Proof. unfold mpoly_monomial_set; frame. Qed.

Hint Resolve keeps_monomial_add keeps_monomial_eq keeps_monomial_lt
  keeps_monomial_set : frame.

Lemma keeps_init junk a_len b_len N :
  keeps_inputs (init FLINT_BITS junk a_len b_len N).
Proof.
  unfold init; frame; apply keeps_for_up; intros; frame.
Qed.

Lemma keeps_find_maxdiff a_len find gind :
  keeps_inputs (find_maxdiff FLINT_BITS a_len find gind).
Proof.
  unfold find_maxdiff. apply keeps_fold_up. intros j [d i].
  unfold find_maxdiff_row; frame.
Qed.

Lemma keeps_scan_gap1 a_len N F G H :
  keeps_inputs (scan_gap1 FLINT_BITS a_len N F G H).
Proof.
  unfold scan_gap1. apply keeps_fold_up. intros j t.
  unfold scan_gap1_row; frame.
Qed.

Lemma keeps_inner_right n N hi lo hexp i : forall j x,
  keeps_inputs (inner_right FLINT_BITS less_than n N hi lo hexp i j x).
Proof. induction n; intros j x; simpl; frame; auto. Qed.

Lemma keeps_inner_left n N hi lo hexp i : forall j x,
  keeps_inputs (inner_left FLINT_BITS less_than n N hi lo hexp i j x).
Proof. induction n; intros j x; simpl; frame; auto. Qed.

Hint Resolve keeps_init keeps_find_maxdiff keeps_scan_gap1 keeps_inner_right
  keeps_inner_left : frame.

Lemma keeps_path_right a_len N hi lo F G H maxind hscore :
  keeps_inputs (path_right FLINT_BITS less_than a_len N hi lo F G H maxind hscore).
Proof. unfold path_right. apply keeps_fold_up. intros j t; frame. Qed.

Lemma keeps_path_left N hi lo F G H maxind hscore :
  keeps_inputs (path_left FLINT_BITS less_than N hi lo F G H maxind hscore).
Proof. unfold path_left. apply keeps_fold_down. intros j t; frame. Qed.

Lemma keeps_choose_pivot a_len N F G H maxdiff maxind :
  keeps_inputs (choose_pivot FLINT_BITS a_len N F G H maxdiff maxind).
Proof. unfold choose_pivot; frame. Qed.

Hint Resolve keeps_path_right keeps_path_left keeps_choose_pivot : frame.

Lemma keeps_loop_body upper a_len N hi lo F G H :
  keeps_inputs (loop_body FLINT_BITS less_than upper a_len N hi lo F G H).
Proof. unfold loop_body; frame. Qed.

Lemma keeps_main_loop fuel lower upper a_len N hi lo : forall F G H,
  keeps_inputs (main_loop FLINT_BITS less_than fuel lower upper a_len N hi lo F G H).
Proof.
  induction fuel; intros F G H; simpl; frame.
  - apply keeps_loop_body.
  - match goal with x : step |- _ => destruct x end; frame; auto.
Qed.

Lemma keeps_hand_back N C : keeps_inputs (hand_back N C).
Proof. unfold hand_back; frame. Qed.

Lemma keeps_final_selection lower upper N F G :
  keeps_inputs (final_selection FLINT_BITS lower upper N F G).
Proof.
  unfold final_selection.
  destruct (final_choice _ _ _ _ _); apply keeps_hand_back.
Qed.

Lemma keeps_release F G H : keeps_inputs (release F G H).
Proof. unfold release; frame. Qed.

Hint Resolve keeps_main_loop keeps_hand_back keeps_final_selection
  keeps_release : frame.


(** C8: whatever the outcome of a call (a return, a fault, an exhausted
    iteration budget), the blocks [a] and [b] hold after it exactly the
    words they held before it. *)
Theorem search_keeps_inputs fuel junk lower upper a_len b_len ab_bits ab_elems
        maskhi masklo (m : mem) :
  let m' := snd (fmpz_mpoly_search_monomials FLINT_BITS less_than fuel junk
                   lower upper a_len b_len ab_bits ab_elems maskhi masklo m) in
  m_a m' = m_a m /\ m_b m' = m_b m.
Proof.
  cbv zeta. revert m.
  change (keeps_inputs (fmpz_mpoly_search_monomials FLINT_BITS less_than fuel junk
                   lower upper a_len b_len ab_bits ab_elems maskhi masklo)).
  unfold fmpz_mpoly_search_monomials; frame.
Qed.

End Frame.

(** ** The early exit and the case of a large upper bound *)

Section Exits.

Variable FLINT_BITS : Z.
Variable less_than : list Z -> list Z -> Z -> Z -> Z -> bool.

(** C7, as amended: on a valid call with [a_len * b_len = 1], which is
    what the test [fscore == gscore] of line 78 asks, the routine takes the
    early exit of lines 78-83: whatever the iteration budget, it returns
    with [A[0]+B[0]] in [e] and [a_len*b_len] in [*e_score], the main loop
    and the release of the scratch blocks not having run. *)
Theorem single_product_returns_at_once fuel junk lower upper a_len b_len
        ab_bits ab_elems maskhi masklo m :
  let N := monomial_words FLINT_BITS ab_bits ab_elems in
  valid_call FLINT_BITS junk lower upper a_len b_len N m ->
  a_len * b_len = 1 ->
  let m' := after_early_exit FLINT_BITS junk a_len b_len N m in
  fmpz_mpoly_search_monomials FLINT_BITS less_than fuel junk lower upper
    a_len b_len ab_bits ab_elems maskhi masklo m = (Val tt, m')
  /\ m_e m' = product FLINT_BITS m N 0 0
  /\ m_e_score m' = a_len * b_len.
Proof.
  intros N V Hone m'.
  split; [| split; reflexivity].
  apply search_early_exit; assumption.
Qed.

(** For strictly descending inputs the two conditions agree: equal
    products [A[0]+B[0]] and [A[a_len-1]+B[b_len-1]] leave one product,
    and the early exit is taken. *)
Corollary equal_corners_return_at_once fuel junk lower upper a_len b_len
        ab_bits ab_elems maskhi masklo m :
  let N := monomial_words FLINT_BITS ab_bits ab_elems in
  valid_call FLINT_BITS junk lower upper a_len b_len N m ->
  descending_inputs FLINT_BITS less_than m a_len b_len N maskhi masklo ->
  eq_words (product FLINT_BITS m N 0 0)
           (product FLINT_BITS m N (a_len - 1) (b_len - 1)) = true ->
  let m' := after_early_exit FLINT_BITS junk a_len b_len N m in
  fmpz_mpoly_search_monomials FLINT_BITS less_than fuel junk lower upper
    a_len b_len ab_bits ab_elems maskhi masklo m = (Val tt, m')
  /\ m_e m' = product FLINT_BITS m N 0 0
  /\ m_e_score m' = a_len * b_len.
Proof.
  intros N V D Heq m'.
  destruct (equal_corners_singletons FLINT_BITS less_than m a_len b_len N
              maskhi masklo D) as [Ha Hb];
    [apply (vc_a_len _ _ _ _ _ _ _ _ V) | apply (vc_b_len _ _ _ _ _ _ _ _ V)
     | exact Heq |].
  split; [| split; reflexivity].
  apply search_early_exit; [exact V | subst; reflexivity].
Qed.

(** C10: on a valid call with [upper >= a_len*b_len] the body of the main
    loop is never run (the loop ends with no iteration budget at all and
    leaves f, g, h and the memory as they are) and the routine returns
    [A[0]+B[0]] in [e] and [a_len*b_len] in [*e_score]. *)
Theorem upper_covers_every_product fuel junk lower upper a_len b_len
        ab_bits ab_elems maskhi masklo m :
  let N := monomial_words FLINT_BITS ab_bits ab_elems in
  valid_call FLINT_BITS junk lower upper a_len b_len N m ->
  a_len * b_len <= upper ->
  main_loop FLINT_BITS less_than 0 lower upper a_len N maskhi masklo
    (F0 FLINT_BITS a_len b_len) G0 H0 (after_init FLINT_BITS junk a_len b_len N m)
  = (Val (F0 FLINT_BITS a_len b_len, G0, H0),
     after_init FLINT_BITS junk a_len b_len N m)
  /\ exists m',
      fmpz_mpoly_search_monomials FLINT_BITS less_than fuel junk lower upper
        a_len b_len ab_bits ab_elems maskhi masklo m = (Val tt, m')
      /\ m_e m' = product FLINT_BITS m N 0 0
      /\ m_e_score m' = a_len * b_len.
Proof.
  intros N V Hup. pose proof V as V'. destruct V'.
  assert (Hfit : a_len * b_len <= slong_max FLINT_BITS) by lia.
  assert (Hw : slong_wrap FLINT_BITS (a_len * b_len) = a_len * b_len).
  { apply slong_wrap_small; [assumption |]. unfold slong_min, slong_max in *. nia. }
  assert (Hguard : (1 <? lower) && (upper <? a_len * b_len) = false).
  { replace (upper <? a_len * b_len) with false by (symmetry; apply Z.ltb_ge; lia).
    apply andb_false_r. }
  split.
  - apply main_loop_skipped.
    change (c_score (F0 FLINT_BITS a_len b_len))
      with (slong_wrap FLINT_BITS (a_len * b_len)).
    change (c_score G0) with 1. rewrite Hw. exact Hguard.
  - apply search_hands_back_f0; [exact V | exact Hfit |].
    destruct (Z.eq_dec (a_len * b_len) 1) as [H1 | H1]; [left; exact H1 | right].
    split; [exact Hguard |].
    apply final_choice_upper_covers; [assumption | nia].
Qed.

End Exits.

(** The early exit on the arrays [[5]] and [[4]]. *)
Lemma single_product_returns_at_once_witness :
  let m := mkmem [5] [4] [0] 0 None None None None None None None in
  let junk := mkscratch [0] [0] [0] [0] [0] [0] [0] in
  fmpz_mpoly_search_monomials 64 less_than_deg 0 junk 1 1 1 1 64 1 0 0 m
  = (Val tt, after_early_exit 64 junk 1 1 1 m)
  /\ m_e (after_early_exit 64 junk 1 1 1 m) = [9]
  /\ m_e_score (after_early_exit 64 junk 1 1 1 m) = 1.
Proof.
  intros m junk.
  apply (single_product_returns_at_once 64 less_than_deg 0 junk 1 1 1 1 64 1 0 0 m).
  - constructor; vm_compute; repeat split; try reflexivity; try discriminate.
  - reflexivity.
Defined.

(** C7 as stated fails on the arrays [[1, 1]] and [[1]] with
    [lower = upper = 1]: the call is valid and the products [A[0]+B[0]] and
    [A[1]+B[0]] are equal, yet [fscore = 2] is not [gscore = 1]; the early
    exit is not taken, the call goes on to the final selection and the
    release of the scratch blocks, and it stores the score 1, which is not
    [a_len*b_len = 2]. *)
Lemma equal_corners_counterexample :
  let m := mkmem [1; 1] [1] [0] 0 None None None None None None None in
  let junk := mkscratch [0; 0] [0; 0] [0; 0] [0] [0] [0] [0] in
  let r := fmpz_mpoly_search_monomials 64 less_than_deg 0 junk 1 1 2 1 64 1 0 0 m in
  valid_call 64 junk 1 1 2 1 (monomial_words 64 64 1) m
  /\ eq_words (product 64 m 1 0 0) (product 64 m 1 (2 - 1) (1 - 1)) = true
  /\ fst r = Val tt
  /\ m_e_score (snd r) = 1
  /\ m_e_score (snd r) <> 2 * 1
  /\ m_e (snd r) <> product 64 m 1 0 0
  /\ snd r <> after_early_exit 64 junk 2 1 1 m
  /\ b_find (snd r) = None.
Proof.
  intros m junk r. split.
  { constructor; vm_compute; repeat split; try reflexivity; try discriminate. }
  vm_compute. repeat split; discriminate.
Qed.

(** The test of line 78 is on the scores: for the arrays [[1], [1]] and
    [[1]], which are not strictly descending and whose extreme products
    are equal, the early exit is not taken, and with [lower = upper = 1]
    the call hands back g, whatever the fresh blocks hold. *)
Remark equal_corners_not_descending fuel f0 f1 g0 g1 h0 h1 fe ge he te :
  let r := fmpz_mpoly_search_monomials 64 less_than_deg fuel
             (mkscratch [f0; f1] [g0; g1] [h0; h1] [fe] [ge] [he] [te])
             1 1 2 1 64 1 0 0
             (mkmem [1; 1] [1] [0] 0 None None None None None None None) in
  fst r = Val tt /\ m_e (snd r) = [0] /\ m_e_score (snd r) = 1
  /\ b_find (snd r) = None.
Proof. destruct fuel; repeat split; reflexivity. Qed.

(** A call with [upper = 6 = a_len*b_len] on [A = [5, 3, 1]], [B = [4, 2]]. *)
Lemma upper_covers_every_product_witness :
  let junk := example_junk [0; 0; 0] in
  main_loop 64 less_than_deg 0 2 6 3 1 0 0 (F0 64 3 2) G0 H0
    (after_init 64 junk 3 2 1 example_mem)
  = (Val (F0 64 3 2, G0, H0), after_init 64 junk 3 2 1 example_mem)
  /\ exists m',
      fmpz_mpoly_search_monomials 64 less_than_deg 5 junk 2 6 3 2 64 1 0 0
        example_mem = (Val tt, m')
      /\ m_e m' = [9]
      /\ m_e_score m' = 6.
Proof.
  intros junk.
  apply (upper_covers_every_product 64 less_than_deg 5 junk 2 6 3 2 64 1 0 0
           example_mem).
  - constructor; vm_compute; repeat split; try reflexivity; try discriminate.
  - vm_compute. discriminate.
Defined.

(** ** The final selection *)

Section Selection.

Variable FLINT_BITS : Z.

Lemma final_choice_ties_to_g lower upper fscore gscore :
  0 < FLINT_BITS ->
  slong_min FLINT_BITS <= fscore - upper <= slong_max FLINT_BITS ->
  slong_min FLINT_BITS <= lower - gscore <= slong_max FLINT_BITS ->
  final_choice FLINT_BITS lower upper fscore gscore
  = ties_to_g_choice lower upper fscore gscore.
Proof.
  intros Hb Hf Hg. unfold final_choice, ties_to_g_choice.
  rewrite !slong_wrap_small by assumption.
  destruct (fscore <=? lower); [reflexivity |].
  destruct (gscore >=? upper); [reflexivity |].
  destruct (fscore <=? upper); [reflexivity |].
  destruct (gscore >=? lower); [reflexivity |].
  unfold Z.ltb. destruct (fscore - upper ?= lower - gscore); reflexivity.
Qed.

(** C2, as amended: after the main loop the routine hands back f or g by
    the five rules in their order, and under the fifth, with both distances
    [fscore - upper] and [lower - gscore] representable, f is handed back
    when its distance is strictly the smaller and g otherwise, so g on
    equal distances. *)
Theorem final_selection_by_rules lower upper N F G :
  0 < FLINT_BITS ->
  slong_min FLINT_BITS <= c_score F - upper <= slong_max FLINT_BITS ->
  slong_min FLINT_BITS <= lower - c_score G <= slong_max FLINT_BITS ->
  final_selection FLINT_BITS lower upper N F G
  = hand_back N (chosen (ties_to_g_choice lower upper (c_score F) (c_score G)) F G).
Proof.
  intros Hb Hf Hg. unfold final_selection.
  rewrite final_choice_ties_to_g by assumption.
  destruct (ties_to_g_choice lower upper (c_score F) (c_score G)); reflexivity.
Qed.

End Selection.

(** With scores 6 and 1 and the range [3, 4] both distances are 2. *)
Lemma final_selection_by_rules_witness :
  final_selection 64 3 4 1 (F0 64 3 2) G0 = hand_back 1 G0.
Proof.
  apply (final_selection_by_rules 64 3 4 1 (F0 64 3 2) G0);
    vm_compute; repeat split; try reflexivity; try discriminate.
Defined.

(** C2 as stated fails: on [A = [5, 3, 1]], [B = [4, 2]] with the range
    [3, 4], and a fresh [gind] block that reads [2, 2, 1], the loop is left
    with the scores 6 and 1, both at distance 2; the stated rules hand back
    f, the routine hands back g. *)
Lemma final_selection_tie_counterexample :
  claimed_choice 3 4 6 1 = ChooseF
  /\ final_choice 64 3 4 6 1 = ChooseG
  /\ main_loop 64 less_than_deg 1 3 4 3 1 0 0 (F0 64 3 2) G0 H0
       (after_init 64 (example_junk [2; 2; 1]) 3 2 1 example_mem)
     = (Val (F0 64 3 2, G0, H0),
        after_init 64 (example_junk [2; 2; 1]) 3 2 1 example_mem)
  /\ fst (example_call 1 [2; 2; 1] 3 4) = Val tt
  /\ m_e (snd (example_call 1 [2; 2; 1] 3 4)) = [0]
  /\ m_e_score (snd (example_call 1 [2; 2; 1] 3 4)) = 1.
Proof. vm_compute. repeat split; reflexivity. Qed.

(** ** The set-up of f and g on the example *)

(** C6 fails on [A = [5, 3, 1]], [B = [4, 2]]: whatever the fresh blocks
    hold, lines 53-75 leave f with score 6, monomial [A[0]+B[0] = 9] and
    the frontier [2, 2, 1] (not 0 in every row), and g with score 1, the
    zero monomial (not [A[2]+B[1] = 3]) and a frontier block that was
    never written. *)
Theorem init_on_example f0 f1 f2 g0 g1 g2 h0 h1 h2 fe ge he te :
  init 64 (mkscratch [f0; f1; f2] [g0; g1; g2] [h0; h1; h2] [fe] [ge] [he] [te])
       3 2 1 example_mem
  = (Val (mkcand Ifind Efexp 6, mkcand Igind Egexp 1, mkcand Ihind Ehexp 0),
     mkmem [5; 3; 1] [4; 2] [0] 0
           (Some [2; 2; 1]) (Some [g0; g1; g2]) (Some [h0; h1; h2])
           (Some [9]) (Some [0]) (Some [he]) (Some [te])).
Proof. reflexivity. Qed.

(** ** The range on the example *)

(** C1 fails on [A = [5, 3, 1]], [B = [4, 2]] with [lower = upper = 1]:
    the score 1 is that of [A[2]+B[1] = 3], yet, whatever the fresh [gind]
    block holds and whatever the iteration budget, the routine returns the
    zero monomial, whose score is 0, and stores 1 in [*e_score]. *)
Theorem range_missed_on_example fuel g0 g1 g2 :
  let r := example_call fuel [g0; g1; g2] 1 1 in
  score 64 less_than_deg example_mem 3 2 1 0 0 (product 64 example_mem 1 2 1) = 1
  /\ fst r = Val tt
  /\ m_e (snd r) = [0]
  /\ m_e_score (snd r) = 1
  /\ score 64 less_than_deg example_mem 3 2 1 0 0 (m_e (snd r)) = 0.
Proof. destruct fuel; vm_compute; repeat split; reflexivity. Qed.

(** ** Leaving the loop *)

(** C3 fails on [A = [5, 3, 1]], [B = [4, 2]] with [lower = upper = 3] and
    a fresh [gind] block that reads 0: no gap is positive, [maxdiff] stays
    -1, and line 129 indexes the three frontier blocks with [maxind = -1].
    Whatever the order on monomials, the call does not return: it stops in
    that access in its first iteration. *)
Theorem no_return_on_example less_than fuel :
  fst (fmpz_mpoly_search_monomials 64 less_than fuel (example_junk [0; 0; 0])
         3 3 3 2 64 1 0 0 example_mem)
  = Err (match fuel with O => OutOfFuel | S _ => OutOfBounds end).
Proof. destruct fuel; reflexivity. Qed.

(** ** The pass that looks for the row of the largest gap *)

Section MaxGap.

Variable FLINT_BITS : Z.

Lemma find_maxdiff_count find gind fl gl m (n : nat) : forall k d,
  m_ind m find = Some fl -> m_ind m gind = Some gl ->
  0 <= k ->
  k + Z.of_nat n <= Z.of_nat (length fl) ->
  k + Z.of_nat n <= Z.of_nat (length gl) ->
  is_max_gap FLINT_BITS fl gl k d ->
  exists d',
    fold_count n k (find_maxdiff_row FLINT_BITS find gind) (d, -1) m
    = (Val (d', -1), m)
    /\ is_max_gap FLINT_BITS fl gl (k + Z.of_nat n) d'.
Proof.
  induction n as [| n IH]; intros k d Hf Hg Hk Hlf Hlg Hmax.
  - exists d. split; [reflexivity |]. replace (k + Z.of_nat 0) with k by lia.
    exact Hmax.
  - destruct (zget_in_block gl k ltac:(lia)) as [g Eg].
    destruct (zget_in_block fl k ltac:(lia)) as [f Ef].
    cbn [fold_count].
    erewrite bind_val with
      (x := if d <? slong_wrap FLINT_BITS (g - f)
            then (slong_wrap FLINT_BITS (g - f), -1) else (d, -1)) (m' := m).
    2:{ unfold find_maxdiff_row.
        erewrite bind_val by (eapply load_ind_val; eassumption).
        erewrite bind_val by (eapply load_ind_val; eassumption).
        destruct (d <? slong_wrap FLINT_BITS (g - f)); reflexivity. }
    destruct Hmax as (Hlow & Hall & Hsome).
    destruct (d <? slong_wrap FLINT_BITS (g - f)) eqn:E.
    + apply Z.ltb_lt in E.
      destruct (IH (k + 1) (slong_wrap FLINT_BITS (g - f))) as (d' & Hrun & Hd');
        try assumption; try lia.
      * split; [lia |]. split.
        -- intros i g' f' Hi Hg' Hf'.
           destruct (Z.eq_dec i k) as [-> | Hne].
           ++ rewrite Eg in Hg'. rewrite Ef in Hf'.
              injection Hg' as <-. injection Hf' as <-. lia.
           ++ specialize (Hall i g' f' ltac:(lia) Hg' Hf'). lia.
        -- right. exists k, g, f. repeat split; try assumption; lia.
      * exists d'. rewrite Hrun. split; [reflexivity |].
        replace (k + Z.of_nat (S n)) with (k + 1 + Z.of_nat n) by lia. exact Hd'.
    + apply Z.ltb_ge in E.
      destruct (IH (k + 1) d) as (d' & Hrun & Hd'); try assumption; try lia.
      * split; [lia |]. split.
        -- intros i g' f' Hi Hg' Hf'.
           destruct (Z.eq_dec i k) as [-> | Hne].
           ++ rewrite Eg in Hg'. rewrite Ef in Hf'.
              injection Hg' as <-. injection Hf' as <-. lia.
           ++ apply (Hall i g' f'); try assumption; lia.
        -- destruct Hsome as [-> | (i & g' & f' & Hi & Hg' & Hf' & ->)];
             [left; reflexivity | right].
           exists i, g', f'. repeat split; try assumption; lia.
      * exists d'. rewrite Hrun. split; [reflexivity |].
        replace (k + Z.of_nat (S n)) with (k + 1 + Z.of_nat n) by lia. exact Hd'.
Qed.

(** Lines 89-98 compute the largest gap, and leave -1 in [maxind]. *)
Lemma find_maxdiff_spec a_len find gind m fl gl :
  m_ind m find = Some fl -> m_ind m gind = Some gl ->
  Z.of_nat (length fl) = a_len -> Z.of_nat (length gl) = a_len ->
  exists maxdiff,
    find_maxdiff FLINT_BITS a_len find gind m = (Val (maxdiff, -1), m)
    /\ is_max_gap FLINT_BITS fl gl a_len maxdiff.
Proof.
  intros Hf Hg Hlf Hlg. unfold find_maxdiff, fold_up.
  destruct (find_maxdiff_count find gind fl gl m (Z.to_nat (a_len - 0)) 0 (-1))
    as (d & Hrun & Hd); try assumption; try lia.
  - split; [lia |]. split; [| left; reflexivity].
    intros i g f Hi Hgi _. apply zget_Some_range in Hgi. lia.
  - exists d. split; [exact Hrun |].
    replace (0 + Z.of_nat (Z.to_nat (a_len - 0))) with a_len in Hd by lia.
    exact Hd.
Qed.

(** Line 129 with [maxind = -1]. *)
Lemma choose_pivot_no_row a_len N F G H maxdiff m :
  maxdiff <> 0 -> maxdiff <> 1 ->
  choose_pivot FLINT_BITS a_len N F G H maxdiff (-1) m = (Err OutOfBounds, m).
Proof.
  intros H0 H1. unfold choose_pivot.
  replace (maxdiff =? 0) with false by (symmetry; apply Z.eqb_neq; exact H0).
  replace (maxdiff =? 1) with false by (symmetry; apply Z.eqb_neq; exact H1).
  erewrite bind_err; [reflexivity |]. apply load_ind_negative. lia.
Qed.

Lemma is_max_gap_unique fl gl k d1 d2 :
  is_max_gap FLINT_BITS fl gl k d1 -> is_max_gap FLINT_BITS fl gl k d2 -> d1 = d2.
Proof.
  intros (L1 & A1 & S1) (L2 & A2 & S2).
  assert (d1 <= d2).
  { destruct S1 as [-> | (i & g & f & Hi & Hg & Hf & ->)]; [lia |].
    apply (A2 i g f); assumption. }
  assert (d2 <= d1).
  { destruct S2 as [-> | (i & g & f & Hi & Hg & Hf & ->)]; [lia |].
    apply (A1 i g f); assumption. }
  lia.
Qed.

(** With a largest gap other than 0 and 1 the body of the main loop stops
    in the access of line 129. *)
Lemma loop_body_wide_gap less_than upper a_len N maskhi masklo F G H m fl gl d :
  m_ind m (c_ind F) = Some fl -> m_ind m (c_ind G) = Some gl ->
  Z.of_nat (length fl) = a_len -> Z.of_nat (length gl) = a_len ->
  is_max_gap FLINT_BITS fl gl a_len d -> d <> 0 -> d <> 1 ->
  loop_body FLINT_BITS less_than upper a_len N maskhi masklo F G H m
  = (Err OutOfBounds, m).
Proof.
  intros Hf Hg Hlf Hlg Hmax H0 H1. unfold loop_body.
  destruct (find_maxdiff_spec a_len (c_ind F) (c_ind G) m fl gl Hf Hg Hlf Hlg)
    as (d' & Hrun & Hmax').
  rewrite (is_max_gap_unique _ _ _ _ _ Hmax' Hmax) in Hrun. erewrite bind_val by exact Hrun. cbv beta iota.
  erewrite bind_err; [reflexivity |]. apply choose_pivot_no_row; assumption.
Qed.

End MaxGap.

(** C4 fails on [A = [5, 3, 1]], [B = [4, 2]]: whatever the fresh [gind]
    block holds, the first pass of lines 89-98 leaves the largest gap in
    [maxdiff] and -1, which is no row, in [maxind]. *)
Theorem maxind_on_example g0 g1 g2 :
  let m := after_init 64 (example_junk [g0; g1; g2]) 3 2 1 example_mem in
  exists maxdiff,
    find_maxdiff 64 3 Ifind Igind m = (Val (maxdiff, -1), m)
    /\ is_max_gap 64 [2; 2; 1] [g0; g1; g2] 3 maxdiff.
Proof.
  intros m. apply (find_maxdiff_spec 64 3 Ifind Igind m); reflexivity.
Qed.

(** ** The pass over the rows when the largest gap is 1 *)

Lemma ibuf_eq_dec (p q : ibuf) : {p = q} + {p <> q}.
Proof. decide equality. Qed.

Lemma rows_succ k : 0 <= k -> rows (k + 1) = rows k ++ [k].
Proof.
  intros Hk. unfold rows.
  replace (Z.to_nat (k + 1)) with (S (Z.to_nat k)) by lia.
  rewrite seq_S, map_app. simpl. rewrite Z2Nat.id by lia. reflexivity.
Qed.

Lemma find_rev_rows_succ (p : Z -> bool) k :
  0 <= k ->
  find p (rev (rows (k + 1))) = if p k then Some k else find p (rev (rows k)).
Proof.
  intros Hk. rewrite rows_succ by exact Hk. rewrite rev_app_distr. reflexivity.
Qed.

Lemma find_rows_range (p : Z -> bool) l i :
  find p l = Some i -> In i l /\ p i = true.
Proof. apply find_some. Qed.

Lemma in_rows i n : In i (rows n) <-> 0 <= i < n.
Proof.
  unfold rows. rewrite in_map_iff. split.
  - intros (x & <- & Hx). apply in_seq in Hx. lia.
  - intros Hi. exists (Z.to_nat i). split; [lia |]. apply in_seq. lia.
Qed.

Section Scan.

Variable FLINT_BITS : Z.

Lemma product_same_inputs m1 m2 N i j :
  m_a m1 = m_a m2 -> m_b m1 = m_b m2 ->
  product FLINT_BITS m1 N i j = product FLINT_BITS m2 N i j.
Proof. intros Ha Hb. unfold product. rewrite Ha, Hb. reflexivity. Qed.

Lemma monomial_eq_val p q N m x y :
  m_exp m p = Some x -> Z.of_nat (length x) = N ->
  m_exp m q = Some y -> Z.of_nat (length y) = N ->
  mpoly_monomial_eq p q N m = (Val (eq_words x y), m).
Proof.
  intros Hp Hx Hq Hy. unfold mpoly_monomial_eq.
  erewrite bind_val by (apply (load_exp_val _ _ _ x); assumption).
  erewrite bind_val by (apply (load_exp_val _ _ _ y); assumption).
  reflexivity.
Qed.

Variables (m : mem) (a_len b_len N : Z) (F G H : cand) (fl gl fe : list Z).
Hypothesis ready : scan_ready m a_len b_len N F G H fl gl fe.

Lemma row_differs_at k g f :
  zget gl k = Some g -> zget fl k = Some f ->
  row_differs FLINT_BITS m N F G k
  = (g >? f) && negb (eq_words (product FLINT_BITS m N k f) fe).
Proof.
  intros Hg Hf. destruct ready. unfold row_differs.
  rewrite sr_gind0, sr_find0, sr_fexp0, Hg, Hf.
  rewrite firstn_all2 by lia. reflexivity.
Qed.

Lemma scan_row k s mc :
  0 <= k < a_len ->
  scan_inv FLINT_BITS m a_len N F G H fl gl fe k s mc ->
  exists s' m',
    scan_gap1_row FLINT_BITS N F G H k s mc = (Val s', m')
    /\ scan_inv FLINT_BITS m a_len N F G H fl gl fe (k + 1) s' m'.
Proof.
  intros Hk I. pose proof ready as R. destruct R. destruct I.
  destruct si_gind0 as (gl' & Hgl' & Hrest).
  destruct si_hind0 as (hl' & Hhl' & Hhlen & Hhmax).
  destruct si_hexp0 as (he' & Hhe' & Hhelen & Hhemax).
  destruct si_temp0 as (te' & Hte' & Htelen).
  destruct (zget_in_block gl k ltac:(lia)) as [g Eg].
  destruct (zget_in_block fl k ltac:(lia)) as [f Ef].
  assert (Eg' : zget gl' k = Some g) by (rewrite Hrest by lia; exact Eg).
  pose proof (find_rev_rows_succ (row_differs FLINT_BITS m N F G) k ltac:(lia)) as Hfind.
  rewrite (row_differs_at k g f Eg Ef) in Hfind.
  unfold scan_gap1_row.
  erewrite bind_val by (eapply load_ind_val; eassumption).
  erewrite bind_val by (eapply load_ind_val; eassumption).
  destruct (g >? f) eqn:Egf.
  2:{ exists s, mc. split; [reflexivity |]. cbn [andb] in Hfind.
      constructor; try assumption.
      - exists gl'. split; [assumption |]. intros j Hj. apply Hrest. lia.
      - exists hl'. auto.
      - exists he'. auto.
      - exists te'. auto.
      - rewrite Hfind. assumption. }
  assert (Hcol : 0 <= f < b_len).
  { apply (sr_cols0 k g f Eg Ef). apply Z.gtb_lt in Egf. lia. }
  erewrite bind_val.
  2:{ eapply (monomial_add_val FLINT_BITS Etemp k f N mc te' a_len b_len);
      try assumption; congruence. }
  rewrite (product_same_inputs mc m N k f si_a0 si_b0).
  set (cell := product FLINT_BITS m N k f) in *.
  assert (Hcell : Z.of_nat (length cell) = N).
  { apply (product_length FLINT_BITS m a_len b_len); assumption. }
  set (m1 := set_exp mc Etemp (Some cell)).
  assert (H1a : m_a m1 = m_a m) by (unfold m1; rewrite (proj1 (set_exp_inputs _ _ _)); assumption).
  assert (H1b : m_b m1 = m_b m) by (unfold m1; rewrite (proj2 (set_exp_inputs _ _ _)); assumption).
  assert (H1f : m_exp m1 (c_exp F) = Some fe).
  { unfold m1. rewrite m_exp_set_other by congruence. assumption. }
  assert (H1t : m_exp m1 Etemp = Some cell) by apply m_exp_set_same.
  erewrite bind_val.
  2:{ apply (monomial_eq_val Etemp (c_exp F) N m1 cell fe); assumption. }
  destruct (eq_words cell fe) eqn:Esame; cbn [negb andb] in *.
  { exists s, m1. split; [reflexivity |].
    constructor; try assumption.
    - exists gl'. unfold m1. rewrite m_ind_set_exp. split; [assumption |].
      intros j Hj. apply Hrest. lia.
    - exists hl'. unfold m1. rewrite m_ind_set_exp. auto.
    - exists he'. unfold m1. rewrite m_exp_set_other by congruence. auto.
    - exists cell. auto.
    - rewrite Hfind. assumption. }
  erewrite bind_val.
  2:{ eapply load_ind_val; [| exact Ef]. unfold m1. rewrite m_ind_set_exp. assumption. }
  destruct (zset hl' k f) as [hl'' |] eqn:Eset.
  2:{ rewrite zset_in_block in Eset by lia. discriminate. }
  erewrite bind_val.
  2:{ eapply store_ind_val; [| exact Eset]. unfold m1. rewrite m_ind_set_exp. assumption. }
  set (m2 := set_ind m1 (c_ind H) (Some hl'')).
  assert (H2h : m_ind m2 (c_ind H) = Some hl'') by apply m_ind_set_same.
  erewrite bind_val.
  2:{ eapply load_ind_val; [exact H2h | eapply zget_zset_same; exact Eset]. }
  assert (H2a : m_a m2 = m_a m) by (unfold m2; rewrite (proj1 (set_ind_inputs _ _ _)); assumption).
  assert (H2b : m_b m2 = m_b m) by (unfold m2; rewrite (proj2 (set_ind_inputs _ _ _)); assumption).
  erewrite bind_val.
  2:{ eapply (monomial_add_val FLINT_BITS (c_exp H) k f N m2 he' a_len b_len);
      try assumption; try congruence.
      unfold m2, m1. rewrite m_exp_set_ind, m_exp_set_other by congruence.
      assumption. }
  rewrite (product_same_inputs m2 m N k f H2a H2b). fold cell.
  set (m3 := set_exp m2 (c_exp H) (Some cell)).
  exists k, m3. split; [reflexivity |].
  pose proof (zset_length _ _ _ _ Eset) as Hlen''.
  constructor.
  - unfold m3. rewrite (proj1 (set_exp_inputs _ _ _)). assumption.
  - unfold m3. rewrite (proj2 (set_exp_inputs _ _ _)). assumption.
  - unfold m3, m2, m1. rewrite m_ind_set_exp, m_ind_set_other, m_ind_set_exp by assumption.
    assumption.
  - unfold m3. rewrite m_exp_set_other by assumption.
    unfold m2. rewrite m_exp_set_ind. assumption.
  - unfold m3, m2. rewrite m_ind_set_exp.
    destruct (ibuf_eq_dec (c_ind H) (c_ind G)) as [Ealias | Eapart].
    + exists hl''. rewrite <- Ealias, m_ind_set_same. split; [reflexivity |].
      intros j Hj. rewrite (zget_zset_other _ _ _ j _ Eset) by lia.
      rewrite <- Ealias in Hgl'. assert (hl' = gl') by congruence. subst hl'.
      apply Hrest. lia.
    + exists gl'. rewrite m_ind_set_other by assumption.
      unfold m1. rewrite m_ind_set_exp. split; [assumption |].
      intros j Hj. apply Hrest. lia.
  - exists hl''. unfold m3. rewrite m_ind_set_exp. split; [assumption |].
    split; [lia |]. intros f' _ Hf'. rewrite Ef in Hf'. injection Hf' as <-.
    eapply zget_zset_same; exact Eset.
  - exists cell. unfold m3. rewrite m_exp_set_same. split; [reflexivity |].
    split; [assumption |]. intros f' _ Hf'. rewrite Ef in Hf'.
    injection Hf' as <-. reflexivity.
  - exists cell. unfold m3, m2. rewrite m_exp_set_other by assumption.
    rewrite m_exp_set_ind. auto.
  - rewrite Hfind. reflexivity.
Qed.

Lemma scan_count (n : nat) : forall k s mc,
  0 <= k -> k + Z.of_nat n = a_len ->
  scan_inv FLINT_BITS m a_len N F G H fl gl fe k s mc ->
  exists s' m',
    fold_count n k (scan_gap1_row FLINT_BITS N F G H) s mc = (Val s', m')
    /\ scan_inv FLINT_BITS m a_len N F G H fl gl fe a_len s' m'.
Proof.
  induction n as [| n IH]; intros k s mc Hk Hn I.
  - exists s, mc. split; [reflexivity |].
    assert (Hka : k = a_len) by lia. rewrite <- Hka at 2. exact I.
  - destruct (scan_row k s mc ltac:(lia) I) as (s1 & m1 & Hrun & I1).
    destruct (IH (k + 1) s1 m1 ltac:(lia) ltac:(lia) I1) as (s2 & m2 & Hrun2 & I2).
    exists s2, m2. split; [| exact I2].
    cbn [fold_count]. erewrite bind_val by exact Hrun. exact Hrun2.
Qed.

Lemma scan_inv_start : scan_inv FLINT_BITS m a_len N F G H fl gl fe 0 (-1) m.
Proof.
  destruct ready. constructor; try assumption; try reflexivity.
  - exists gl. auto.
  - destruct sr_hind0 as (hl & Hh & Hl). exists hl. split; [assumption |].
    split; [assumption |]. intros f Hneg. lia.
  - destruct sr_hexp0 as (he & Hh & Hl). exists he. split; [assumption |].
    split; [assumption |]. intros f Hneg. lia.
Qed.

Lemma scan_gap1_spec :
  exists m',
    scan_gap1 FLINT_BITS a_len N F G H m
    = (Val (row_or_none (last_differing FLINT_BITS m a_len N F G)), m')
    /\ scan_inv FLINT_BITS m a_len N F G H fl gl fe a_len
         (row_or_none (last_differing FLINT_BITS m a_len N F G)) m'.
Proof.
  pose proof ready as R. destruct R.
  destruct (scan_count (Z.to_nat (a_len - 0)) 0 (-1) m ltac:(lia) ltac:(lia)
              scan_inv_start) as (s & m' & Hrun & I).
  pose proof (si_maxind _ _ _ _ _ _ _ _ _ _ _ _ _ I) as Hs.
  exists m'. unfold last_differing. rewrite <- Hs.
  split; [exact Hrun | exact I].
Qed.

End Scan.

(** ** Reading a completed run backwards *)

Lemma bind_val_inv {A B} (c : M A) (k : A -> M B) m y m2 :
  bind c k m = (Val y, m2) ->
  exists x m1, c m = (Val x, m1) /\ k x m1 = (Val y, m2).
Proof.
  unfold bind. destruct (c m) as [[x | f] m1]; intros H; [eauto | discriminate].
Qed.

Lemma bind_err_inv {A B} (c : M A) (k : A -> M B) m f m2 :
  bind c k m = (Err f, m2) ->
  c m = (Err f, m2) \/ exists x m1, c m = (Val x, m1) /\ k x m1 = (Err f, m2).
Proof.
  unfold bind. destruct (c m) as [[x | f'] m1]; intros H; [right; eauto | left].
  injection H as -> ->. reflexivity.
Qed.

Lemma load_ind_inv p i m v m' :
  load_ind p i m = (Val v, m') ->
  m' = m /\ exists l, m_ind m p = Some l /\ zget l i = Some v.
Proof.
  unfold load_ind. destruct (m_ind m p) as [l |]; [| discriminate].
  destruct (zget l i) as [w |] eqn:E; cbv [of_option ret fail]; intros H;
    [| discriminate].
  injection H as <- <-. eauto.
Qed.

Lemma store_ind_inv p i v m u m' :
  store_ind p i v m = (Val u, m') ->
  exists l l', m_ind m p = Some l /\ zset l i v = Some l'
               /\ m' = set_ind m p (Some l').
Proof.
  unfold store_ind. destruct (m_ind m p) as [l |]; [| discriminate].
  destruct (zset l i v) as [l' |] eqn:E; intros H; [| discriminate].
  injection H as _ <-. eauto.
Qed.

Lemma load_exp_inv p N m x m' : load_exp p N m = (Val x, m') -> m' = m.
Proof.
  unfold load_exp. destruct (m_exp m p) as [l |]; [| discriminate].
  destruct (zslice l 0 N); cbv [of_option ret fail]; intros H; [| discriminate].
  injection H as _ <-. reflexivity.
Qed.

Lemma assert_inv b m u m' : assert b m = (Val u, m') -> b = true /\ m' = m.
Proof.
  destruct b; cbv [assert ret fail]; intros H; [| discriminate].
  injection H as _ <-. split; reflexivity.
Qed.

Lemma zslice_Some_range l off n y :
  zslice l off n = Some y -> 0 <= off /\ 0 <= n /\ off + n <= Z.of_nat (length l).
Proof.
  unfold zslice.
  destruct (0 <=? off) eqn:E1; [| discriminate].
  destruct (0 <=? n) eqn:E2; [| discriminate].
  destruct (off + n <=? Z.of_nat (length l)) eqn:E3; [| discriminate].
  intros _. apply Z.leb_le in E1, E2, E3. lia.
Qed.

Lemma zslice_outside l off n :
  Z.of_nat (length l) < off + n -> zslice l off n = None.
Proof.
  intros H. destruct (zslice l off n) eqn:E; [| reflexivity].
  apply zslice_Some_range in E. lia.
Qed.

Lemma blit_length l ws l' : blit l ws = Some l' -> length l' = length l.
Proof.
  unfold blit. destruct (length ws <=? length l)%nat eqn:E; [| discriminate].
  intros H. injection H as <-. apply Nat.leb_le in E.
  rewrite length_app, length_skipn. lia.
Qed.

Lemma find_app_none {A} (p : A -> bool) l l' :
  (forall x, In x l -> p x = false) -> find p (l ++ l') = find p l'.
Proof.
  induction l as [| x l IH]; intros Hl; [reflexivity |]. simpl.
  rewrite (Hl x) by (left; reflexivity). apply IH.
  intros y Hy. apply Hl. right. exact Hy.
Qed.

(** The last pass of a counted loop, taken off its end. *)
Lemma fold_count_snoc {T} (body : Z -> T -> M T) n : forall i s m,
  fold_count (n + 1) i body s m
  = bind (fold_count n i body s) (fun s' => body (i + Z.of_nat n) s') m.
Proof.
  induction n as [| n IH]; intros i s m.
  - cbn [Nat.add fold_count]. unfold bind, ret.
    replace (i + Z.of_nat 0) with i by lia.
    destruct (body i s m) as [[x | f] m']; reflexivity.
  - cbn [Nat.add fold_count]. unfold bind at 1 2 3.
    destruct (body i s m) as [[x | f] m']; [| reflexivity].
    rewrite IH. unfold bind.
    replace (i + 1 + Z.of_nat n) with (i + Z.of_nat (S n)) by lia. reflexivity.
Qed.

(** An invariant of a downward loop holds after it when each pass that
    completes keeps it. *)
Lemma fold_down_count_inv {T} (I : Z -> T -> mem -> Prop)
      (body : Z -> T -> M T) n : forall i s m s' m',
  (forall k t mc t' mc',
      i - Z.of_nat n < k <= i -> I k t mc -> body k t mc = (Val t', mc') ->
      I (k - 1) t' mc') ->
  I i s m ->
  fold_down_count n i body s m = (Val s', m') ->
  I (i - Z.of_nat n) s' m'.
Proof.
  induction n as [| n IH]; intros i s m s' m' Hstep Hi Hrun.
  - cbn [fold_down_count] in Hrun. unfold ret in Hrun. injection Hrun as <- <-.
    replace (i - Z.of_nat 0) with i by lia. exact Hi.
  - cbn [fold_down_count] in Hrun.
    apply bind_val_inv in Hrun as (t & mc & Hb & Hrun).
    replace (i - Z.of_nat (S n)) with (i - 1 - Z.of_nat n) by lia.
    apply (IH (i - 1) t mc); [| | exact Hrun].
    + intros k t1 mc1 t1' mc1' Hk. apply Hstep. lia.
    + apply (Hstep i s m); [lia | exact Hi | exact Hb].
Qed.

(** ** The scratch blocks keep their sizes *)

Create HintDb sized.

Lemma sized_ret a_len N {A} (x : A) : keeps_sized a_len N (ret x).
Proof. intros m Hm. exact Hm. Qed.

Lemma sized_fail a_len N {A} (f : fault) : keeps_sized a_len N (@fail A f).
Proof. intros m Hm. exact Hm. Qed.

Lemma sized_bind a_len N {A B} (c : M A) (k : A -> M B) :
  keeps_sized a_len N c -> (forall x, keeps_sized a_len N (k x)) ->
  keeps_sized a_len N (bind c k).
Proof.
  intros Hc Hk m Hm. unfold bind. specialize (Hc m Hm).
  destruct (c m) as [[x | f] m']; simpl in *; [apply Hk; exact Hc | exact Hc].
Qed.

Lemma sized_of_option a_len N {A} (o : option A) : keeps_sized a_len N (of_option o).
Proof. destruct o; intros m Hm; exact Hm. Qed.

Lemma sized_assert a_len N b : keeps_sized a_len N (assert b).
Proof. destruct b; intros m Hm; exact Hm. Qed.

Lemma sized_set_ind a_len N m p l :
  blocks_sized a_len N m -> Z.of_nat (length l) = a_len ->
  blocks_sized a_len N (set_ind m p (Some l)).
Proof.
  intros [Hi He] Hl. split.
  - intros q. destruct (ibuf_eq_dec p q) as [<- | Hne].
    + rewrite m_ind_set_same. eauto.
    + rewrite m_ind_set_other by exact Hne. apply Hi.
  - intros q. rewrite m_exp_set_ind. apply He.
Qed.

Lemma ebuf_eq_dec (p q : ebuf) : {p = q} + {p <> q}.
Proof. decide equality. Qed.

Lemma sized_set_exp a_len N m p l :
  blocks_sized a_len N m -> Z.of_nat (length l) = N ->
  blocks_sized a_len N (set_exp m p (Some l)).
Proof.
  intros [Hi He] Hl. split.
  - intros q. rewrite m_ind_set_exp. apply Hi.
  - intros q. destruct (ebuf_eq_dec p q) as [<- | Hne].
    + rewrite m_exp_set_same. eauto.
    + rewrite m_exp_set_other by exact Hne. apply He.
Qed.

Lemma sized_load_ind a_len N p i : keeps_sized a_len N (load_ind p i).
Proof.
  intros m Hm. unfold load_ind.
  destruct (m_ind m p) as [l |]; [apply sized_of_option; exact Hm | exact Hm].
Qed.

Lemma sized_store_ind a_len N p i v : keeps_sized a_len N (store_ind p i v).
Proof.
  intros m Hm. unfold store_ind.
  destruct (m_ind m p) as [l |] eqn:E; [| exact Hm].
  destruct (zset l i v) as [l' |] eqn:E'; [| exact Hm].
  apply sized_set_ind; [exact Hm |].
  rewrite (zset_length _ _ _ _ E').
  destruct Hm as [Hi _]. destruct (Hi p) as (l0 & E0 & Hl0).
  rewrite E in E0. injection E0 as <-. exact Hl0.
Qed.

Lemma sized_load_exp a_len N p n : keeps_sized a_len N (load_exp p n).
Proof.
  intros m Hm. unfold load_exp.
  destruct (m_exp m p) as [l |]; [apply sized_of_option; exact Hm | exact Hm].
Qed.

Lemma sized_store_exp a_len N p ws : keeps_sized a_len N (store_exp p ws).
Proof.
  intros m Hm. unfold store_exp.
  destruct (m_exp m p) as [l |] eqn:E; [| exact Hm].
  destruct (blit l ws) as [l' |] eqn:E'; [| exact Hm].
  apply sized_set_exp; [exact Hm |].
  rewrite (blit_length _ _ _ E').
  destruct Hm as [_ He]. destruct (He p) as (l0 & E0 & Hl0).
  rewrite E in E0. injection E0 as <-. exact Hl0.
Qed.

Lemma sized_load_a a_len N i n : keeps_sized a_len N (load_a i n).
Proof. intros m Hm. unfold load_a. apply sized_of_option. exact Hm. Qed.

Lemma sized_load_b a_len N j n : keeps_sized a_len N (load_b j n).
Proof. intros m Hm. unfold load_b. apply sized_of_option. exact Hm. Qed.

#[global] Hint Resolve sized_ret sized_fail sized_of_option sized_assert
  sized_load_ind sized_store_ind sized_load_exp sized_store_exp
  sized_load_a sized_load_b : sized.

Ltac sized_step :=
  match goal with
  | |- keeps_sized _ _ (bind _ _) => apply sized_bind; [| intros ?]
  | |- keeps_sized _ _ (if ?b then _ else _) => destruct b
  | |- keeps_sized _ _ (let (_, _) := ?p in _) => destruct p
  | |- keeps_sized _ _ (match ?p with Some _ => _ | None => _ end) => destruct p
  | |- keeps_sized _ _ _ => solve [auto with sized]
  end.

Ltac sized := repeat sized_step.

Lemma sized_fold_count a_len N {T} n : forall i (body : Z -> T -> M T) s,
  (forall j t, keeps_sized a_len N (body j t)) ->
  keeps_sized a_len N (fold_count n i body s).
Proof. induction n; intros i body s Hb; simpl; sized; auto. Qed.

Lemma sized_fold_down_count a_len N {T} n : forall i (body : Z -> T -> M T) s,
  (forall j t, keeps_sized a_len N (body j t)) ->
  keeps_sized a_len N (fold_down_count n i body s).
Proof. induction n; intros i body s Hb; simpl; sized; auto. Qed.

Section Sized.

Variable FLINT_BITS : Z.
Variable less_than : list Z -> list Z -> Z -> Z -> Z -> bool.
Variables a_len N : Z.

Lemma sized_monomial_add dst i j n :
  keeps_sized a_len N (mpoly_monomial_add FLINT_BITS dst i j n).
Proof. unfold mpoly_monomial_add; sized. Qed.

Lemma sized_monomial_eq p q n : keeps_sized a_len N (mpoly_monomial_eq p q n).
Proof. unfold mpoly_monomial_eq; sized. Qed.

Lemma sized_monomial_lt p q n hi lo :
  keeps_sized a_len N (mpoly_monomial_lt less_than p q n hi lo).
Proof. unfold mpoly_monomial_lt; sized. Qed.

Hint Resolve sized_monomial_add sized_monomial_eq sized_monomial_lt : sized.

Lemma sized_inner_right k n hi lo hexp i : forall j x,
  keeps_sized a_len N (inner_right FLINT_BITS less_than k n hi lo hexp i j x).
Proof. induction k; intros j x; simpl; sized; auto. Qed.

Lemma sized_inner_left k n hi lo hexp i : forall j x,
  keeps_sized a_len N (inner_left FLINT_BITS less_than k n hi lo hexp i j x).
Proof. induction k; intros j x; simpl; sized; auto. Qed.

Hint Resolve sized_inner_right sized_inner_left : sized.

Lemma sized_loop_body upper al n hi lo F G H :
  keeps_sized a_len N (loop_body FLINT_BITS less_than upper al n hi lo F G H).
Proof.
  unfold loop_body, find_maxdiff, choose_pivot, scan_gap1, path_right,
    path_left, fold_up, fold_down.
  apply sized_bind.
  - apply sized_fold_count. intros j [d r]. unfold find_maxdiff_row. sized.
  - intros [d r]. apply sized_bind.
    + destruct (d =? 0); [sized |]. destruct (d =? 1); [| sized].
      apply sized_bind; [| intros ?; sized].
      apply sized_fold_count. intros j t. unfold scan_gap1_row. sized.
    + intros [p |]; [| sized].
      do 8 (apply sized_bind; [solve [auto with sized] | intros ?]).
      apply sized_bind; [| intros ?; apply sized_bind; [| intros ?; sized]].
      * apply sized_fold_count. intros j t. sized.
      * apply sized_fold_down_count. intros j t. sized.
Qed.

End Sized.

(** ** The pass of lines 108-121 at the head of the loop *)

Section HeadScan.

Variable FLINT_BITS : Z.
Variable less_than : list Z -> list Z -> Z -> Z -> Z -> bool.
Variables (a_len b_len N : Z) (F G H : cand) (m : mem).
Hypothesis head : head_inv FLINT_BITS a_len b_len N F G H m.

(** Line 113 with a column that [b] does not have. *)
Lemma monomial_add_outside dst i j :
  b_len <= j -> mpoly_monomial_add FLINT_BITS dst i j N m = (Err OutOfBounds, m).
Proof.
  intros Hj. destruct head. unfold mpoly_monomial_add, bind, load_a, load_b.
  destruct (zslice (m_a m) (i * N) N); [| reflexivity]. cbv [of_option ret].
  rewrite zslice_outside by nia. reflexivity.
Qed.

Lemma monomial_add_before dst i j :
  j < 0 -> mpoly_monomial_add FLINT_BITS dst i j N m = (Err OutOfBounds, m).
Proof.
  intros Hj. destruct head. unfold mpoly_monomial_add, bind, load_a, load_b.
  destruct (zslice (m_a m) (i * N) N); [| reflexivity]. cbv [of_option ret].
  destruct (zslice (m_b m) (j * N) N) eqn:E; [| reflexivity].
  apply zslice_Some_range in E. nia.
Qed.

Lemma head_frontiers i :
  0 <= i < a_len ->
  exists gl fl g f,
    m_ind m (c_ind G) = Some gl /\ m_ind m (c_ind F) = Some fl
    /\ zget gl i = Some g /\ zget fl i = Some f
    /\ (i < a_len - 1 -> b_len <= f).
Proof.
  intros Hi. destruct head. destruct hi_sized0 as [Hind _].
  destruct (Hind (c_ind G)) as (gl & Hg & Hgl).
  destruct (Hind (c_ind F)) as (fl & Hf & Hfl).
  destruct (zget_in_block gl i ltac:(lia)) as [g Eg].
  destruct (zget_in_block fl i ltac:(lia)) as [f Ef].
  exists gl, fl, g, f. repeat split; try assumption.
  intros Hlow. apply (hi_tall0 fl Hf i f); [lia | exact Hlow | exact Ef].
Qed.

(** A row below the last: the row is passed over, or line 113 reads
    column [find[i] >= b_len] of [b]. *)
Lemma scan_low_row i s :
  0 <= i < a_len - 1 ->
  scan_gap1_row FLINT_BITS N F G H i s m
  = (if column_missing m b_len F G i then (Err OutOfBounds, m) else (Val s, m))
  /\ (column_missing m b_len F G i = false ->
      row_differs FLINT_BITS m N F G i = false).
Proof.
  intros Hi.
  destruct (head_frontiers i ltac:(lia)) as (gl & fl & g & f & Hg & Hf & Eg & Ef & Ht).
  specialize (Ht ltac:(lia)).
  unfold column_missing, row_differs. rewrite Hg, Hf, Eg, Ef.
  unfold scan_gap1_row.
  erewrite bind_val by (eapply load_ind_val; eassumption).
  erewrite bind_val by (eapply load_ind_val; eassumption).
  replace (f <? b_len) with false by (symmetry; apply Z.ltb_ge; lia).
  rewrite andb_false_r. cbn [negb]. rewrite andb_true_r.
  destruct (g >? f).
  - split; [| discriminate].
    erewrite bind_err; [reflexivity |]. apply monomial_add_outside. exact Ht.
  - split; [reflexivity |]. intros _. destruct (m_exp m (c_exp F)); reflexivity.
Qed.

Lemma scan_low_rows (n : nat) : forall k : nat,
  Z.of_nat k + Z.of_nat n <= a_len - 1 ->
  fold_count n (Z.of_nat k) (scan_gap1_row FLINT_BITS N F G H) (-1) m
  = if existsb (column_missing m b_len F G) (map Z.of_nat (seq k n))
    then (Err OutOfBounds, m) else (Val (-1), m).
Proof.
  induction n as [| n IH]; intros k Hk; [reflexivity |].
  cbn [fold_count seq map existsb]. unfold bind.
  destruct (scan_low_row (Z.of_nat k) (-1) ltac:(lia)) as [-> _].
  destruct (column_missing m b_len F G (Z.of_nat k)); [reflexivity |].
  cbn [orb]. replace (Z.of_nat k + 1) with (Z.of_nat (S k)) by lia.
  apply IH. lia.
Qed.

Lemma low_rows_same k :
  0 <= k <= a_len - 1 ->
  existsb (column_missing m b_len F G) (rows k) = false ->
  forall i, In i (rows k) -> row_differs FLINT_BITS m N F G i = false.
Proof.
  intros Hk Hex i Hin.
  destruct (scan_low_row i 0) as [_ Hsame].
  - apply in_rows in Hin. lia.
  - apply Hsame.
    destruct (column_missing m b_len F G i) eqn:E; [| reflexivity].
    rewrite <- Hex. symmetry. apply existsb_exists. exists i. split; assumption.
Qed.

(** The last row. *)
Lemma scan_last_row :
  let i := a_len - 1 in
  (column_missing m b_len F G i = true
   /\ scan_gap1_row FLINT_BITS N F G H i (-1) m = (Err OutOfBounds, m))
  \/ (column_missing m b_len F G i = false
      /\ row_differs FLINT_BITS m N F G i = false
      /\ exists m', scan_gap1_row FLINT_BITS N F G H i (-1) m = (Val (-1), m')
                    /\ forall p, m_ind m' p = m_ind m p)
  \/ (column_missing m b_len F G i = false
      /\ row_differs FLINT_BITS m N F G i = true
      /\ exists fl f hl hl',
          m_ind m (c_ind F) = Some fl /\ zget fl i = Some f
          /\ m_ind m (c_ind H) = Some hl /\ zset hl i f = Some hl'
          /\ scan_gap1_row FLINT_BITS N F G H i (-1) m
             = (Val i, adopted FLINT_BITS N H m i f hl')).
Proof.
  intros i. pose proof head as Hd. destruct Hd.
  assert (Hi : 0 <= i < a_len) by (unfold i; lia).
  destruct (head_frontiers i Hi) as (gl & fl & g & f & Hg & Hf & Eg & Ef & _).
  destruct hi_sized0 as [Hind Hexp].
  destruct (Hind (c_ind H)) as (hl & Hh & Hhl).
  destruct (Hexp (c_exp F)) as (fe & Hfe & Hfel).
  destruct (Hexp (c_exp H)) as (he & Hhe & Hhel).
  destruct (Hexp Etemp) as (te & Hte & Htel).
  unfold column_missing, row_differs. rewrite Hg, Hf, Hfe, Eg, Ef.
  unfold scan_gap1_row.
  erewrite bind_val by (eapply load_ind_val; eassumption).
  erewrite bind_val by (eapply load_ind_val; eassumption).
  destruct (g >? f); [| right; left; repeat split; exists m; split; reflexivity].
  cbn [andb].
  destruct (f <? 0) eqn:Eneg.
  { apply Z.ltb_lt in Eneg. left.
    replace (0 <=? f) with false by (symmetry; apply Z.leb_gt; lia).
    split; [reflexivity |].
    erewrite bind_err; [reflexivity |]. apply monomial_add_before. exact Eneg. }
  apply Z.ltb_ge in Eneg.
  replace (0 <=? f) with true by (symmetry; apply Z.leb_le; lia).
  destruct (f <? b_len) eqn:Ecol.
  2:{ apply Z.ltb_ge in Ecol. left. split; [reflexivity |].
      erewrite bind_err; [reflexivity |]. apply monomial_add_outside. exact Ecol. }
  apply Z.ltb_lt in Ecol. right. cbn [andb negb].
  set (cell := product FLINT_BITS m N i f).
  assert (Hcell : Z.of_nat (length cell) = N).
  { apply (product_length FLINT_BITS m a_len b_len); try assumption; lia. }
  set (m1 := set_exp m Etemp (Some cell)).
  erewrite bind_val.
  2:{ apply (monomial_add_val FLINT_BITS Etemp i f N m te a_len b_len);
      try assumption; lia. }
  fold cell. fold m1.
  assert (Hfe1 : m_exp m1 (c_exp F) = Some fe).
  { unfold m1. rewrite m_exp_set_other by (apply not_eq_sym; exact hi_f_temp0).
    exact Hfe. }
  erewrite bind_val.
  2:{ apply (monomial_eq_val Etemp (c_exp F) N m1 cell fe);
      [unfold m1; apply m_exp_set_same | exact Hcell | exact Hfe1 | exact Hfel]. }
  rewrite (firstn_all2 (n := Z.to_nat N) fe) by lia.
  destruct (eq_words cell fe).
  { left. cbn [negb]. repeat split. exists m1. split; [reflexivity |].
    intros p. unfold m1. apply m_ind_set_exp. }
  right. cbn [negb]. repeat split.
  destruct (zset hl i f) as [hl' |] eqn:Eset.
  2:{ rewrite zset_in_block in Eset by lia. discriminate. }
  exists fl, f, hl, hl'. repeat split; try assumption.
  assert (Hf1 : m_ind m1 (c_ind F) = Some fl)
    by (unfold m1; rewrite m_ind_set_exp; exact Hf).
  assert (Hh1 : m_ind m1 (c_ind H) = Some hl)
    by (unfold m1; rewrite m_ind_set_exp; exact Hh).
  erewrite bind_val by (eapply load_ind_val; eassumption).
  erewrite bind_val by (eapply store_ind_val; eassumption).
  set (m2 := set_ind m1 (c_ind H) (Some hl')).
  erewrite bind_val.
  2:{ eapply load_ind_val; [unfold m2; apply m_ind_set_same |].
      eapply zget_zset_same. exact Eset. }
  assert (Hhe2 : m_exp m2 (c_exp H) = Some he).
  { unfold m2, m1. rewrite m_exp_set_ind.
    rewrite m_exp_set_other by (apply not_eq_sym; exact hi_h_temp0). exact Hhe. }
  erewrite bind_val.
  2:{ apply (monomial_add_val FLINT_BITS (c_exp H) i f N m2 he a_len b_len);
      try assumption; try lia;
      unfold m2, m1;
      [destruct (set_ind_inputs (set_exp m Etemp (Some cell)) (c_ind H) (Some hl')) as [-> _];
       destruct (set_exp_inputs m Etemp (Some cell)) as [-> _]; assumption
      | destruct (set_ind_inputs (set_exp m Etemp (Some cell)) (c_ind H) (Some hl')) as [_ ->];
       destruct (set_exp_inputs m Etemp (Some cell)) as [_ ->]; assumption]. }
  unfold ret, adopted. fold cell. fold m1. fold m2.
  rewrite (product_same_inputs FLINT_BITS m2 m).
  - reflexivity.
  - unfold m2, m1.
    destruct (set_ind_inputs (set_exp m Etemp (Some cell)) (c_ind H) (Some hl')) as [-> _].
    destruct (set_exp_inputs m Etemp (Some cell)) as [-> _]. reflexivity.
  - unfold m2, m1.
    destruct (set_ind_inputs (set_exp m Etemp (Some cell)) (c_ind H) (Some hl')) as [_ ->].
    destruct (set_exp_inputs m Etemp (Some cell)) as [_ ->]. reflexivity.
Qed.

(** The whole pass: it stops at the first row whose column [b] does not
    have; otherwise the rows below the last are passed over, and the pass
    adopts the first row whose cell is not f's monomial. *)
Lemma scan_at_head :
  if existsb (column_missing m b_len F G) (rows a_len)
  then scan_gap1 FLINT_BITS a_len N F G H m = (Err OutOfBounds, m)
  else exists m',
      scan_gap1 FLINT_BITS a_len N F G H m
      = (Val (row_or_none (first_differing FLINT_BITS m a_len N F G)), m')
      /\ (first_differing FLINT_BITS m a_len N F G = None ->
          forall p, m_ind m' p = m_ind m p)
      /\ (forall i, first_differing FLINT_BITS m a_len N F G = Some i ->
            i = a_len - 1
            /\ exists fl f hl hl',
                m_ind m (c_ind F) = Some fl /\ zget fl i = Some f
                /\ m_ind m (c_ind H) = Some hl /\ zset hl i f = Some hl'
                /\ m' = adopted FLINT_BITS N H m i f hl').
Proof.
  pose proof head as Hd. destruct Hd.
  assert (Hrows : rows a_len = rows (a_len - 1) ++ [a_len - 1]).
  { replace a_len with (a_len - 1 + 1) at 1 by lia. apply rows_succ. lia. }
  pose proof (scan_low_rows (Z.to_nat (a_len - 1)) 0 ltac:(lia)) as Hlow.
  change (Z.of_nat 0) with 0 in Hlow. fold (rows (a_len - 1)) in Hlow.
  unfold scan_gap1, fold_up, first_differing.
  replace (Z.to_nat (a_len - 0)) with (Z.to_nat (a_len - 1) + 1)%nat by lia.
  rewrite fold_count_snoc. unfold bind. rewrite Hlow, Hrows, existsb_app.
  destruct (existsb (column_missing m b_len F G) (rows (a_len - 1))) eqn:Elow;
    [reflexivity |].
  rewrite find_app_none by (apply low_rows_same; [lia | exact Elow]).
  cbn [orb existsb find].
  replace (0 + Z.of_nat (Z.to_nat (a_len - 1))) with (a_len - 1) by lia.
  destruct scan_last_row
    as [[Hc Hr] | [(Hc & Hs & m' & Hr & Hind)
                  | (Hc & Hs & fl & f & hl & hl' & Hf & Ef & Hh & Eset & Hr)]];
    rewrite Hc, ?Hs, Hr; cbn [orb row_or_none]; [reflexivity | |].
  - exists m'. split; [reflexivity |]. split; [intros _; exact Hind |].
    intros i Hi. discriminate.
  - exists (adopted FLINT_BITS N H m (a_len - 1) f hl').
    split; [reflexivity |]. split; [discriminate |].
    intros i Hi. injection Hi as <-. split; [reflexivity |].
    exists fl, f, hl, hl'. repeat split; assumption.
Qed.

End HeadScan.

(** ** What a completed pass through the body of the loop keeps *)

Section HeadKept.

Variable FLINT_BITS : Z.
Variable less_than : list Z -> list Z -> Z -> Z -> Z -> bool.
Variables (a_len b_len N : Z).

Lemma monomial_add_column dst i j m u m' :
  0 < N -> Z.of_nat (length (m_b m)) = b_len * N ->
  mpoly_monomial_add FLINT_BITS dst i j N m = (Val u, m') -> 0 <= j < b_len.
Proof.
  intros HN Hb Hr. unfold mpoly_monomial_add in Hr.
  apply bind_val_inv in Hr as (x & m1 & Ha & Hr).
  apply bind_val_inv in Hr as (y & m2 & Hy & _).
  unfold load_a in Ha. destruct (zslice (m_a m) (i * N) N);
    cbv [of_option ret fail] in Ha; [| discriminate].
  injection Ha as _ <-.
  unfold load_b in Hy. destruct (zslice (m_b m) (j * N) N) eqn:E;
    cbv [of_option ret fail] in Hy; [| discriminate].
  apply zslice_Some_range in E. nia.
Qed.

Lemma monomial_add_frame dst i j m u m' :
  mpoly_monomial_add FLINT_BITS dst i j N m = (Val u, m') ->
  (forall p, m_ind m' p = m_ind m p) /\ m_b m' = m_b m.
Proof.
  intros Hr. unfold mpoly_monomial_add in Hr.
  apply bind_val_inv in Hr as (x & m1 & Ha & Hr).
  apply bind_val_inv in Hr as (y & m2 & Hy & Hr).
  unfold load_a in Ha. destruct (zslice (m_a m) (i * N) N);
    cbv [of_option ret fail] in Ha; [| discriminate].
  injection Ha as _ <-.
  unfold load_b in Hy. destruct (zslice (m_b m) (j * N) N);
    cbv [of_option ret fail] in Hy; [| discriminate].
  injection Hy as _ <-.
  unfold store_exp in Hr. destruct (m_exp m dst) as [bl |]; [| discriminate].
  destruct (blit bl (add_words FLINT_BITS x y)); [| discriminate].
  injection Hr as _ <-. split.
  - intros p. apply m_ind_set_exp.
  - apply set_exp_inputs.
Qed.

Lemma monomial_lt_inv p q hi lo m b m' :
  mpoly_monomial_lt less_than p q N hi lo m = (Val b, m') -> m' = m.
Proof.
  intros Hr. unfold mpoly_monomial_lt in Hr.
  apply bind_val_inv in Hr as (x & m1 & Hx & Hr).
  apply bind_val_inv in Hr as (y & m2 & Hy & Hr).
  apply load_exp_inv in Hx. apply load_exp_inv in Hy. subst m1 m2.
  unfold ret in Hr. injection Hr as _ <-. reflexivity.
Qed.

(** The inner loop of lines 170-177 completes without a pass, or its
    first pass read a column of [b]. *)
Lemma inner_left_inv n hi lo hexp i j x m x' m' :
  0 < N -> Z.of_nat (length (m_b m)) = b_len * N ->
  inner_left FLINT_BITS less_than n N hi lo hexp i j x m = (Val x', m') ->
  (x' = x /\ m' = m) \/ 0 <= j < b_len.
Proof.
  intros HN Hb Hr. destruct n as [| n]; cbn [inner_left] in Hr.
  - unfold ret in Hr. injection Hr as <- <-. left. split; reflexivity.
  - right. apply bind_val_inv in Hr as (u & m1 & Hadd & _).
    exact (monomial_add_column _ _ _ _ _ _ HN Hb Hadd).
Qed.

Variables F G H : cand.

Lemma left_inv_same lo m m' :
  (forall p, m_ind m' p = m_ind m p) -> m_b m' = m_b m ->
  left_inv a_len b_len N F H lo m -> left_inv a_len b_len N F H lo m'.
Proof.
  intros Hind Hb [Lb Lf Lh]. constructor.
  - rewrite Hb. exact Lb.
  - intros fl. rewrite Hind. apply Lf.
  - intros hl. rewrite Hind. apply Lh.
Qed.

Lemma FLINT_MAX_right x y : y <= FLINT_MAX x y.
Proof.
  unfold FLINT_MAX. destruct (x >? y) eqn:E; [| lia].
  apply Z.gtb_lt in E. lia.
Qed.

(** Lines 169-179 for a row [i] below the last: the row's new frontier is
    at least f's. *)
Lemma path_left_row maskhi masklo i hscore m hscore' m' :
  0 < N -> 0 <= i < a_len - 1 ->
  left_inv a_len b_len N F H (i + 1) m ->
  (hn <- load_ind (c_ind H) (slong_wrap FLINT_BITS (i + 1)) ;;
   f <- load_ind (c_ind F) i ;;
   let x := FLINT_MAX hn f in
   let j := FLINT_MAX hn f in
   g <- load_ind (c_ind G) i ;;
   x <- inner_left FLINT_BITS less_than (Z.to_nat (g - j)) N maskhi masklo
          (c_exp H) i j x ;;
   store_ind (c_ind H) i x ;;;
   g <- load_ind (c_ind G) i ;;
   h <- load_ind (c_ind H) i ;;
   ret (slong_wrap FLINT_BITS (hscore + slong_wrap FLINT_BITS (g - h)))) m
  = (Val hscore', m') ->
  left_inv a_len b_len N F H i m'.
Proof.
  intros HN Hi [Lb Lf Lh] Hr.
  apply bind_val_inv in Hr as (hn & m1 & L1 & Hr).
  apply load_ind_inv in L1 as [-> _].
  apply bind_val_inv in Hr as (f & m1 & L2 & Hr).
  apply load_ind_inv in L2 as [-> (fl & Hf & Ef)].
  cbv zeta in Hr.
  apply bind_val_inv in Hr as (g & m1 & L3 & Hr).
  apply load_ind_inv in L3 as [-> _].
  apply bind_val_inv in Hr as (x & m1 & Hin & Hr).
  pose proof (Lf fl Hf i f ltac:(lia) ltac:(lia) Ef) as Htall.
  pose proof (FLINT_MAX_right hn f) as Hmax.
  apply (inner_left_inv _ _ _ _ _ _ _ _ _ _ HN Lb) in Hin as [[-> ->] | Hcol];
    [| lia].
  apply bind_val_inv in Hr as (u & m1 & Hst & Hr).
  apply store_ind_inv in Hst as (hl & hl' & Hh & Eset & ->).
  apply bind_val_inv in Hr as (g' & m1 & L4 & Hr).
  apply load_ind_inv in L4 as [-> _].
  apply bind_val_inv in Hr as (h & m1 & L5 & Hr).
  apply load_ind_inv in L5 as [-> _].
  unfold ret in Hr. injection Hr as _ <-.
  assert (Hrow : forall r v, zget hl' r = Some v ->
                             r = i /\ v = FLINT_MAX hn f
                             \/ r <> i /\ zget hl r = Some v).
  { intros r v Hv. destruct (Z.eq_dec r i) as [-> | Hne].
    - left. rewrite (zget_zset_same _ _ _ _ Eset) in Hv.
      injection Hv as <-. split; reflexivity.
    - right. rewrite (zget_zset_other _ _ _ _ _ Eset Hne) in Hv.
      split; assumption. }
  constructor.
  - destruct (set_ind_inputs m (c_ind H) (Some hl')) as [_ ->]. exact Lb.
  - intros fl'. destruct (ibuf_eq_dec (c_ind H) (c_ind F)) as [E | E].
    + rewrite <- E, m_ind_set_same. intros Hfl. injection Hfl as <-.
      rewrite <- E in Hf. rewrite Hh in Hf. injection Hf as ->.
      intros r v Hr1 Hr2 Hv.
      destruct (Hrow r v Hv) as [[-> ->] | [_ Hv']]; [lia |].
      rewrite E in Hh. exact (Lf _ Hh r v Hr1 Hr2 Hv').
    + rewrite m_ind_set_other by exact E. apply Lf.
  - intros hl''. rewrite m_ind_set_same. intros Hhl. injection Hhl as <-.
    intros r v Hr1 Hr2 Hv.
    destruct (Hrow r v Hv) as [[-> ->] | [Hne Hv']]; [lia |].
    apply (Lh hl Hh r v); [lia | assumption | assumption].
Qed.

(** A completed pass through the body of the loop keeps what holds at its
    head. *)
Lemma loop_body_keeps_head upper maskhi masklo m F' G' H' m' :
  head_inv FLINT_BITS a_len b_len N F G H m ->
  loop_body FLINT_BITS less_than upper a_len N maskhi masklo F G H m
  = (Val (Next F' G' H'), m') ->
  head_inv FLINT_BITS a_len b_len N F' G' H' m'.
Proof.
  intros Hd Hrun. pose proof Hd as Hd'. destruct Hd'.
  pose proof (sized_loop_body FLINT_BITS less_than a_len N upper a_len N
                maskhi masklo F G H m hi_sized0) as Hsized.
  pose proof (keeps_loop_body FLINT_BITS less_than upper a_len N maskhi masklo
                F G H m) as [Hka Hkb].
  rewrite Hrun in Hsized, Hka, Hkb. cbn [snd] in Hsized, Hka, Hkb.
  assert (Hmin : slong_min FLINT_BITS <= -1).
  { pose proof (slong_max_pos FLINT_BITS hi_bits0).
    unfold slong_min, slong_max in *. lia. }
  (* the pass of lines 89-98 *)
  unfold loop_body in Hrun.
  destruct hi_sized0 as [Hind Hexp].
  destruct (Hind (c_ind F)) as (fl & Hf & Hfl).
  destruct (Hind (c_ind G)) as (gl & Hg & Hgl).
  destruct (find_maxdiff_spec FLINT_BITS a_len (c_ind F) (c_ind G) m fl gl
              Hf Hg Hfl Hgl) as (d & Hfind & _).
  apply bind_val_inv in Hrun as (s & m1 & Hfind' & Hrun).
  rewrite Hfind in Hfind'. injection Hfind' as <- <-.
  cbv beta iota in Hrun.
  apply bind_val_inv in Hrun as (p & m2 & Hpivot & Hrun).
  (* the pivot is the last row *)
  assert (Hlast : p = Some (a_len - 1)
                  /\ exists f hl hl',
                      zget fl (a_len - 1) = Some f
                      /\ m_ind m (c_ind H) = Some hl
                      /\ zset hl (a_len - 1) f = Some hl'
                      /\ m2 = adopted FLINT_BITS N H m (a_len - 1) f hl').
  { unfold choose_pivot in Hpivot.
    destruct (d =? 0) eqn:E0.
    { unfold ret in Hpivot. injection Hpivot as <- <-. discriminate. }
    destruct (d =? 1) eqn:E1.
    2:{ apply Z.eqb_neq in E0, E1.
        fold (choose_pivot FLINT_BITS a_len N F G H d (-1)) in Hpivot.
        unfold choose_pivot in Hpivot.
        replace (d =? 0) with false in Hpivot by (symmetry; apply Z.eqb_neq; exact E0).
        replace (d =? 1) with false in Hpivot by (symmetry; apply Z.eqb_neq; exact E1).
        apply bind_val_inv in Hpivot as (g & mx & Hld & _).
        rewrite load_ind_negative in Hld by lia. discriminate. }
    apply bind_val_inv in Hpivot as (mi & mx & Hscan & Hpivot).
    pose proof (scan_at_head FLINT_BITS a_len b_len N F G H m Hd) as Hat.
    destruct (existsb (column_missing m b_len F G) (rows a_len)).
    { rewrite Hat in Hscan. discriminate. }
    destruct Hat as (m'' & Hscan' & _ & Hsome).
    rewrite Hscan' in Hscan. injection Hscan as <- <-.
    destruct (first_differing FLINT_BITS m a_len N F G) as [i |].
    2:{ unfold ret in Hpivot. cbn in Hpivot. injection Hpivot as <- <-. discriminate. }
    destruct (Hsome i eq_refl) as (-> & fl' & f & hl & hl' & Hf' & Ef & Hh & Eset & ->).
    rewrite Hf in Hf'. injection Hf' as <-.
    cbn [row_or_none] in Hpivot.
    replace (a_len - 1 =? -1) with false in Hpivot
      by (symmetry; apply Z.eqb_neq; lia).
    unfold ret in Hpivot. injection Hpivot as <- <-.
    split; [reflexivity |]. exists f, hl, hl'. repeat split; assumption. }
  destruct Hlast as (-> & f & hl & hl' & Ef & Hh & Eset & ->).
  (* what holds of the frontiers after the pass of lines 108-121 *)
  assert (L0 : left_inv a_len b_len N F H (a_len - 1)
                 (adopted FLINT_BITS N H m (a_len - 1) f hl')).
  { unfold adopted. constructor.
    - destruct (set_exp_inputs
                  (set_ind (set_exp m Etemp (Some (product FLINT_BITS m N (a_len - 1) f)))
                           (c_ind H) (Some hl'))
                  (c_exp H) (Some (product FLINT_BITS m N (a_len - 1) f))) as [_ ->].
      destruct (set_ind_inputs
                  (set_exp m Etemp (Some (product FLINT_BITS m N (a_len - 1) f)))
                  (c_ind H) (Some hl')) as [_ ->].
      destruct (set_exp_inputs m Etemp
                  (Some (product FLINT_BITS m N (a_len - 1) f))) as [_ ->].
      exact hi_b0.
    - intros fl'. rewrite m_ind_set_exp.
      destruct (ibuf_eq_dec (c_ind H) (c_ind F)) as [E | E].
      + rewrite <- E, m_ind_set_same. intros Hfl'. injection Hfl' as <-.
        rewrite <- E in Hf. rewrite Hh in Hf. injection Hf as ->.
        intros r v Hr1 Hr2 Hv.
        rewrite (zget_zset_other _ _ _ _ _ Eset) in Hv by lia.
        rewrite E in Hh. exact (hi_tall0 _ Hh r v Hr1 Hr2 Hv).
      + rewrite m_ind_set_other by exact E. rewrite m_ind_set_exp.
        apply hi_tall0.
    - intros hl'' _ r v Hr1 Hr2 _. lia. }
  cbv beta iota in Hrun.
  (* lines 136-144 *)
  apply bind_val_inv in Hrun as (hm & m3 & L1 & Hrun).
  apply load_ind_inv in L1 as [-> _].
  apply bind_val_inv in Hrun as (u & m3 & Hadd & Hrun).
  apply monomial_add_frame in Hadd as [Hind3 Hb3].
  pose proof (left_inv_same _ _ _ Hind3 Hb3 L0) as L3. clear L0.
  apply bind_val_inv in Hrun as (lt1 & m4 & Hlt & Hrun).
  apply monomial_lt_inv in Hlt. subst m4.
  apply bind_val_inv in Hrun as (u1 & m4 & Has & Hrun).
  apply assert_inv in Has as [_ ->].
  apply bind_val_inv in Hrun as (lt2 & m4 & Hlt & Hrun).
  apply monomial_lt_inv in Hlt. subst m4.
  apply bind_val_inv in Hrun as (u2 & m4 & Has & Hrun).
  apply assert_inv in Has as [_ ->].
  apply bind_val_inv in Hrun as (gm & m4 & L4 & Hrun).
  apply load_ind_inv in L4 as [-> _].
  apply bind_val_inv in Hrun as (hm' & m4 & L5 & Hrun).
  apply load_ind_inv in L5 as [-> _].
  cbv zeta in Hrun.
  (* no row is to the right of the last *)
  apply bind_val_inv in Hrun as (hs1 & m4 & Hright & Hrun).
  unfold path_right, fold_up in Hright.
  replace (a_len - 1 + 1) with a_len in Hright by lia.
  rewrite (slong_wrap_small FLINT_BITS a_len) in Hright by (try assumption; lia).
  rewrite Z.sub_diag in Hright. cbn [Z.to_nat fold_count] in Hright.
  unfold ret in Hright. injection Hright as <- <-.
  (* the rows to the left *)
  apply bind_val_inv in Hrun as (hs2 & m5 & Hleft & Hrun).
  unfold path_left, fold_down in Hleft.
  rewrite (slong_wrap_small FLINT_BITS (a_len - 1 - 1)) in Hleft
    by (try assumption; lia).
  apply (fold_down_count_inv
           (fun k (_ : Z) mc => left_inv a_len b_len N F H (k + 1) mc)) in Hleft.
  2:{ intros k t mc t' mc' Hk Lk Hbody.
      replace (k - 1 + 1) with k by lia.
      apply (path_left_row maskhi masklo k t mc t' mc'); [assumption | lia | exact Lk |].
      exact Hbody. }
  2:{ replace (a_len - 1 - 1 + 1) with (a_len - 1) by lia. exact L3. }
  replace (a_len - 1 - 1 - Z.of_nat (Z.to_nat (a_len - 1 - 1 + 1)) + 1) with 0
    in Hleft by lia.
  destruct Hleft as [_ Lf Lh].
  (* lines 183-192 *)
  unfold ret in Hrun. injection Hrun as Hrep <-.
  assert (Hcases : (F' = F \/ (c_ind F' = c_ind H /\ c_exp F' = c_exp H))
                   /\ (G' = G \/ c_exp G' = c_exp H) /\ H' = G).
  { unfold replace in Hrep. destruct (hs2 <=? upper); injection Hrep as <- <- <-.
    - split; [left; reflexivity |]. split; [right |]; reflexivity.
    - split; [right; split; reflexivity |]. split; [left |]; reflexivity. }
  destruct Hcases as (HF & HG & ->).
  constructor; try assumption.
  - rewrite Hka. exact hi_a0.
  - rewrite Hkb. exact hi_b0.
  - destruct HF as [-> | [-> _]]; assumption.
  - destruct HF as [-> | [_ ->]]; assumption.
  - destruct HG as [-> | ->]; assumption.
Qed.

End HeadKept.

Section HeadReached.

Variable FLINT_BITS : Z.
Variable less_than : list Z -> list Z -> Z -> Z -> Z -> bool.

(** Lines 53-75 establish what holds at the head of the loop. *)
Lemma after_init_head junk lower upper a_len b_len N m :
  valid_call FLINT_BITS junk lower upper a_len b_len N m ->
  head_inv FLINT_BITS a_len b_len N (F0 FLINT_BITS a_len b_len) G0 H0
           (after_init FLINT_BITS junk a_len b_len N m).
Proof.
  intros V. destruct V. constructor; try assumption; try discriminate.
  - split.
    + intros [| |]; cbn; eexists; (split; [reflexivity |]); try assumption.
      rewrite length_app, repeat_length. cbn. lia.
    + intros [| | |]; cbn; eexists; (split; [reflexivity |]); try assumption.
      * apply (product_length FLINT_BITS m a_len b_len); try assumption; lia.
      * rewrite repeat_length. lia.
  - cbn. intros fl Hfl. injection Hfl as <-. intros i v Hi Hlow Hv.
    unfold zget in Hv. destruct (in_block _ i); [| discriminate].
    rewrite nth_error_app1 in Hv by (rewrite repeat_length; lia).
    apply nth_error_In, repeat_spec in Hv. lia.
Qed.

(** Every state at the head of the loop of a valid call has it. *)
Lemma loop_head_inv junk lower upper a_len b_len N maskhi masklo m0 F G H m :
  valid_call FLINT_BITS junk lower upper a_len b_len N m0 ->
  loop_head FLINT_BITS less_than junk lower upper a_len b_len N maskhi masklo
            m0 F G H m ->
  head_inv FLINT_BITS a_len b_len N F G H m.
Proof.
  intros V Hh. induction Hh as [| F G H m F' G' H' m' _ IH _ Hbody].
  - apply (after_init_head junk lower upper). exact V.
  - exact (loop_body_keeps_head FLINT_BITS less_than a_len b_len N F G H
             upper maskhi masklo m F' G' H' m' IH Hbody).
Qed.

(** The main loop ends in such a state. *)
Lemma main_loop_ends_at_head junk lower upper a_len b_len N maskhi masklo m0 fuel :
  forall F G H m F' G' H' m',
  loop_head FLINT_BITS less_than junk lower upper a_len b_len N maskhi masklo
            m0 F G H m ->
  main_loop FLINT_BITS less_than fuel lower upper a_len N maskhi masklo F G H m
  = (Val (F', G', H'), m') ->
  loop_head FLINT_BITS less_than junk lower upper a_len b_len N maskhi masklo
            m0 F' G' H' m'
  \/ exists F1 G1 H1 m1,
      loop_head FLINT_BITS less_than junk lower upper a_len b_len N maskhi masklo
                m0 F1 G1 H1 m1
      /\ loop_body FLINT_BITS less_than upper a_len N maskhi masklo F1 G1 H1 m1
         = (Val Break, m')
      /\ (F', G', H') = (F1, G1, H1).
Proof.
  induction fuel as [| fuel IH]; intros F G H m F' G' H' m' Hh Hrun;
    cbn [main_loop] in Hrun;
    destruct ((c_score G <? lower) && (upper <? c_score F)) eqn:Eg.
  - discriminate.
  - unfold ret in Hrun. injection Hrun as <- <- <- <-. left. exact Hh.
  - apply bind_val_inv in Hrun as (s & m1 & Hbody & Hrun).
    destruct s as [| F1 G1 H1].
    + unfold ret in Hrun. injection Hrun as <- <- <- <-. right.
      exists F, G, H, m. repeat split; assumption.
    + apply (IH F1 G1 H1 m1); [| exact Hrun].
      exact (head_next _ _ _ _ _ _ _ _ _ _ _ _ _ _ _ _ _ _ _ Hh Eg Hbody).
  - unfold ret in Hrun. injection Hrun as <- <- <- <-. left. exact Hh.
Qed.

End HeadReached.

Section GapOne.

Variable FLINT_BITS : Z.
Variable less_than : list Z -> list Z -> Z -> Z -> Z -> bool.

Lemma last_differing_row m a_len N F G p :
  last_differing FLINT_BITS m a_len N F G = Some p -> 0 <= p < a_len.
Proof.
  unfold last_differing. intros Hp. apply find_some in Hp as [Hin _].
  apply in_rev, in_rows in Hin. exact Hin.
Qed.




End GapOne.

Lemma example_gap_one : is_max_gap 64 [2; 2; 1] [2; 2; 2] 3 1.
Proof.
  split; [lia |]. split.
  - intros i g f Hi Hg Hf.
    pose proof (zget_Some_range _ _ _ Hf) as Hr. cbn in Hr.
    assert (Hcases : i = 0 \/ i = 1 \/ i = 2) by lia.
    destruct Hcases as [-> | [-> | ->]];
      vm_compute in Hf, Hg; injection Hf as <-; injection Hg as <-;
      vm_compute; discriminate.
  - right. exists 2, 2, 1. repeat split; lia.
Qed.

Lemma example_valid_call g lower upper :
  length g = 3%nat -> lower <= upper ->
  - 2 ^ 63 <= lower <= 2 ^ 63 - 1 -> - 2 ^ 63 <= upper <= 2 ^ 63 - 1 ->
  valid_call 64 (example_junk g) lower upper 3 2 1 example_mem.
Proof.
  intros Hg Hr Hl Hu.
  constructor;
    cbn [example_junk j_find j_gind j_hind j_fexp j_gexp j_hexp j_temp];
    rewrite ?Hg; unfold slong_min, slong_max;
    change (2 ^ (64 - 1)) with 9223372036854775808;
    change (2 ^ 63) with 9223372036854775808 in Hl, Hu;
    try reflexivity; lia.
Qed.


(** ** The worked example with [lower = upper = 3] *)

Section WorkedExample.

Variables g0 g1 g2 : Z.

Abbreviation m1 := (example_after_init g0 g1 g2).

Lemma example_row0 s :
  scan_gap1_row 64 1 (F0 64 3 2) G0 H0 0 s m1
  = if g0 >? 2 then (Err OutOfBounds, m1) else (Val s, m1).
Proof.
  unfold scan_gap1_row.
  erewrite bind_val by reflexivity. erewrite bind_val by reflexivity.
  destruct (g0 >? 2); reflexivity.
Qed.

Lemma example_row1 s :
  scan_gap1_row 64 1 (F0 64 3 2) G0 H0 1 s m1
  = if g1 >? 2 then (Err OutOfBounds, m1) else (Val s, m1).
Proof.
  unfold scan_gap1_row.
  erewrite bind_val by reflexivity. erewrite bind_val by reflexivity.
  destruct (g1 >? 2); reflexivity.
Qed.

Lemma example_row2 s :
  scan_gap1_row 64 1 (F0 64 3 2) G0 H0 2 s m1
  = if g2 >? 1
    then (Val 2, mkmem [5; 3; 1] [4; 2] [0] 0
                       (Some [2; 2; 1]) (Some [g0; g1; g2]) (Some [0; 0; 1])
                       (Some [9]) (Some [0]) (Some [3]) (Some [3]))
    else (Val s, m1).
Proof.
  unfold scan_gap1_row.
  erewrite bind_val by reflexivity. erewrite bind_val by reflexivity.
  change (2 - 1) with 1.
  destruct (g2 >? 1); reflexivity.
Qed.

Lemma example_scan :
  fold_count 3 0 (scan_gap1_row 64 1 (F0 64 3 2) G0 H0) (-1) m1
  = if g0 >? 2 then (Err OutOfBounds, m1)
    else if g1 >? 2 then (Err OutOfBounds, m1)
    else if g2 >? 1
    then (Val 2, mkmem [5; 3; 1] [4; 2] [0] 0
                       (Some [2; 2; 1]) (Some [g0; g1; g2]) (Some [0; 0; 1])
                       (Some [9]) (Some [0]) (Some [3]) (Some [3]))
    else (Val (-1), m1).
Proof.
  cbn [fold_count]. unfold bind at 1. rewrite example_row0.
  destruct (g0 >? 2); [reflexivity |].
  unfold bind at 1. change (0 + 1) with 1. rewrite example_row1.
  destruct (g1 >? 2); [reflexivity |].
  unfold bind at 1. change (1 + 1) with 2. rewrite example_row2.
  destruct (g2 >? 1); reflexivity.
Qed.

(** The first pass through the body of the loop either stops in a fault or
    ends in a [break] with the memory as it was. *)
Lemma first_iteration_on_example :
  match loop_body 64 less_than_deg 3 3 1 0 0 (F0 64 3 2) G0 H0 m1 with
  | (Err _, _) => True
  | (Val s, m') => s = Break /\ m' = m1
  end.
Proof.
  unfold loop_body.
  destruct (find_maxdiff_spec 64 3 Ifind Igind m1 [2; 2; 1] [g0; g1; g2])
    as (d & Hd & _); try reflexivity.
  change (c_ind (F0 64 3 2)) with Ifind. change (c_ind G0) with Igind.
  erewrite bind_val by exact Hd. cbv beta iota.
  destruct (Z.eq_dec d 0) as [-> | Hd0]; [split; reflexivity |].
  destruct (Z.eq_dec d 1) as [-> | Hd1].
  2:{ erewrite bind_err; [exact I |]. apply choose_pivot_no_row; assumption. }
  unfold choose_pivot. cbn [Z.eqb Pos.eqb].
  unfold scan_gap1, fold_up.
  change (Z.to_nat (3 - 0)) with 3%nat.
  unfold bind at 1 2. rewrite example_scan.
  destruct (g0 >? 2); [exact I |].
  destruct (g1 >? 2); [exact I |].
  destruct (g2 >? 1); [exact I | split; reflexivity].
Qed.

End WorkedExample.

Lemma worked_example_scores :
  map (score 64 less_than_deg example_mem 3 2 1 0 0) [[9]; [7]; [5]; [3]; [0]]
  = [6; 5; 3; 1; 0].
Proof. reflexivity. Qed.

(** Under the degree order no first pass completes: whatever the fresh
    [gind] block holds and whatever the iteration budget, the call either
    stops in a fault or returns the zero monomial with score 1. *)
Lemma worked_example_outcome fuel g0 g1 g2 :
  let r := example_call fuel [g0; g1; g2] 3 3 in
  (exists f, fst r = Err f)
  \/ (fst r = Val tt /\ m_e (snd r) = [0] /\ m_e_score (snd r) = 1).
Proof.
  intros r. subst r. unfold example_call, fmpz_mpoly_search_monomials.
  do 3 (erewrite (bind_val (assert _)) by reflexivity).
  erewrite (bind_val (init _ _ _ _ _))
    with (x := (F0 64 3 2, G0, H0)) (m' := example_after_init g0 g1 g2)
    by reflexivity.
  cbv beta iota.
  change (c_score (F0 64 3 2) =? c_score G0) with false. cbv iota.
  destruct fuel as [| fuel]; [left; eexists; reflexivity |].
  cbn [main_loop].
  change (monomial_words 64 64 1) with 1.
  change ((c_score G0 <? 3) && (3 <? c_score (F0 64 3 2))) with true. cbv iota.
  change (after_init 64 (example_junk [g0; g1; g2]) 3 2 1 example_mem)
    with (example_after_init g0 g1 g2).
  pose proof (first_iteration_on_example g0 g1 g2) as Hfirst.
  destruct (loop_body 64 less_than_deg 3 3 1 0 0 (F0 64 3 2) G0 H0
              (example_after_init g0 g1 g2)) as [[s | f] m'] eqn:Hbody.
  - destruct Hfirst as [-> ->]. right.
    erewrite bind_val.
    2:{ erewrite bind_val by exact Hbody. reflexivity. }
    repeat split; reflexivity.
  - left. exists f.
    erewrite bind_err; [reflexivity |].
    erewrite bind_err; [reflexivity |]. exact Hbody.
Qed.

(** ** The worked example under any order *)

Section WorkedExampleAnyOrder.

Variable less_than : list Z -> list Z -> Z -> Z -> Z -> bool.
Variables g0 g1 g2 : Z.

Abbreviation m1 := (example_after_init g0 g1 g2).
Abbreviation m3 := (example_after_pass g0 g1 g2).
Abbreviation m2 :=
  (mkmem [5; 3; 1] [4; 2] [0] 0
         (Some [2; 2; 1]) (Some [g0; g1; g2]) (Some [0; 0; 1])
         (Some [9]) (Some [0]) (Some [3]) (Some [3])).

(** Lines 167-180 after row 2 was adopted with column 1. *)
Lemma example_path_left hs :
  (g0 >? 2) = false -> (g1 >? 2) = false ->
  path_left 64 less_than 1 0 0 (F0 64 3 2) G0 H0 2 hs m2
  = (Val (slong_wrap 64 (slong_wrap 64 (hs + slong_wrap 64 (g1 - 2))
                         + slong_wrap 64 (g0 - 2))), m3).
Proof.
  intros E0 E1.
  assert (H0' : Z.to_nat (g0 - 2) = 0%nat)
    by (rewrite Z.gtb_ltb in E0; apply Z.ltb_ge in E0; lia).
  assert (H1' : Z.to_nat (g1 - 2) = 0%nat)
    by (rewrite Z.gtb_ltb in E1; apply Z.ltb_ge in E1; lia).
  unfold path_left, fold_down.
  change (slong_wrap 64 (2 - 1)) with 1.
  change (Z.to_nat (1 + 1)) with 2%nat. cbn [fold_down_count].
  erewrite bind_val.
  2:{ erewrite bind_val by reflexivity.
      erewrite bind_val by reflexivity. cbv zeta.
      erewrite bind_val by reflexivity.
      change (FLINT_MAX 1 2) with 2. rewrite H1'. cbn [inner_left].
      erewrite bind_val by reflexivity.
      erewrite bind_val by reflexivity.
      erewrite bind_val by reflexivity.
      erewrite bind_val by reflexivity. reflexivity. }
  change (1 - 1) with 0.
  erewrite bind_val.
  2:{ erewrite bind_val by reflexivity.
      erewrite bind_val by reflexivity. cbv zeta.
      erewrite bind_val by reflexivity.
      change (FLINT_MAX 2 2) with 2. rewrite H0'. cbn [inner_left].
      erewrite bind_val by reflexivity.
      erewrite bind_val by reflexivity.
      erewrite bind_val by reflexivity.
      erewrite bind_val by reflexivity. reflexivity. }
  reflexivity.
Qed.

(** The first pass through the body of the loop: a fault, a [break] with
    the memory as it was, or row 2 is adopted and h gets f's frontier. *)
Lemma example_first_pass :
  match loop_body 64 less_than 3 3 1 0 0 (F0 64 3 2) G0 H0 m1 with
  | (Err _, _) => True
  | (Val Break, m') => m' = m1
  | (Val (Next F G H), m') =>
      Next F G H = replace 3 (F0 64 3 2) G0 H0 (example_hscore g0 g1 g2)
      /\ m' = m3
      /\ (g0 >? 2) = false /\ (g1 >? 2) = false /\ (g2 >? 1) = true
  end.
Proof.
  unfold loop_body.
  destruct (find_maxdiff_spec 64 3 Ifind Igind m1 [2; 2; 1] [g0; g1; g2])
    as (d & Hd & _); try reflexivity.
  change (c_ind (F0 64 3 2)) with Ifind. change (c_ind G0) with Igind.
  erewrite bind_val by exact Hd. cbv beta iota.
  destruct (Z.eq_dec d 0) as [-> | Hd0]; [reflexivity |].
  destruct (Z.eq_dec d 1) as [-> | Hd1].
  2:{ erewrite bind_err; [exact I |]. apply choose_pivot_no_row; assumption. }
  unfold choose_pivot. cbn [Z.eqb Pos.eqb].
  unfold scan_gap1, fold_up.
  change (Z.to_nat (3 - 0)) with 3%nat.
  unfold bind at 1 2. rewrite example_scan.
  destruct (g0 >? 2) eqn:E0; [exact I |].
  destruct (g1 >? 2) eqn:E1; [exact I |].
  destruct (g2 >? 1) eqn:E2; [| reflexivity].
  change (2 =? -1) with false. cbv iota. unfold ret at 1. cbv beta iota.
  erewrite bind_val with (x := 1) (m' := m2) by reflexivity.
  erewrite bind_val with (x := tt) (m' := m2) by reflexivity.
  erewrite bind_val with (x := less_than [9] [3] 1 0 0) (m' := m2) by reflexivity.
  destruct (less_than [9] [3] 1 0 0); [| exact I].
  erewrite bind_val with (x := tt) (m' := m2) by reflexivity.
  erewrite bind_val with (x := less_than [3] [0] 1 0 0) (m' := m2) by reflexivity.
  destruct (less_than [3] [0] 1 0 0); [| exact I].
  erewrite bind_val with (x := tt) (m' := m2) by reflexivity.
  erewrite bind_val with (x := g2) (m' := m2) by reflexivity.
  erewrite bind_val with (x := 1) (m' := m2) by reflexivity.
  cbv zeta.
  erewrite bind_val
    with (x := slong_wrap 64 (slong_wrap 64 (1 + g2) - 1)) (m' := m2)
    by reflexivity.
  erewrite bind_val by (apply example_path_left; assumption).
  unfold ret, replace, example_hscore.
  match goal with |- context [?h <=? 3] => destruct (h <=? 3) end;
    repeat split.
Qed.

(** A second pass after h replaced g: f's and g's frontiers are the same. *)
Lemma example_second_pass_g hs :
  loop_body 64 less_than 3 3 1 0 0 (F0 64 3 2) (mkcand Ihind Ehexp hs) G0 m3
  = (Val Break, m3).
Proof. reflexivity. Qed.

(** A second pass after h replaced f: the only cell compared is f's
    monomial, and no pass completes. *)
Lemma example_second_pass_f hs :
  (g0 >? 2) = false -> (g1 >? 2) = false -> (g2 >? 1) = true ->
  match loop_body 64 less_than 3 3 1 0 0 (mkcand Ihind Ehexp hs) G0 G0 m3 with
  | (Err _, _) => True
  | (Val Break, m') => m' = m3
  | (Val (Next _ _ _), _) => False
  end.
Proof.
  intros E0 E1 E2. unfold loop_body.
  destruct (find_maxdiff_spec 64 3 Ihind Igind m3 [2; 2; 1] [g0; g1; g2])
    as (d & Hd & _); try reflexivity.
  cbn [c_ind]. erewrite bind_val by exact Hd. cbv beta iota.
  destruct (Z.eq_dec d 0) as [-> | Hd0]; [reflexivity |].
  destruct (Z.eq_dec d 1) as [-> | Hd1].
  2:{ erewrite bind_err; [exact I |]. apply choose_pivot_no_row; assumption. }
  unfold choose_pivot. cbn [Z.eqb Pos.eqb].
  erewrite bind_val with (x := @None Z) (m' := m3); [reflexivity |].
  erewrite bind_val with (x := -1) (m' := m3); [reflexivity |].
  unfold scan_gap1, fold_up. change (Z.to_nat (3 - 0)) with 3%nat.
  cbn [fold_count].
  erewrite bind_val with (x := -1) (m' := m3).
  2:{ unfold scan_gap1_row. cbn [c_ind c_exp].
      erewrite bind_val with (x := g0) (m' := m3) by reflexivity.
      erewrite bind_val with (x := 2) (m' := m3) by reflexivity.
      rewrite E0. reflexivity. }
  erewrite bind_val with (x := -1) (m' := m3).
  2:{ unfold scan_gap1_row. cbn [c_ind c_exp].
      erewrite bind_val with (x := g1) (m' := m3) by reflexivity.
      erewrite bind_val with (x := 2) (m' := m3) by reflexivity.
      rewrite E1. reflexivity. }
  erewrite bind_val with (x := -1) (m' := m3); [reflexivity |].
  unfold scan_gap1_row. cbn [c_ind c_exp].
  erewrite bind_val with (x := g2) (m' := m3) by reflexivity.
  erewrite bind_val with (x := 1) (m' := m3) by reflexivity.
  rewrite E2.
  erewrite bind_val with (x := tt) (m' := m3) by reflexivity.
  erewrite bind_val with (x := true) (m' := m3) by reflexivity.
  reflexivity.
Qed.

(** What the call can yield: a fault, or one of three results. *)
Lemma worked_example_outcomes fuel :
  let r := example_call_under less_than fuel [g0; g1; g2] 3 3 in
  (exists f, fst r = Err f)
  \/ (fst r = Val tt
      /\ ((m_e (snd r) = [0] /\ m_e_score (snd r) = 1)
          \/ (m_e (snd r) = [9] /\ m_e_score (snd r) = 6)
          \/ (m_e (snd r) = [3] /\ m_e_score (snd r) <= 3))).
Proof.
  intros r. subst r. unfold example_call_under, fmpz_mpoly_search_monomials.
  do 3 (erewrite (bind_val (assert _)) by reflexivity).
  erewrite (bind_val (init _ _ _ _ _))
    with (x := (F0 64 3 2, G0, H0)) (m' := m1) by reflexivity.
  cbv beta iota.
  change (c_score (F0 64 3 2) =? c_score G0) with false. cbv iota.
  change (monomial_words 64 64 1) with 1.
  destruct fuel as [| fuel]; [left; eexists; reflexivity |].
  cbn [main_loop].
  change ((c_score G0 <? 3) && (3 <? c_score (F0 64 3 2))) with true. cbv iota.
  pose proof example_first_pass as Hfirst.
  destruct (loop_body 64 less_than 3 3 1 0 0 (F0 64 3 2) G0 H0 m1)
    as [[[| F G H] | f] m'] eqn:Hbody.
  - (* a break in the first pass *)
    subst m'. right.
    erewrite bind_val.
    2:{ erewrite bind_val by exact Hbody. reflexivity. }
    split; [reflexivity |]. left. split; reflexivity.
  - destruct Hfirst as (Hnext & -> & E0 & E1 & E2).
    generalize dependent (example_hscore g0 g1 g2). intros hs Hnext.
    unfold replace in Hnext.
    destruct (hs <=? 3) eqn:Ehs; injection Hnext as -> -> ->.
    + (* h replaced g *)
      apply Z.leb_le in Ehs.
      destruct (hs <? 3) eqn:Elt.
      * (* a second pass *)
        apply Z.ltb_lt in Elt.
        destruct fuel as [| fuel].
        { left. eexists.
          erewrite bind_err; [reflexivity |].
          erewrite bind_val by exact Hbody.
          cbn [main_loop c_score].
          replace (hs <? 3) with true by (symmetry; apply Z.ltb_lt; lia).
          reflexivity. }
        right.
        erewrite bind_val
          with (x := (F0 64 3 2, mkcand Ihind Ehexp hs, G0)) (m' := m3).
        2:{ erewrite bind_val by exact Hbody.
            cbn [main_loop c_score].
            replace (hs <? 3) with true by (symmetry; apply Z.ltb_lt; lia).
            change (3 <? c_score (F0 64 3 2)) with true. cbn [andb]. cbv iota.
            erewrite bind_val by apply example_second_pass_g. reflexivity. }
        cbv beta iota. unfold final_selection, final_choice. cbn [c_score].
        change (c_score (F0 64 3 2)) with 6.
        change (6 <=? 3) with false. cbv iota.
        replace (hs >=? 3) with false
          by (symmetry; rewrite Z.geb_leb; apply Z.leb_gt; lia).
        change (slong_wrap 64 (6 - 3)) with 3.
        destruct (3 <? slong_wrap 64 (3 - hs)).
        { split; [reflexivity |]. right. left. split; reflexivity. }
        split; [reflexivity |]. right. right. split; [reflexivity |].
        change (hs <= 3). exact Ehs.
      * (* the loop ends *)
        apply Z.ltb_ge in Elt. assert (hs = 3) by lia. subst hs.
        right.
        erewrite bind_val
          with (x := (F0 64 3 2, mkcand Ihind Ehexp 3, G0)) (m' := m3).
        2:{ erewrite bind_val by exact Hbody. destruct fuel; reflexivity. }
        split; [reflexivity |]. right. right. split; [reflexivity |].
        change (3 <= 3). lia.
    + (* h replaced f *)
      apply Z.leb_gt in Ehs. left.
      destruct fuel as [| fuel].
      { eexists.
        erewrite bind_err; [reflexivity |].
        erewrite bind_val by exact Hbody.
        cbn [main_loop c_score].
        replace (3 <? hs) with true by (symmetry; apply Z.ltb_lt; lia).
        reflexivity. }
      pose proof (example_second_pass_f hs E0 E1 E2) as Hsecond.
      destruct (loop_body 64 less_than 3 3 1 0 0 (mkcand Ihind Ehexp hs) G0 G0 m3)
        as [[[| F G H] | f] m''] eqn:Hbody2; [subst m'' | contradiction |].
      * exists DoubleFree.
        erewrite bind_val
          with (x := (mkcand Ihind Ehexp hs, G0, G0)) (m' := m3).
        2:{ erewrite bind_val by exact Hbody.
            cbn [main_loop c_score].
            replace (3 <? hs) with true by (symmetry; apply Z.ltb_lt; lia).
            change (c_score G0 <? 3) with true. cbn [andb]. cbv iota.
            erewrite bind_val by exact Hbody2. reflexivity. }
        cbv beta iota. unfold final_selection.
        destruct (final_choice 64 3 3 (c_score (mkcand Ihind Ehexp hs)) (c_score G0));
          reflexivity.
      * exists f.
        erewrite bind_err; [reflexivity |].
        erewrite bind_val by exact Hbody.
        cbn [main_loop c_score].
        replace (3 <? hs) with true by (symmetry; apply Z.ltb_lt; lia).
        change (c_score G0 <? 3) with true. cbn [andb]. cbv iota.
        erewrite bind_err; [reflexivity | exact Hbody2].
  - left. exists f.
    erewrite bind_err; [reflexivity |].
    erewrite bind_err; [reflexivity |]. exact Hbody.
Qed.

End WorkedExampleAnyOrder.

(** C9, as amended: on [A = [5, 3, 1]], [B = [4, 2]] with
    [lower = upper = 3] the call does not return the monomial 3 with score
    6, whatever the order, the iteration budget and the contents of the
    fresh [gind] block: by the score of the routine's header comment the
    monomial 3, the smallest product, has score 1, and score 6 is that of
    9, the largest. *)
Theorem worked_example_not_min_with_six less_than fuel g0 g1 g2 :
  let r := example_call_under less_than fuel [g0; g1; g2] 3 3 in
  score 64 less_than_deg example_mem 3 2 1 0 0 [3] = 1
  /\ score 64 less_than_deg example_mem 3 2 1 0 0 [9] = 6
  /\ ~ (fst r = Val tt /\ m_e (snd r) = [3] /\ m_e_score (snd r) = 6).
Proof.
  intros r. split; [reflexivity |]. split; [reflexivity |].
  intros (Hv & He & Hs).
  pose proof (worked_example_outcomes less_than g0 g1 g2 fuel) as Ho.
  cbv zeta in Ho. fold r in Ho.
  destruct Ho as [[f Hf] | (_ & [[He' _] | [[He' _] | [_ Hs']]])].
  - rewrite Hv in Hf. discriminate.
  - rewrite He in He'. discriminate.
  - rewrite He in He'. discriminate.
  - lia.
Qed.

(** C9 as stated fails.  Under the degree order, with a fresh [gind] block
    that reads [2, 2, 1], f's frontier, the first pass ends in the [break]
    of line 103 and the call returns the zero monomial with score 1; under
    the reverse of that order, with a fresh [gind] block that reads
    [2, 2, 2], the call returns the monomial 3 with score 2.  The score of
    the monomial 3 is 1. *)
Lemma worked_example_counterexample :
  let r := example_call 1 [2; 2; 1] 3 3 in
  let r' := example_call_under
              (fun x y N maskhi masklo => less_than_deg y x N maskhi masklo)
              2 [2; 2; 2] 3 3 in
  fst r = Val tt /\ m_e (snd r) = [0] /\ m_e_score (snd r) = 1
  /\ fst r' = Val tt /\ m_e (snd r') = [3] /\ m_e_score (snd r') = 2
  /\ score 64 less_than_deg example_mem 3 2 1 0 0 [3] = 1.
Proof. vm_compute. repeat split; reflexivity. Qed.

(** * Further properties of the routine *)

(** ** The preconditions and the word count *)

Section Entry.

Variable FLINT_BITS : Z.
Variable less_than : list Z -> list Z -> Z -> Z -> Z -> bool.

(** Lines 48-50: a call with [a_len <= 0], [b_len <= 0] or [lower > upper]
    stops in a failed [assert] before anything is allocated or written. *)
Theorem precondition_violation_asserts fuel junk lower upper a_len b_len
        ab_bits ab_elems maskhi masklo m :
  a_len <= 0 \/ b_len <= 0 \/ upper < lower ->
  fmpz_mpoly_search_monomials FLINT_BITS less_than fuel junk lower upper
    a_len b_len ab_bits ab_elems maskhi masklo m
  = (Err AssertFailed, m).
Proof.
  intros Hbad. unfold fmpz_mpoly_search_monomials.
  destruct (a_len >? 0) eqn:Ea; [| reflexivity].
  destruct (b_len >? 0) eqn:Eb; [| reflexivity].
  destruct (lower <=? upper) eqn:Er; [| reflexivity].
  apply Z.gtb_lt in Ea, Eb. apply Z.leb_le in Er. lia.
Qed.

(** Line 51: for a packing of [ab_bits * ab_elems] bits that is a
    non-negative [slong], [N] is at least 1 and is the least number of
    words that hold the bits. *)
Theorem monomial_words_least ab_bits ab_elems :
  1 < FLINT_BITS ->
  0 <= ab_bits * ab_elems <= slong_max FLINT_BITS ->
  let N := monomial_words FLINT_BITS ab_bits ab_elems in
  1 <= N
  /\ ab_bits * ab_elems <= FLINT_BITS * N
  /\ (0 < ab_bits * ab_elems -> FLINT_BITS * (N - 1) < ab_bits * ab_elems).
Proof.
  intros Hb Hx N. subst N. unfold monomial_words.
  set (x := ab_bits * ab_elems) in *.
  assert (Hpow : 2 <= 2 ^ (FLINT_BITS - 1)).
  { change 2 with (2 ^ 1) at 1. apply Z.pow_le_mono_r; lia. }
  assert (Hmin : slong_min FLINT_BITS <= -2) by (unfold slong_min; lia).
  assert (Hmax : slong_max FLINT_BITS = 2 ^ (FLINT_BITS - 1) - 1) by reflexivity.
  rewrite (slong_wrap_small FLINT_BITS x) by lia.
  rewrite (slong_wrap_small FLINT_BITS (x - 1)) by lia.
  destruct (Z.eq_dec x 0) as [-> | Hpos].
  - change (0 - 1) with (-1).
    assert (Hq : Z.quot (-1) FLINT_BITS = 0) by (apply Z.quot_small_iff; lia).
    rewrite Hq. rewrite slong_wrap_small by lia. lia.
  - assert (Hq : Z.quot (x - 1) FLINT_BITS = (x - 1) / FLINT_BITS)
      by (apply Z.quot_div_nonneg; lia).
    rewrite Hq.
    pose proof (Z.div_mod (x - 1) FLINT_BITS ltac:(lia)) as Hdm.
    pose proof (Z.mod_pos_bound (x - 1) FLINT_BITS ltac:(lia)) as Hmb.
    assert (0 <= (x - 1) / FLINT_BITS) by (apply Z.div_pos; lia).
    assert ((x - 1) / FLINT_BITS <= x - 1) by (apply Z.div_le_upper_bound; nia).
    rewrite slong_wrap_small by lia.
    nia.
Qed.

End Entry.

(** A call with an empty first array. *)
Lemma precondition_violation_asserts_witness :
  fmpz_mpoly_search_monomials 64 less_than_deg 3 (example_junk [0; 0; 0])
    1 2 0 2 64 1 0 0 example_mem
  = (Err AssertFailed, example_mem).
Proof.
  apply (precondition_violation_asserts 64 less_than_deg 3
           (example_junk [0; 0; 0]) 1 2 0 2 64 1 0 0 example_mem).
  left. lia.
Defined.

(** Exponents of 21 bits in 7 fields take three 64-bit words. *)
Lemma monomial_words_least_witness :
  1 <= monomial_words 64 21 7
  /\ 21 * 7 <= 64 * monomial_words 64 21 7
  /\ (0 < 21 * 7 -> 64 * (monomial_words 64 21 7 - 1) < 21 * 7).
Proof.
  apply (monomial_words_least 64 21 7); vm_compute; repeat split;
    try reflexivity; try discriminate.
Defined.

(** ** Calls that do not enter the main loop *)

Section NoLoop.

Variable FLINT_BITS : Z.
Variable less_than : list Z -> list Z -> Z -> Z -> Z -> bool.

(** Lines 53-75 on any valid call: f gets the score [a_len * b_len] (as an
    [slong]), the monomial [A[0]+B[0]] and a frontier that is [b_len] in
    every row but the last, where it is [b_len - 1]; g gets the score 1 and
    the zero monomial, and its frontier block and h's blocks keep what
    [flint_malloc] left in them. *)
Theorem setup_on_valid_call junk lower upper a_len b_len N m :
  valid_call FLINT_BITS junk lower upper a_len b_len N m ->
  init FLINT_BITS junk a_len b_len N m
  = (Val (mkcand Ifind Efexp (slong_wrap FLINT_BITS (a_len * b_len)),
          mkcand Igind Egexp 1, mkcand Ihind Ehexp 0),
     mkmem (m_a m) (m_b m) (m_e m) (m_e_score m)
           (Some (repeat b_len (Z.to_nat (a_len - 1)) ++ [b_len - 1]))
           (Some (j_gind junk)) (Some (j_hind junk))
           (Some (product FLINT_BITS m N 0 0))
           (Some (repeat 0 (Z.to_nat N)))
           (Some (j_hexp junk)) (Some (j_temp junk))).
Proof. intros V. apply (init_spec FLINT_BITS junk lower upper). exact V. Qed.

(** Lines 78-83: the early exit returns without releasing anything: after
    a valid call with a single product all seven scratch blocks are still
    allocated. *)
Theorem early_exit_keeps_blocks fuel junk lower upper a_len b_len ab_bits ab_elems
        maskhi masklo m :
  let N := monomial_words FLINT_BITS ab_bits ab_elems in
  valid_call FLINT_BITS junk lower upper a_len b_len N m ->
  a_len * b_len = 1 ->
  let r := fmpz_mpoly_search_monomials FLINT_BITS less_than fuel junk lower upper
             a_len b_len ab_bits ab_elems maskhi masklo m in
  fst r = Val tt /\ all_allocated (snd r).
Proof.
  intros N V Hone r. subst r.
  rewrite (search_early_exit FLINT_BITS less_than fuel junk lower upper
             a_len b_len ab_bits ab_elems maskhi masklo m V Hone).
  split; [reflexivity |].
  split; [intros [] | intros []]; discriminate.
Qed.

Lemma hand_back_g0 junk a_len b_len N m :
  0 < N -> Z.of_nat (length (m_e m)) = N ->
  hand_back N G0 (after_init FLINT_BITS junk a_len b_len N m)
  = (Val tt, set_e_score (set_e (after_init FLINT_BITS junk a_len b_len N m)
                                (repeat 0 (Z.to_nat N))) 1).
Proof.
  intros HN He.
  erewrite hand_back_val; [reflexivity | reflexivity | | exact He].
  rewrite repeat_length. lia.
Qed.

(** Lines 86 and 196-221: on a valid call with more than one product,
    [lower <= 1] and [upper] below the number of products, the loop is not
    entered and g as set up is handed back: [e] receives the zero
    monomial, [*e_score] receives 1, and all scratch blocks are released. *)
Theorem low_range_hands_back_zero fuel junk lower upper a_len b_len
        ab_bits ab_elems maskhi masklo m :
  let N := monomial_words FLINT_BITS ab_bits ab_elems in
  valid_call FLINT_BITS junk lower upper a_len b_len N m ->
  lower <= 1 ->
  1 < a_len * b_len ->
  upper < a_len * b_len <= slong_max FLINT_BITS ->
  exists m',
    fmpz_mpoly_search_monomials FLINT_BITS less_than fuel junk lower upper
      a_len b_len ab_bits ab_elems maskhi masklo m = (Val tt, m')
    /\ m_e m' = repeat 0 (Z.to_nat N)
    /\ m_e_score m' = 1
    /\ none_allocated m'.
Proof.
  intros N V Hlow Hmany Hup. pose proof V as V'. destruct V'.
  assert (Hw : slong_wrap FLINT_BITS (a_len * b_len) = a_len * b_len).
  { apply slong_wrap_small; [assumption |]. unfold slong_min, slong_max in *. nia. }
  unfold fmpz_mpoly_search_monomials. fold N.
  replace (a_len >? 0) with true by (symmetry; apply Z.gtb_lt; lia).
  replace (b_len >? 0) with true by (symmetry; apply Z.gtb_lt; lia).
  replace (lower <=? upper) with true by (symmetry; apply Z.leb_le; lia).
  unfold assert. erewrite !bind_val by reflexivity.
  erewrite bind_val by (apply (init_spec FLINT_BITS junk lower upper); exact V).
  cbv beta iota.
  change (c_score (F0 FLINT_BITS a_len b_len))
    with (slong_wrap FLINT_BITS (a_len * b_len)).
  change (c_score G0) with 1. rewrite Hw.
  replace (a_len * b_len =? 1) with false by (symmetry; apply Z.eqb_neq; lia).
  erewrite bind_val.
  2:{ apply main_loop_skipped.
      change (c_score G0) with 1.
      replace (1 <? lower) with false by (symmetry; apply Z.ltb_ge; lia).
      reflexivity. }
  cbv beta iota. unfold final_selection.
  change (c_score (F0 FLINT_BITS a_len b_len))
    with (slong_wrap FLINT_BITS (a_len * b_len)).
  change (c_score G0) with 1. rewrite Hw.
  assert (Hchoice : final_choice FLINT_BITS lower upper (a_len * b_len) 1 = ChooseG).
  { unfold final_choice.
    replace (a_len * b_len <=? lower) with false by (symmetry; apply Z.leb_gt; lia).
    destruct (1 >=? upper); [reflexivity |].
    replace (a_len * b_len <=? upper) with false by (symmetry; apply Z.leb_gt; lia).
    replace (1 >=? lower) with true; [reflexivity |].
    symmetry. rewrite Z.geb_leb. apply Z.leb_le. lia. }
  rewrite Hchoice.
  erewrite bind_val by (apply hand_back_g0; assumption).
  rewrite release_distinct by (simpl; discriminate).
  eexists. split; [reflexivity |]. split; [reflexivity |].
  split; [reflexivity |]. split; [intros [] | intros []]; reflexivity.
Qed.

End NoLoop.

(** The set-up for [A = [5, 3, 1]], [B = [4, 2]]. *)
Lemma setup_on_valid_call_witness :
  init 64 (example_junk [7; 7; 7]) 3 2 1 example_mem
  = (Val (mkcand Ifind Efexp 6, mkcand Igind Egexp 1, mkcand Ihind Ehexp 0),
     mkmem [5; 3; 1] [4; 2] [0] 0
           (Some [2; 2; 1]) (Some [7; 7; 7]) (Some [0; 0; 0])
           (Some [9]) (Some [0]) (Some [0]) (Some [0])).
Proof.
  apply (setup_on_valid_call 64 (example_junk [7; 7; 7]) 1 6 3 2 1 example_mem).
  constructor; vm_compute; repeat split; try reflexivity; try discriminate.
Defined.

(** The call on the arrays [[5]] and [[4]]. *)
Lemma early_exit_keeps_blocks_witness :
  let m := mkmem [5] [4] [0] 0 None None None None None None None in
  let junk := mkscratch [0] [0] [0] [0] [0] [0] [0] in
  let r := fmpz_mpoly_search_monomials 64 less_than_deg 0 junk 1 1 1 1 64 1 0 0 m in
  fst r = Val tt /\ all_allocated (snd r).
Proof.
  intros m junk.
  apply (early_exit_keeps_blocks 64 less_than_deg 0 junk 1 1 1 1 64 1 0 0 m).
  - constructor; vm_compute; repeat split; try reflexivity; try discriminate.
  - reflexivity.
Defined.

(** The call on [A = [5, 3, 1]], [B = [4, 2]] for the range from 1 to 4. *)
Lemma low_range_hands_back_zero_witness :
  exists m',
    fmpz_mpoly_search_monomials 64 less_than_deg 0 (example_junk [7; 7; 7])
      1 4 3 2 64 1 0 0 example_mem = (Val tt, m')
    /\ m_e m' = [0] /\ m_e_score m' = 1 /\ none_allocated m'.
Proof.
  apply (low_range_hands_back_zero 64 less_than_deg 0 (example_junk [7; 7; 7])
           1 4 3 2 64 1 0 0 example_mem).
  - constructor; vm_compute; repeat split; try reflexivity; try discriminate.
  - lia.
  - lia.
  - vm_compute. repeat split; try reflexivity; discriminate.
Defined.

(** ** The final selection is a closest fit *)

Section Closest.

Variable FLINT_BITS : Z.

(** Lines 196-221: with [gscore <= fscore] and [lower <= upper], the score
    handed back is, of the two scores, one that lies nearest to the range
    (inside it whenever one of the two does). *)
Theorem final_choice_closest lower upper N F G :
  0 < FLINT_BITS ->
  lower <= upper ->
  c_score G <= c_score F ->
  slong_min FLINT_BITS <= c_score F - upper <= slong_max FLINT_BITS ->
  slong_min FLINT_BITS <= lower - c_score G <= slong_max FLINT_BITS ->
  let C := chosen (final_choice FLINT_BITS lower upper (c_score F) (c_score G)) F G in
  final_selection FLINT_BITS lower upper N F G = hand_back N C
  /\ range_distance lower upper (c_score C)
     <= range_distance lower upper (c_score F)
  /\ range_distance lower upper (c_score C)
     <= range_distance lower upper (c_score G).
Proof.
  intros Hb Hr Hgf Hf Hg C. subst C. split.
  - unfold final_selection.
    destruct (final_choice FLINT_BITS lower upper (c_score F) (c_score G));
      reflexivity.
  - rewrite final_choice_ties_to_g by assumption.
    unfold ties_to_g_choice, range_distance.
    destruct (c_score F <=? lower) eqn:E1.
    { apply Z.leb_le in E1. cbn [chosen]. lia. }
    apply Z.leb_gt in E1.
    destruct (c_score G >=? upper) eqn:E2.
    { rewrite Z.geb_leb in E2. apply Z.leb_le in E2. cbn [chosen]. lia. }
    rewrite Z.geb_leb in E2. apply Z.leb_gt in E2.
    destruct (c_score F <=? upper) eqn:E3.
    { apply Z.leb_le in E3. cbn [chosen]. lia. }
    apply Z.leb_gt in E3.
    destruct (c_score G >=? lower) eqn:E4.
    { rewrite Z.geb_leb in E4. apply Z.leb_le in E4. cbn [chosen]. lia. }
    rewrite Z.geb_leb in E4. apply Z.leb_gt in E4.
    destruct (c_score F - upper ?= lower - c_score G) eqn:E5; cbn [chosen].
    + apply Z.compare_eq in E5. lia.
    + change (c_score F - upper < lower - c_score G) in E5. lia.
    + apply Z.compare_gt_iff in E5. lia.
Qed.

End Closest.

(** With the scores 6 and 1 and the range from 2 to 4, g is handed back:
    it is 1 below the range and f is 2 above it. *)
Lemma final_choice_closest_witness :
  final_selection 64 2 4 1 (F0 64 3 2) G0 = hand_back 1 G0
  /\ range_distance 2 4 1 <= range_distance 2 4 6
  /\ range_distance 2 4 1 <= range_distance 2 4 1.
Proof.
  apply (final_choice_closest 64 2 4 1 (F0 64 3 2) G0);
    vm_compute; repeat split; try reflexivity; try discriminate.
Defined.

(** ** One pass through the body of the main loop *)

Section Pass.

Variable FLINT_BITS : Z.
Variable less_than : list Z -> list Z -> Z -> Z -> Z -> bool.

(** Lines 89-98 in any state whose two frontier blocks have [a_len]
    entries: the memory is left as it is, [maxdiff] ends as the largest of
    -1 and the gaps [gind[i] - find[i]] (as [slong] values), and [maxind]
    ends as -1. *)
Theorem largest_gap_pass a_len find gind m fl gl :
  m_ind m find = Some fl -> m_ind m gind = Some gl ->
  Z.of_nat (length fl) = a_len -> Z.of_nat (length gl) = a_len ->
  exists maxdiff,
    find_maxdiff FLINT_BITS a_len find gind m = (Val (maxdiff, -1), m)
    /\ -1 <= maxdiff
    /\ (forall i g f, zget gl i = Some g -> zget fl i = Some f ->
                      slong_wrap FLINT_BITS (g - f) <= maxdiff)
    /\ (maxdiff = -1 \/
        exists i g f, zget gl i = Some g /\ zget fl i = Some f /\
                      maxdiff = slong_wrap FLINT_BITS (g - f)).
Proof.
  intros Hf Hg Hlf Hlg.
  destruct (find_maxdiff_spec FLINT_BITS a_len find gind m fl gl Hf Hg Hlf Hlg)
    as (d & Hrun & Hlow & Hall & Hsome).
  exists d. split; [exact Hrun |]. split; [exact Hlow |]. split.
  - intros i g f Hgi Hfi. apply (Hall i g f); try assumption.
    apply zget_Some_range in Hgi. lia.
  - destruct Hsome as [-> | (i & g & f & _ & Hgi & Hfi & ->)];
      [left; reflexivity | right].
    exists i, g, f. repeat split; assumption.
Qed.

(** Lines 100-103: when no frontier entry of g exceeds the one of f and
    some are equal (largest gap 0), the main loop ends there, with f, g, h
    and the memory as they were. *)
Theorem zero_gap_leaves_loop fuel lower upper a_len N maskhi masklo F G H m fl gl :
  m_ind m (c_ind F) = Some fl -> m_ind m (c_ind G) = Some gl ->
  Z.of_nat (length fl) = a_len -> Z.of_nat (length gl) = a_len ->
  is_max_gap FLINT_BITS fl gl a_len 0 ->
  main_loop FLINT_BITS less_than (S fuel) lower upper a_len N maskhi masklo F G H m
  = (Val (F, G, H), m).
Proof.
  intros Hf Hg Hlf Hlg Hmax. cbn [main_loop].
  destruct ((c_score G <? lower) && (upper <? c_score F)); [| reflexivity].
  destruct (find_maxdiff_spec FLINT_BITS a_len (c_ind F) (c_ind G) m fl gl
              Hf Hg Hlf Hlg) as (d & Hrun & Hd).
  rewrite (is_max_gap_unique _ _ _ _ _ _ Hd Hmax) in Hrun.
  erewrite bind_val.
  2:{ unfold loop_body. erewrite bind_val by exact Hrun. reflexivity. }
  reflexivity.
Qed.

(** Lines 126-130: in an iteration in which the largest gap is neither 0
    nor 1 (no gap is positive, or one is 2 or more), the routine indexes
    the frontier blocks with [maxind = -1]: the call stops in that access,
    the memory as it was at the head of the loop. *)
Theorem wide_gap_stops_loop fuel lower upper a_len N maskhi masklo F G H m fl gl d :
  m_ind m (c_ind F) = Some fl -> m_ind m (c_ind G) = Some gl ->
  Z.of_nat (length fl) = a_len -> Z.of_nat (length gl) = a_len ->
  is_max_gap FLINT_BITS fl gl a_len d -> d <> 0 -> d <> 1 ->
  c_score G < lower -> upper < c_score F ->
  main_loop FLINT_BITS less_than (S fuel) lower upper a_len N maskhi masklo F G H m
  = (Err OutOfBounds, m).
Proof.
  intros Hf Hg Hlf Hlg Hmax H0 H1 Hlo Hup. cbn [main_loop].
  replace (c_score G <? lower) with true by (symmetry; apply Z.ltb_lt; lia).
  replace (upper <? c_score F) with true by (symmetry; apply Z.ltb_lt; lia).
  cbn [andb].
  erewrite bind_err; [reflexivity |].
  apply (loop_body_wide_gap FLINT_BITS less_than upper a_len N maskhi masklo
           F G H m fl gl d); assumption.
Qed.

End Pass.

Lemma example_gap_none : is_max_gap 64 [2; 2; 1] [0; 0; 0] 3 (-1).
Proof.
  split; [lia |]. split; [| left; reflexivity].
  intros i g f Hi Hg Hf.
  pose proof (zget_Some_range _ _ _ Hf) as Hr. cbn in Hr.
  assert (Hcases : i = 0 \/ i = 1 \/ i = 2) by lia.
  destruct Hcases as [-> | [-> | ->]];
    vm_compute in Hf, Hg; injection Hf as <-; injection Hg as <-;
    vm_compute; discriminate.
Qed.

Lemma example_gap_zero : is_max_gap 64 [2; 2; 1] [2; 2; 1] 3 0.
Proof.
  split; [lia |]. split.
  - intros i g f Hi Hg Hf.
    pose proof (zget_Some_range _ _ _ Hf) as Hr. cbn in Hr.
    assert (Hcases : i = 0 \/ i = 1 \/ i = 2) by lia.
    destruct Hcases as [-> | [-> | ->]];
      vm_compute in Hf, Hg; injection Hf as <-; injection Hg as <-;
      vm_compute; discriminate.
  - right. exists 0, 2, 2. repeat split; lia.
Qed.

(** The first pass on the example when the fresh [gind] block reads
    [5, 0, 0]: the largest gap is 3. *)
Lemma largest_gap_pass_witness :
  exists maxdiff,
    find_maxdiff 64 3 Ifind Igind (example_after_init 5 0 0)
    = (Val (maxdiff, -1), example_after_init 5 0 0)
    /\ -1 <= maxdiff
    /\ (forall i g f, zget [5; 0; 0] i = Some g -> zget [2; 2; 1] i = Some f ->
                      slong_wrap 64 (g - f) <= maxdiff)
    /\ (maxdiff = -1 \/
        exists i g f, zget [5; 0; 0] i = Some g /\ zget [2; 2; 1] i = Some f /\
                      maxdiff = slong_wrap 64 (g - f)).
Proof.
  apply (largest_gap_pass 64 3 Ifind Igind (example_after_init 5 0 0)
           [2; 2; 1] [5; 0; 0]); reflexivity.
Defined.

(** The example with a fresh [gind] block that reads [2, 2, 1]. *)
Lemma zero_gap_leaves_loop_witness :
  main_loop 64 less_than_deg 1 3 3 3 1 0 0 (F0 64 3 2) G0 H0
    (example_after_init 2 2 1)
  = (Val (F0 64 3 2, G0, H0), example_after_init 2 2 1).
Proof.
  apply (zero_gap_leaves_loop 64 less_than_deg 0 3 3 3 1 0 0 (F0 64 3 2) G0 H0
           (example_after_init 2 2 1) [2; 2; 1] [2; 2; 1]);
    try reflexivity.
  exact example_gap_zero.
Defined.

(** The example with a fresh [gind] block that reads 0. *)
Lemma wide_gap_stops_loop_witness :
  main_loop 64 less_than_deg 1 3 3 3 1 0 0 (F0 64 3 2) G0 H0
    (example_after_init 0 0 0)
  = (Err OutOfBounds, example_after_init 0 0 0).
Proof.
  apply (wide_gap_stops_loop 64 less_than_deg 0 3 3 3 1 0 0 (F0 64 3 2) G0 H0
           (example_after_init 0 0 0) [2; 2; 1] [0; 0; 0] (-1));
    try reflexivity; try lia.
  exact example_gap_none.
Defined.

(** ** Releasing the scratch blocks *)

Lemma free_ind_inv p m m' :
  flint_free_ind p m = (Val tt, m') -> m_ind m p <> None /\ m' = set_ind m p None.
Proof.
  unfold flint_free_ind. destruct (m_ind m p); intros H; [| discriminate].
  injection H as <-. split; [discriminate | reflexivity].
Qed.

Lemma free_exp_inv p m m' :
  flint_free_exp p m = (Val tt, m') -> m_exp m p <> None /\ m' = set_exp m p None.
Proof.
  unfold flint_free_exp. destruct (m_exp m p); intros H; [| discriminate].
  injection H as <-. split; [discriminate | reflexivity].
Qed.

Lemma free_ind_err p m f m' : flint_free_ind p m = (Err f, m') -> f = DoubleFree.
Proof.
  unfold flint_free_ind. destruct (m_ind m p); intros H; [discriminate |].
  injection H as <- _. reflexivity.
Qed.

Lemma free_exp_err p m f m' : flint_free_exp p m = (Err f, m') -> f = DoubleFree.
Proof.
  unfold flint_free_exp. destruct (m_exp m p); intros H; [discriminate |].
  injection H as <- _. reflexivity.
Qed.

Lemma caller_part_set_ind m p v : caller_part (set_ind m p v) = caller_part m.
Proof. destruct p; reflexivity. Qed.

Lemma caller_part_set_exp m p v : caller_part (set_exp m p v) = caller_part m.
Proof. destruct p; reflexivity. Qed.

Lemma m_ind_stays_none m p q : m_ind m q = None -> m_ind (set_ind m p None) q = None.
Proof. destruct p, q; intros H; try exact H; reflexivity. Qed.

Lemma m_exp_stays_none m p q : m_exp m q = None -> m_exp (set_exp m p None) q = None.
Proof. destruct p, q; intros H; try exact H; reflexivity. Qed.

Lemma release_only_double_free F G H m f m' :
  release F G H m = (Err f, m') -> f = DoubleFree.
Proof.
  unfold release. intros Hr.
  repeat match type of Hr with
         | bind _ _ _ = (Err _, _) =>
             apply bind_err_inv in Hr as [Hr | (? & ? & _ & Hr)]
         | flint_free_ind _ _ = (Err _, _) => exact (free_ind_err _ _ _ _ Hr)
         | flint_free_exp _ _ = (Err _, _) => exact (free_exp_err _ _ _ _ Hr)
         end.
Qed.

(** Lines 223-229: when the release sequence completes, f, g and h named
    six different blocks, none of the seven scratch blocks is left
    allocated, and the caller's four blocks are as before it. *)
Theorem release_leaves_nothing F G H m m' :
  release F G H m = (Val tt, m') ->
  none_allocated m'
  /\ (c_ind F <> c_ind G /\ c_ind F <> c_ind H /\ c_ind G <> c_ind H)
  /\ (c_exp F <> c_exp G /\ c_exp F <> c_exp H /\ c_exp G <> c_exp H)
  /\ m_a m' = m_a m /\ m_b m' = m_b m
  /\ m_e m' = m_e m /\ m_e_score m' = m_e_score m.
Proof.
  unfold release. intros Hr.
  apply bind_val_inv in Hr as ([] & m1 & H1 & Hr).
  apply bind_val_inv in Hr as ([] & m2 & H2 & Hr).
  apply bind_val_inv in Hr as ([] & m3 & H3 & Hr).
  apply bind_val_inv in Hr as ([] & m4 & H4 & Hr).
  apply bind_val_inv in Hr as ([] & m5 & H5 & Hr).
  apply bind_val_inv in Hr as ([] & m6 & H6 & Hr).
  apply free_exp_inv in H1 as [L1 ->].
  apply free_ind_inv in H2 as [L2 ->].
  apply free_exp_inv in H3 as [L3 ->].
  apply free_ind_inv in H4 as [L4 ->].
  apply free_exp_inv in H5 as [L5 ->].
  apply free_ind_inv in H6 as [L6 ->].
  apply free_exp_inv in Hr as [L7 ->].
  destruct F as [fi fe fs], G as [gi ge gs], H as [hi he hs].
  cbn [c_ind c_exp] in *.
  assert (Hind : fi <> gi /\ fi <> hi /\ gi <> hi).
  { destruct fi, gi, hi; repeat split; try discriminate; exfalso;
      destruct he, ge; cbn in L4, L6;
      try (apply L4; reflexivity); try (apply L6; reflexivity). }
  assert (Hexp : fe <> ge /\ fe <> he /\ ge <> he
                 /\ fe <> Etemp /\ ge <> Etemp /\ he <> Etemp).
  { destruct fe, ge, he; repeat split; try discriminate; exfalso;
      destruct fi, gi, hi; cbn in L3, L5, L7;
      try (apply L3; reflexivity); try (apply L5; reflexivity);
      try (apply L7; reflexivity). }
  destruct Hind as (I1 & I2 & I3). destruct Hexp as (X1 & X2 & X3 & X4 & X5 & X6).
  split; [| split; [auto | split; [auto |]]].
  - split.
    + intros p.
      assert (Hp : p = fi \/ p = gi \/ p = hi)
        by (destruct p, fi, gi, hi; try contradiction; auto).
      rewrite m_ind_set_exp.
      destruct Hp as [-> | Hp]; [apply m_ind_set_same |].
      apply m_ind_stays_none. rewrite m_ind_set_exp.
      destruct Hp as [-> | ->]; [apply m_ind_set_same |].
      apply m_ind_stays_none. rewrite m_ind_set_exp. apply m_ind_set_same.
    + intros q.
      assert (Hq : q = fe \/ q = ge \/ q = he \/ q = Etemp)
        by (destruct q, fe, ge, he; try contradiction; auto).
      destruct Hq as [-> | Hq]; [apply m_exp_set_same |].
      apply m_exp_stays_none. rewrite m_exp_set_ind.
      destruct Hq as [-> | Hq]; [apply m_exp_set_same |].
      apply m_exp_stays_none. rewrite m_exp_set_ind.
      destruct Hq as [-> | ->]; [apply m_exp_set_same |].
      apply m_exp_stays_none. rewrite m_exp_set_ind. apply m_exp_set_same.
  - match goal with
    | |- m_a ?x = _ /\ _ =>
        assert (Hc : caller_part x = caller_part m)
          by (repeat (rewrite caller_part_set_exp || rewrite caller_part_set_ind);
              reflexivity)
    end.
    unfold caller_part in Hc. injection Hc as Ha Hb He Hs. auto.
Qed.

(** Lines 223-229: when g and h name the same frontier block, the release
    sequence stops in a second free of one block. *)
Lemma release_shared F G H m :
  c_ind G = c_ind H -> fst (release F G H m) = Err DoubleFree.
Proof.
  intros Hshare. unfold release, bind.
  destruct (flint_free_exp Etemp m) as [[[] | f1] m1] eqn:H1.
  2:{ apply free_exp_err in H1. subst. reflexivity. }
  destruct (flint_free_ind (c_ind H) m1) as [[[] | f2] m2] eqn:H2.
  2:{ apply free_ind_err in H2. subst. reflexivity. }
  destruct (flint_free_exp (c_exp H) m2) as [[[] | f3] m3] eqn:H3.
  2:{ apply free_exp_err in H3. subst. reflexivity. }
  apply free_ind_inv in H2 as [_ ->]. apply free_exp_inv in H3 as [_ ->].
  unfold flint_free_ind at 1.
  rewrite m_ind_set_exp, Hshare, m_ind_set_same. reflexivity.
Qed.

Section Sharing.

Variable FLINT_BITS : Z.
Variable less_than : list Z -> list Z -> Z -> Z -> Z -> bool.

Lemma loop_body_next upper a_len N maskhi masklo F G H m F1 G1 H1 m1 :
  loop_body FLINT_BITS less_than upper a_len N maskhi masklo F G H m
  = (Val (Next F1 G1 H1), m1) ->
  exists hscore, Next F1 G1 H1 = replace upper F G H hscore.
Proof.
  unfold loop_body. intros Hb.
  apply bind_val_inv in Hb as ([maxdiff maxind] & m2 & _ & Hb).
  apply bind_val_inv in Hb as (p & m3 & _ & Hb).
  destruct p as [row |]; [| discriminate].
  repeat (apply bind_val_inv in Hb as (? & ? & _ & Hb)).
  injection Hb as Hb _. eexists. symmetry. exact Hb.
Qed.

Lemma replace_keeps_sharing upper F G H hscore F1 G1 H1 :
  replace upper F G H hscore = Next F1 G1 H1 ->
  (upper < hscore \/ c_ind G = c_ind H) ->
  c_ind G1 = c_ind H1.
Proof.
  unfold replace. destruct (hscore <=? upper) eqn:E; intros Hn Hs;
    injection Hn as <- <- <-; cbn [c_ind].
  - apply Z.leb_le in E. destruct Hs as [Hs | Hs]; [lia | congruence].
  - reflexivity.
Qed.

Lemma main_loop_keeps_sharing fuel lower upper a_len N maskhi masklo :
  forall F G H m F2 G2 H2 m',
    c_ind G = c_ind H ->
    main_loop FLINT_BITS less_than fuel lower upper a_len N maskhi masklo F G H m
    = (Val (F2, G2, H2), m') ->
    c_ind G2 = c_ind H2.
Proof.
  induction fuel as [| fuel IH]; intros F G H m F2 G2 H2 m' Hs Hrun;
    cbn [main_loop] in Hrun;
    destruct ((c_score G <? lower) && (upper <? c_score F)).
  - discriminate.
  - injection Hrun as <- <- <- _. exact Hs.
  - apply bind_val_inv in Hrun as (s & m1 & Hbody & Hrun).
    destruct s as [| F1 G1 H1].
    + injection Hrun as <- <- <- _. exact Hs.
    + destruct (loop_body_next _ _ _ _ _ _ _ _ _ _ _ _ _ Hbody) as (hscore & Hn).
      apply (IH F1 G1 H1 m1 F2 G2 H2 m'); [| exact Hrun].
      apply (replace_keeps_sharing upper F G H hscore F1 G1 H1);
        [symmetry; exact Hn | right; exact Hs].
  - injection Hrun as <- <- <- _. exact Hs.
Qed.

(** Lines 188-192 and 223-229: once h has replaced f ([hscore > upper]),
    [hind] is assigned [gind], and the two name one block through every
    further iteration; if the main loop then comes to its end, the release
    sequence frees that block twice. *)
Theorem shared_blocks_freed_twice fuel lower upper a_len N maskhi masklo
        F G H hscore F1 G1 H1 m F2 G2 H2 m' :
  upper < hscore ->
  replace upper F G H hscore = Next F1 G1 H1 ->
  main_loop FLINT_BITS less_than fuel lower upper a_len N maskhi masklo F1 G1 H1 m
  = (Val (F2, G2, H2), m') ->
  c_ind G2 = c_ind H2 /\ fst (release F2 G2 H2 m') = Err DoubleFree.
Proof.
  intros Hup Hn Hrun.
  assert (Hs : c_ind G2 = c_ind H2).
  { apply (main_loop_keeps_sharing fuel lower upper a_len N maskhi masklo
             F1 G1 H1 m F2 G2 H2 m'); [| exact Hrun].
    apply (replace_keeps_sharing upper F G H hscore F1 G1 H1 Hn). left. exact Hup. }
  split; [exact Hs | apply release_shared; exact Hs].
Qed.

End Sharing.

(** The release after a loop that was not entered. *)
Lemma release_leaves_nothing_witness :
  let m := example_after_init 7 7 7 in
  let m' := mkmem [5; 3; 1] [4; 2] [0] 0 None None None None None None None in
  none_allocated m'
  /\ (Ifind <> Igind /\ Ifind <> Ihind /\ Igind <> Ihind)
  /\ (Efexp <> Egexp /\ Efexp <> Ehexp /\ Egexp <> Ehexp)
  /\ m_a m' = m_a m /\ m_b m' = m_b m
  /\ m_e m' = m_e m /\ m_e_score m' = m_e_score m.
Proof.
  intros m m'.
  apply (release_leaves_nothing (F0 64 3 2) G0 H0 m m'). reflexivity.
Defined.

(** On the example, h with score 5 replacing f for the range from 2 to 4,
    after which g's score is at least [lower] and the loop ends. *)
Lemma shared_blocks_freed_twice_witness :
  let F1 := mkcand Ihind Ehexp 5 in
  c_ind G0 = c_ind G0
  /\ fst (release F1 G0 G0 (example_after_init 7 7 7)) = Err DoubleFree.
Proof.
  intros F1.
  apply (shared_blocks_freed_twice 64 less_than_deg 0 1 4 3 1 0 0
           (F0 64 3 2) G0 H0 5 F1 G0 G0 (example_after_init 7 7 7)
           F1 G0 G0 (example_after_init 7 7 7)).
  - lia.
  - reflexivity.
  - reflexivity.
Defined.

(** ** What a call that stops in a fault has written *)

Create HintDb scratch.

Lemma scratch_bind {A B} (c : M A) (k : A -> M B) :
  scratch_only c -> (forall x, scratch_only (k x)) -> scratch_only (bind c k).
Proof.
  intros Hc Hk m. unfold bind. specialize (Hc m).
  destruct (c m) as [[x | f] m1]; cbn [snd] in *; [| exact Hc].
  rewrite (Hk x m1). exact Hc.
Qed.

(** Settles a primitive command by cases on what it finds in the memory. *)
Ltac scratch_prim :=
  intros m;
  repeat match goal with
         | |- context [match ?x with _ => _ end] => destruct x
         end;
  cbn [snd]; rewrite ?caller_part_set_ind, ?caller_part_set_exp; reflexivity.

Lemma scratch_ret {A} (x : A) : scratch_only (ret x).
Proof. intros m. reflexivity. Qed.

Lemma scratch_fail {A} (f : fault) : scratch_only (@fail A f).
Proof. intros m. reflexivity. Qed.

Lemma scratch_of_option {A} (o : option A) : scratch_only (of_option o).
Proof. destruct o; intros m; reflexivity. Qed.

Lemma scratch_assert b : scratch_only (assert b).
Proof. destruct b; intros m; reflexivity. Qed.

Lemma scratch_load_ind p i : scratch_only (load_ind p i).
Proof. unfold load_ind, of_option, ret, fail. scratch_prim. Qed.

Lemma scratch_store_ind p i v : scratch_only (store_ind p i v).
Proof. unfold store_ind. scratch_prim. Qed.

Lemma scratch_load_exp p N : scratch_only (load_exp p N).
Proof. unfold load_exp, of_option, ret, fail. scratch_prim. Qed.

Lemma scratch_store_exp p ws : scratch_only (store_exp p ws).
Proof. unfold store_exp. scratch_prim. Qed.

Lemma scratch_store_exp_word p i v : scratch_only (store_exp_word p i v).
Proof. unfold store_exp_word. scratch_prim. Qed.

Lemma scratch_load_a i N : scratch_only (load_a i N).
Proof. unfold load_a, of_option, ret, fail. scratch_prim. Qed.

Lemma scratch_load_b j N : scratch_only (load_b j N).
Proof. unfold load_b, of_option, ret, fail. scratch_prim. Qed.

Lemma scratch_malloc_ind p junk : scratch_only (flint_malloc_ind p junk).
Proof. unfold flint_malloc_ind. scratch_prim. Qed.

Lemma scratch_malloc_exp p junk : scratch_only (flint_malloc_exp p junk).
Proof. unfold flint_malloc_exp. scratch_prim. Qed.

Lemma scratch_free_ind p : scratch_only (flint_free_ind p).
Proof. unfold flint_free_ind. scratch_prim. Qed.

Lemma scratch_free_exp p : scratch_only (flint_free_exp p).
Proof. unfold flint_free_exp. scratch_prim. Qed.

#[global] Hint Resolve scratch_ret scratch_fail scratch_of_option scratch_assert
  scratch_load_ind scratch_store_ind scratch_load_exp scratch_store_exp
  scratch_store_exp_word scratch_load_a scratch_load_b scratch_malloc_ind
  scratch_malloc_exp scratch_free_ind scratch_free_exp : scratch.

Ltac scratch_step :=
  match goal with
  | |- scratch_only (bind _ _) => apply scratch_bind; [| intros ?]
  | |- scratch_only (if ?b then _ else _) => destruct b
  | |- scratch_only (let (_, _) := ?p in _) => destruct p
  | |- scratch_only (match ?p with Some _ => _ | None => _ end) => destruct p
  | |- scratch_only _ => solve [auto with scratch]
  end.

Ltac scratch := repeat scratch_step.

Lemma scratch_for_count n : forall i body,
  (forall j, scratch_only (body j)) -> scratch_only (for_count n i body).
Proof. induction n; intros i body Hb; simpl; scratch; auto. Qed.

Lemma scratch_fold_count {S} n : forall i (body : Z -> S -> M S) s,
  (forall j t, scratch_only (body j t)) -> scratch_only (fold_count n i body s).
Proof. induction n; intros i body s Hb; simpl; scratch; auto. Qed.

Lemma scratch_fold_down_count {S} n : forall i (body : Z -> S -> M S) s,
  (forall j t, scratch_only (body j t)) ->
  scratch_only (fold_down_count n i body s).
Proof. induction n; intros i body s Hb; simpl; scratch; auto. Qed.

Section Scratch.

Variable FLINT_BITS : Z.
Variable less_than : list Z -> list Z -> Z -> Z -> Z -> bool.

Lemma scratch_monomial_add dst i j N :
  scratch_only (mpoly_monomial_add FLINT_BITS dst i j N).
Proof. unfold mpoly_monomial_add; scratch. Qed.

Lemma scratch_monomial_eq p q N : scratch_only (mpoly_monomial_eq p q N).
Proof. unfold mpoly_monomial_eq; scratch. Qed.

Lemma scratch_monomial_lt p q N hi lo :
  scratch_only (mpoly_monomial_lt less_than p q N hi lo).
Proof. unfold mpoly_monomial_lt; scratch. Qed.

Hint Resolve scratch_monomial_add scratch_monomial_eq scratch_monomial_lt : scratch.

Lemma scratch_init junk a_len b_len N :
  scratch_only (init FLINT_BITS junk a_len b_len N).
Proof.
  unfold init, for_up; scratch; apply scratch_for_count; intros; scratch.
Qed.

Lemma scratch_inner_right n N hi lo hexp i : forall j x,
  scratch_only (inner_right FLINT_BITS less_than n N hi lo hexp i j x).
Proof. induction n; intros j x; simpl; scratch; auto. Qed.

Lemma scratch_inner_left n N hi lo hexp i : forall j x,
  scratch_only (inner_left FLINT_BITS less_than n N hi lo hexp i j x).
Proof. induction n; intros j x; simpl; scratch; auto. Qed.

Hint Resolve scratch_inner_right scratch_inner_left : scratch.

Lemma scratch_loop_body upper a_len N hi lo F G H :
  scratch_only (loop_body FLINT_BITS less_than upper a_len N hi lo F G H).
Proof.
  assert (Hmax : scratch_only (find_maxdiff FLINT_BITS a_len (c_ind F) (c_ind G))).
  { unfold find_maxdiff, fold_up. apply scratch_fold_count.
    intros j [d i]. unfold find_maxdiff_row; scratch. }
  assert (Hscan : scratch_only (scan_gap1 FLINT_BITS a_len N F G H)).
  { unfold scan_gap1, fold_up. apply scratch_fold_count.
    intros j t. unfold scan_gap1_row; scratch. }
  assert (Hright : forall p s,
             scratch_only (path_right FLINT_BITS less_than a_len N hi lo F G H p s)).
  { intros p s. unfold path_right, fold_up. apply scratch_fold_count.
    intros j t; scratch. }
  assert (Hleft : forall p s,
             scratch_only (path_left FLINT_BITS less_than N hi lo F G H p s)).
  { intros p s. unfold path_left, fold_down. apply scratch_fold_down_count.
    intros j t; scratch. }
  unfold loop_body, choose_pivot; scratch.
Qed.

Lemma scratch_main_loop fuel lower upper a_len N hi lo : forall F G H,
  scratch_only (main_loop FLINT_BITS less_than fuel lower upper a_len N hi lo F G H).
Proof.
  induction fuel; intros F G H; simpl; scratch.
  - apply scratch_loop_body.
  - match goal with x : step |- _ => destruct x end; scratch; auto.
Qed.

Lemma hand_back_fault N C m f m' :
  hand_back N C m = (Err f, m') -> caller_part m' = caller_part m.
Proof.
  unfold hand_back, mpoly_monomial_set. intros Hr.
  apply bind_err_inv in Hr as [Hr | (? & ? & _ & Hr)]; [| discriminate].
  apply bind_err_inv in Hr as [Hr | (ws & m1 & Hl & Hr)].
  - pose proof (scratch_load_exp (c_exp C) N m) as Hk. rewrite Hr in Hk. exact Hk.
  - pose proof (scratch_load_exp (c_exp C) N m) as Hk. rewrite Hl in Hk.
    cbn [snd] in Hk. unfold store_e in Hr.
    destruct (blit (m_e m1) ws); [discriminate |].
    injection Hr as _ <-. exact Hk.
Qed.

(** Lines 27-230: a call that stops in a fault other than a second free of
    a block has written to scratch blocks only; [e] and [*e_score], like
    [a] and [b], hold what they held before the call. *)
Theorem fault_leaves_caller_blocks fuel junk lower upper a_len b_len
        ab_bits ab_elems maskhi masklo m f m' :
  fmpz_mpoly_search_monomials FLINT_BITS less_than fuel junk lower upper
    a_len b_len ab_bits ab_elems maskhi masklo m = (Err f, m') ->
  f <> DoubleFree ->
  m_a m' = m_a m /\ m_b m' = m_b m
  /\ m_e m' = m_e m /\ m_e_score m' = m_e_score m.
Proof.
  intros Hr Hf.
  enough (Hc : caller_part m' = caller_part m).
  { unfold caller_part in Hc. injection Hc as Ha Hb He Hs. auto. }
  unfold fmpz_mpoly_search_monomials in Hr.
  set (N := monomial_words FLINT_BITS ab_bits ab_elems) in *.
  assert (Hstep : forall {A} (c : M A) m0 r m1,
             scratch_only c -> c m0 = (r, m1) -> caller_part m1 = caller_part m0).
  { intros A c m0 r m1 Hc Hrun. specialize (Hc m0). rewrite Hrun in Hc. exact Hc. }
  apply bind_err_inv in Hr as [Hr | (? & m1 & H1 & Hr)];
    [exact (Hstep _ _ _ _ _ (scratch_assert _) Hr) |].
  apply (Hstep _ _ _ _ _ (scratch_assert _)) in H1.
  apply bind_err_inv in Hr as [Hr | (? & m2 & H2 & Hr)];
    [rewrite <- H1; exact (Hstep _ _ _ _ _ (scratch_assert _) Hr) |].
  apply (Hstep _ _ _ _ _ (scratch_assert _)) in H2.
  apply bind_err_inv in Hr as [Hr | (? & m3 & H3 & Hr)];
    [rewrite <- H1, <- H2; exact (Hstep _ _ _ _ _ (scratch_assert _) Hr) |].
  apply (Hstep _ _ _ _ _ (scratch_assert _)) in H3.
  apply bind_err_inv in Hr as [Hr | ([[F G] H] & m4 & H4 & Hr)];
    [rewrite <- H1, <- H2, <- H3;
     exact (Hstep _ _ _ _ _ (scratch_init _ _ _ _) Hr) |].
  apply (Hstep _ _ _ _ _ (scratch_init _ _ _ _)) in H4.
  assert (H04 : caller_part m4 = caller_part m) by congruence.
  rewrite <- H04. clear H1 H2 H3 H4 H04.
  destruct (c_score F =? c_score G).
  { exact (hand_back_fault _ _ _ _ _ Hr). }
  apply bind_err_inv in Hr as [Hr | ([[F' G'] H'] & m5 & H5 & Hr)];
    [exact (Hstep _ _ _ _ _ (scratch_main_loop _ _ _ _ _ _ _ _ _ _) Hr) |].
  apply (Hstep _ _ _ _ _ (scratch_main_loop _ _ _ _ _ _ _ _ _ _)) in H5.
  rewrite <- H5.
  apply bind_err_inv in Hr as [Hr | (? & m6 & _ & Hr)].
  - unfold final_selection in Hr.
    destruct (final_choice _ _ _ _ _) in Hr; exact (hand_back_fault _ _ _ _ _ Hr).
  - apply release_only_double_free in Hr. contradiction.
Qed.

End Scratch.

(** The example with a fresh [gind] block that reads 0 stops in the access
    of line 129. *)
Lemma fault_leaves_caller_blocks_witness :
  let r := example_call 1 [0; 0; 0] 3 3 in
  m_a (snd r) = m_a example_mem /\ m_b (snd r) = m_b example_mem
  /\ m_e (snd r) = m_e example_mem
  /\ m_e_score (snd r) = m_e_score example_mem.
Proof.
  intros r.
  apply (fault_leaves_caller_blocks 64 less_than_deg 1 (example_junk [0; 0; 0])
           3 3 3 2 64 1 0 0 example_mem OutOfBounds (snd r)).
  - subst r. vm_compute. reflexivity.
  - discriminate.
Defined.

(** ** At the head of the main loop *)

Section AtHead.

Variable FLINT_BITS : Z.
Variable less_than : list Z -> list Z -> Z -> Z -> Z -> bool.

(** Lines 68-70 and 167-180: whenever a valid call evaluates the test of
    line 86, all scratch blocks are allocated with their sizes and f's
    frontier is at least [b_len], so beyond the last column of the matrix,
    in every row below the last; the caller's arrays have their sizes. *)
Theorem frontier_beyond_columns_at_head junk lower upper a_len b_len N
        maskhi masklo m0 F G H m :
  valid_call FLINT_BITS junk lower upper a_len b_len N m0 ->
  loop_head FLINT_BITS less_than junk lower upper a_len b_len N maskhi masklo
            m0 F G H m ->
  blocks_sized a_len N m
  /\ (exists fl, m_ind m (c_ind F) = Some fl
                 /\ forall i v, 0 <= i < a_len - 1 -> zget fl i = Some v ->
                                b_len <= v)
  /\ Z.of_nat (length (m_a m)) = a_len * N
  /\ Z.of_nat (length (m_b m)) = b_len * N.
Proof.
  intros V Hh.
  destruct (loop_head_inv FLINT_BITS less_than junk lower upper a_len b_len N
              maskhi masklo m0 F G H m V Hh).
  split; [assumption |]. split; [| split; assumption].
  destruct hi_sized0 as [Hind _]. destruct (Hind (c_ind F)) as (fl & Hf & _).
  exists fl. split; [exact Hf |].
  intros i v Hi Hv. apply (hi_tall0 fl Hf i v); [lia | lia | exact Hv].
Qed.

(** Lines 87-192: whatever its outcome, a pass through the body of the
    loop leaves every scratch block allocated with the size it had. *)
Theorem loop_body_keeps_blocks upper a_len N maskhi masklo F G H m :
  blocks_sized a_len N m ->
  blocks_sized a_len N
    (snd (loop_body FLINT_BITS less_than upper a_len N maskhi masklo F G H m)).
Proof. apply sized_loop_body. Qed.

End AtHead.

Lemma example_blocks_sized g0 g1 g2 :
  blocks_sized 3 1 (example_after_init g0 g1 g2).
Proof.
  split; [intros [| |] | intros [| | |]]; cbn; eexists; split; reflexivity.
Qed.

(** The head reached on the example after one pass, under the reverse of
    the degree order, when the fresh [gind] block reads [2, 2, 2] and h
    has replaced g. *)
Lemma frontier_beyond_columns_at_head_witness :
  blocks_sized 3 1 (example_after_pass 2 2 2)
  /\ (exists fl, m_ind (example_after_pass 2 2 2) Ifind = Some fl
                 /\ forall i v, 0 <= i < 3 - 1 -> zget fl i = Some v -> 2 <= v)
  /\ Z.of_nat (length (m_a (example_after_pass 2 2 2))) = 3 * 1
  /\ Z.of_nat (length (m_b (example_after_pass 2 2 2))) = 2 * 1.
Proof.
  apply (frontier_beyond_columns_at_head 64
           (fun x y N maskhi masklo => less_than_deg y x N maskhi masklo)
           (example_junk [2; 2; 2]) 3 3 3 2 1 0 0 example_mem
           (F0 64 3 2) (mkcand Ihind Ehexp 2) G0 (example_after_pass 2 2 2)).
  - apply example_valid_call; [reflexivity | lia | lia | lia].
  - apply (head_next 64 _ (example_junk [2; 2; 2]) 3 3 3 2 1 0 0 example_mem
             (F0 64 3 2) G0 H0 (example_after_init 2 2 2)).
    + apply head_first.
    + reflexivity.
    + vm_compute. reflexivity.
Defined.

(** A pass on the example that stops in the access of line 129. *)
Lemma loop_body_keeps_blocks_witness :
  blocks_sized 3 1
    (snd (loop_body 64 less_than_deg 3 3 1 0 0 (F0 64 3 2) G0 H0
            (example_after_init 0 0 0))).
Proof.
  apply (loop_body_keeps_blocks 64 less_than_deg 3 3 1 0 0 (F0 64 3 2) G0 H0
           (example_after_init 0 0 0)).
  apply example_blocks_sized.
Defined.

Lemma example_scan_ready :
  scan_ready (example_after_init 2 2 2) 3 2 1 (F0 64 3 2) G0 H0
             [2; 2; 1] [2; 2; 2] [9].
Proof.
  constructor; try reflexivity; try discriminate; try lia.
  - exists [0; 0; 0]. split; reflexivity.
  - exists [0]. split; reflexivity.
  - exists [0]. split; reflexivity.
  - intros i g f Hg Hf Hgf.
    pose proof (zget_Some_range _ _ _ Hf) as Hi. cbn in Hi.
    assert (Hcases : i = 0 \/ i = 1 \/ i = 2) by lia.
    destruct Hcases as [-> | [-> | ->]];
      vm_compute in Hf, Hg; injection Hf as <-; injection Hg as <-; lia.
Qed.

